(** * lightweight-scraper-next: the scrape endpoint

    A shallow embedding of [src/pages/api/scrape.ts]: URL validation, the
    host-safety check against private addresses, the timeout wrapper, the
    navigation retry loop and the browser cleanup routine, together with the
    properties the design document states about them. *)

From Stdlib Require Import ZArith List String Ascii Bool Lia.
Import ListNotations.
Local Open Scope string_scope.
Local Open Scope list_scope.
Local Open Scope Z_scope.

(** ** JavaScript built-ins used by the endpoint *)

Module Js.

(** [String.prototype.split] with a one-character separator: the pieces
    between the separators, the empty string giving one empty piece. *)
Fixpoint split (sep : ascii) (s : string) : list string :=
  match s with
  | EmptyString => [EmptyString]
  | String c r =>
      if Ascii.eqb c sep then EmptyString :: split sep r
      else match split sep r with
           | h :: t => String c h :: t
           | [] => [String c EmptyString]
           end
  end.

Definition is_digit (c : ascii) : bool :=
  let n := Z.of_nat (nat_of_ascii c) in (48 <=? n) && (n <=? 57).

Definition digit_value (c : ascii) : Z := Z.of_nat (nat_of_ascii c) - 48.

Fixpoint all_digits (s : string) : bool :=
  match s with
  | EmptyString => true
  | String c r => is_digit c && all_digits r
  end.

Fixpoint decimal_value (acc : Z) (s : string) : Z :=
  match s with
  | EmptyString => acc
  | String c r => decimal_value (10 * acc + digit_value c) r
  end.

(** A JavaScript number as far as the endpoint computes with one: the
    value of a decimal literal, or NaN. *)
Inductive number : Type :=
| NaN
| Num (z : Z).

(** [Number(p)] on the pieces of an address: a run of decimal digits is
    its value (the empty string is 0); the endpoint only converts pieces
    of a string that [net.isIP] has classified as IPv4, every other
    string is NaN here. *)
Definition Number (p : string) : number :=
  if all_digits p then Num (decimal_value 0 p) else NaN.

(** [x === n], [x >= n] and [x <= n] for a possibly undefined array
    element [x] and a literal [n]: undefined and NaN compare false. *)
Definition strict_eq (x : option number) (n : Z) : bool :=
  match x with Some (Num z) => z =? n | _ => false end.

Definition ge (x : option number) (n : Z) : bool :=
  match x with Some (Num z) => n <=? z | _ => false end.

Definition le (x : option number) (n : Z) : bool :=
  match x with Some (Num z) => z <=? n | _ => false end.

Definition lower_char (c : ascii) : ascii :=
  let n := nat_of_ascii c in
  if (Nat.leb 65 n && Nat.leb n 90)%bool then ascii_of_nat (n + 32) else c.

(** [String.prototype.toLowerCase] on the ASCII letters. *)
Fixpoint toLowerCase (s : string) : string :=
  match s with
  | EmptyString => EmptyString
  | String c r => String (lower_char c) (toLowerCase r)
  end.

(** [s.startsWith(p)]. *)
Definition startsWith (s p : string) : bool := String.prefix p s.

(** [s.includes(p)]: [p] occurs somewhere in [s]. *)
Fixpoint includes (s p : string) : bool :=
  String.prefix p s ||
  match s with
  | EmptyString => false
  | String _ r => includes r p
  end.

(** A thrown value; the endpoint only reads its message
    ([err instanceof Error ? err.message : String(err)]). *)
Record Error : Type := mkError { message : string }.

End Js.

(** ** Addresses: numeric values, ranges and textual forms *)

Module Addr.

(** The 32-bit value of the IPv4 address [a.b.c.d]. *)
Definition ipv4 (a b c d : Z) : Z :=
  ((a * 256 + b) * 256 + c) * 256 + d.

Definition octet (x : Z) : Prop := 0 <= x < 256.

(** Membership of a [w]-bit value in the range [base/len]: the leading
    [len] bits agree. *)
Definition in_cidr (w : Z) (base len v : Z) : bool :=
  Z.shiftr v (w - len) =? Z.shiftr base (w - len).

(** The IPv4 ranges the design document lists as private or internal:
    10.0.0.0/8, 127.0.0.0/8, 169.254.0.0/16, 192.168.0.0/16,
    172.16.0.0/12 and 0.0.0.0/8. *)
Definition private_ranges_v4 : list (Z * Z) :=
  [ (ipv4 10 0 0 0, 8); (ipv4 127 0 0 0, 8); (ipv4 169 254 0 0, 16);
    (ipv4 192 168 0 0, 16); (ipv4 172 16 0 0, 12); (ipv4 0 0 0 0, 8) ].

Definition in_private_range_v4 (v : Z) : bool :=
  existsb (fun r => in_cidr 32 (fst r) (snd r) v) private_ranges_v4.

Definition digit_char (n : Z) : ascii := ascii_of_nat (48 + Z.to_nat n).

(** Decimal text of an octet, without leading zeros. *)
Definition octet_to_string (a : Z) : string :=
  if a <? 10 then String (digit_char a) EmptyString
  else if a <? 100 then
    String (digit_char (a / 10)) (String (digit_char (a mod 10)) EmptyString)
  else
    String (digit_char (a / 100))
      (String (digit_char (a / 10 mod 10))
         (String (digit_char (a mod 10)) EmptyString)).

(** Dotted-decimal text of [a.b.c.d]. *)
Definition ipv4_to_string (a b c d : Z) : string :=
  (octet_to_string a ++ "." ++ octet_to_string b ++ "." ++
   octet_to_string c ++ "." ++ octet_to_string d)%string.

(** The 128-bit value of an IPv6 address given as its eight 16-bit
    groups, most significant first. *)
Definition ipv6 (groups : list Z) : Z :=
  fold_left (fun acc g => Z.lor (Z.shiftl acc 16) g) groups 0.

Definition loopback_v6 : Z := 1.
Definition unique_local_v6 : Z * Z := (Z.shiftl 0xfc00 112, 7).
Definition link_local_v6 : Z * Z := (Z.shiftl 0xfe80 112, 10).

(** What the design document calls a private IPv6 address: ::1, or in
    fc00::/7, or in fe80::/10. *)
Definition in_private_range_v6 (v : Z) : bool :=
  (v =? loopback_v6)
  || in_cidr 128 (fst unique_local_v6) (snd unique_local_v6) v
  || in_cidr 128 (fst link_local_v6) (snd link_local_v6) v.

End Addr.

(** ** Reference reading of address text

    [net.isIP] belongs to the Node runtime, not to the endpoint; the
    endpoint is verified against an arbitrary classifier. The reader below
    covers dotted-decimal IPv4 and colon-hexadecimal IPv6 (with one [::])
    and gives one concrete classifier to run the endpoint on. *)

Module AddrText.

Definition hex_value (c : ascii) : option Z :=
  let n := Z.of_nat (nat_of_ascii c) in
  if (48 <=? n) && (n <=? 57) then Some (n - 48)
  else if (97 <=? n) && (n <=? 102) then Some (n - 87)
  else if (65 <=? n) && (n <=? 70) then Some (n - 55)
  else None.

Fixpoint hex_digits (acc : Z) (s : string) : option Z :=
  match s with
  | EmptyString => Some acc
  | String c r =>
      match hex_value c with
      | Some d => hex_digits (16 * acc + d) r
      | None => None
      end
  end.

(** One group of an IPv6 address: one to four hexadecimal digits. *)
Definition parse_group (s : string) : option Z :=
  let n := String.length s in
  if (Nat.leb 1 n && Nat.leb n 4)%bool then hex_digits 0 s else None.

Fixpoint parse_groups (l : list string) : option (list Z) :=
  match l with
  | [] => Some []
  | s :: r =>
      match parse_group s, parse_groups r with
      | Some g, Some gs => Some (g :: gs)
      | _, _ => None
      end
  end.

(** The pieces before and after the first empty piece. *)
Fixpoint cut_at_empty (l : list string) : list string * option (list string) :=
  match l with
  | [] => ([], None)
  | s :: r =>
      if String.eqb s EmptyString then ([], Some r)
      else let '(a, b) := cut_at_empty r in (s :: a, b)
  end.

Fixpoint ends_with (s p : string) : bool :=
  String.eqb s p ||
  match s with
  | EmptyString => false
  | String _ r => ends_with r p
  end.

Definition is_empty (s : string) : bool := String.eqb s EmptyString.

(** The eight groups of an IPv6 address text; [::] stands for the run of
    zero groups that completes the address. *)
Definition parse_ipv6 (s : string) : option (list Z) :=
  let pieces := Js.split ":" s in
  let lead := String.prefix "::" s in
  let trail := ends_with s "::" in
  if (negb lead && is_empty (hd EmptyString pieces))
     || (negb trail && is_empty (last pieces EmptyString))
  then None
  else
    let pieces := if lead then tl pieces else pieces in
    let pieces := if trail then removelast pieces else pieces in
    match cut_at_empty pieces with
    | (front, None) =>
        match parse_groups front with
        | Some gs => if Nat.eqb (List.length gs) 8 then Some gs else None
        | None => None
        end
    | (front, Some back) =>
        match parse_groups front, parse_groups back with
        | Some f, Some b =>
            let n := (List.length f + List.length b)%nat in
            if Nat.leb n 7 then Some (f ++ repeat 0 (8 - n) ++ b) else None
        | _, _ => None
        end
    end.

Definition parse_octet (s : string) : option Z :=
  let n := String.length s in
  if (Nat.leb 1 n && Nat.leb n 3)%bool && Js.all_digits s
     && String.eqb s (Addr.octet_to_string (Js.decimal_value 0 s))
     && (Js.decimal_value 0 s <? 256)
  then Some (Js.decimal_value 0 s) else None.

(** The four octets of a dotted-decimal text, without leading zeros. *)
Definition parse_ipv4 (s : string) : option (list Z) :=
  match map parse_octet (Js.split "." s) with
  | [Some a; Some b; Some c; Some d] => Some [a; b; c; d]
  | _ => None
  end.

(** A classifier in the shape of [net.isIP]: 4, 6, or 0. *)
Definition isIP_ref (s : string) : Z :=
  match parse_ipv4 s, parse_ipv6 s with
  | Some _, _ => 4
  | None, Some _ => 6
  | None, None => 0
  end.

End AddrText.

(** ** Data of the endpoint *)

(** The two components of a parsed [URL] the endpoint reads. *)
Record URL : Type := mkURL { protocol : string; hostname : string }.

(** One entry of [dns.lookup(hostname, { all: true })]. *)
Record LookupAddress : Type := mkLookupAddress { address : string; family : Z }.

(** Playwright handles. *)
Record Browser : Type := mkBrowser { browser_id : nat }.
Record BrowserContext : Type := mkContext { context_id : nat }.
Record Page : Type := mkPage { page_id : nat }.

(** What the in-page callback of [page.evaluate] sees: the elements that
    [document.querySelector] finds for ["title"], ['meta[name="description"]']
    and ["h1"], if any. *)
Record Element : Type :=
  mkElement { textContent : option string; content_attribute : option string }.

Record Document : Type :=
  mkDocument { sel_title : option Element; sel_meta : option Element;
               sel_h1 : option Element }.

(** [SuccessResponse], [DebugSuccess] and [ErrorResponse]. *)
Inductive Body : Type :=
| SuccessResponse (title metaDescription h1 : option string) (status : Z)
| DebugSuccess (html : string) (status : Z)
| ErrorResponse (error : string) (details : option string).

(** [res.status(code).json(body)]. *)
Record Response : Type := mkResponse { res_status : Z; res_body : Body }.

(** A query parameter of the request: absent, a string, or an array. *)
Inductive QueryValue : Type :=
| QUndefined
| QString (s : string)
| QArray (l : list string).

Record Request : Type :=
  mkRequest { req_method : string; query_url : QueryValue; query_debug : QueryValue }.

(** The variables of [handler] that its closures share. *)
Record Vars : Type := mkVars { browser : option Browser; pageClosed : bool }.

Definition set_browser (b : Browser) (v : Vars) : Vars :=
  {| browser := Some b; pageClosed := pageClosed v |}.

Definition set_pageClosed (v : Vars) : Vars :=
  {| browser := browser v; pageClosed := true |}.

(** ** Asynchronous code as trees of awaited calls *)

(** How an awaited promise settles. *)
Inductive Settled (T : Type) : Type :=
| Fulfilled (v : T)
| Rejected (e : Js.Error).
Arguments Fulfilled {T} v.
Arguments Rejected {T} e.

(** The asynchronous calls the endpoint awaits, with the type of the value
    each promise fulfils with. *)
Inductive Call : Type -> Type :=
| dns_lookup (host : string) : Call (list LookupAddress)
| chromium_launch : Call Browser
| browser_newContext (b : Browser) (userAgent : string) : Call BrowserContext
| context_newPage (c : BrowserContext) : Call Page
| page_goto (p : Page) (url waitUntil : string) : Call unit
| page_content (p : Page) : Call string
| page_evaluate (p : Page) : Call Document
| browser_close (b : Browser) : Call unit
| delay (ms : Z) : Call unit.

(** Synchronous effects. *)
Inductive Effect : Type :=
| setDefaultNavigationTimeout (p : Page) (ms : Z)
| setDefaultTimeout (p : Page) (ms : Z)
| setHeader (name value : string)
| console_error (msg : string)
| respond (r : Response).

(** A piece of asynchronous code: it returns, throws, awaits a call and
    goes on with how it settled, reads or updates the shared variables, or
    performs a synchronous effect. *)
Inductive Proc (A : Type) : Type :=
| Ret (a : A)
| Throw (e : Js.Error)
| Await {T : Type} (c : Call T) (k : Settled T -> Proc A)
| Load (k : Vars -> Proc A)
| Update (f : Vars -> Vars) (k : Proc A)
| Emit (e : Effect) (k : Proc A).
Arguments Ret {A} a.
Arguments Throw {A} e.
Arguments Await {A T} c k.
Arguments Load {A} k.
Arguments Update {A} f k.
Arguments Emit {A} e k.

Fixpoint bind {A B : Type} (p : Proc A) (f : A -> Proc B) : Proc B :=
  match p with
  | Ret a => f a
  | Throw e => Throw e
  | Await c k => Await c (fun r => bind (k r) f)
  | Load k => Load (fun v => bind (k v) f)
  | Update g k => Update g (bind k f)
  | Emit e k => Emit e (bind k f)
  end.

(** [try { p } catch (e) { h e }]. *)
Fixpoint try_catch {A : Type} (p : Proc A) (h : Js.Error -> Proc A) : Proc A :=
  match p with
  | Ret a => Ret a
  | Throw e => h e
  | Await c k => Await c (fun r => try_catch (k r) h)
  | Load k => Load (fun v => try_catch (k v) h)
  | Update g k => Update g (try_catch k h)
  | Emit e k => Emit e (try_catch k h)
  end.

(** [await c]: the value on fulfilment, a throw on rejection. *)
Definition await {T : Type} (c : Call T) : Proc T :=
  Await c (fun r => match r with Fulfilled v => Ret v | Rejected e => Throw e end).

Declare Scope proc_scope.
Delimit Scope proc_scope with proc.
Notation "x <- p ;; q" := (bind p (fun x => q))
  (at level 61, p at next level, right associativity) : proc_scope.
Notation "p ;; q" := (bind p (fun _ => q))
  (at level 61, right associativity) : proc_scope.
Local Open Scope proc_scope.

(** ** Traces *)

Inductive Thread : Type := Main | Op | Timer.

(** The name of a call, as it is logged. *)
Inductive CallName : Type :=
| CDnsLookup (host : string)
| CLaunch
| CNewContext (userAgent : string)
| CNewPage
| CGoto (url waitUntil : string)
| CContent
| CEvaluate
| CClose
| CDelay (ms : Z).

Definition name_of {T : Type} (c : Call T) : CallName :=
  match c with
  | dns_lookup h => CDnsLookup h
  | chromium_launch => CLaunch
  | browser_newContext _ ua => CNewContext ua
  | context_newPage _ => CNewPage
  | page_goto _ u w => CGoto u w
  | page_content _ => CContent
  | page_evaluate _ => CEvaluate
  | browser_close _ => CClose
  | delay ms => CDelay ms
  end.

Inductive Event : Type :=
| EvCall (who : Thread) (c : CallName)             (* a call is issued *)
| EvSettle (who : Thread) (c : CallName) (ok : bool) (* its promise settled *)
| EvEffect (who : Thread) (e : Effect)
| EvSetTimeout (ms : Z)                             (* the timer is armed *)
| EvTimerFired
| EvOnTimeoutCalled
| EvOnTimeoutSettled
| EvRejectTimeout                                   (* reject(new Error("Timeout")) *)
| EvRaceSettled (ok : bool)                         (* Promise.race settled *)
| EvClearTimeout.

Definition fulfilled {T : Type} (r : Settled T) : bool :=
  match r with Fulfilled _ => true | Rejected _ => false end.

(** How the environment settles a call. *)
Definition Answer : Type := forall T : Type, Call T -> Settled T.

(** Run a piece of code on its own, the [n]-th awaited call settling as
    [env n] says: the final variables, the trace, and the value returned or
    thrown. *)
Fixpoint run {A : Type} (who : Thread) (env : nat -> Answer) (v : Vars)
    (tr : list Event) (p : Proc A) : Vars * list Event * (A + Js.Error) :=
  match p with
  | Ret a => (v, tr, inl a)
  | Throw e => (v, tr, inr e)
  | Await c k =>
      let r := env O _ c in
      run who (fun n => env (S n)) v
        (tr ++ [EvCall who (name_of c); EvSettle who (name_of c) (fulfilled r)])
        (k r)
  | Load k => run who env v tr (k v)
  | Update f k => run who env (f v) tr k
  | Emit e k => run who env v (tr ++ [EvEffect who e]) k
  end.

(** Run a piece of code up to its next awaited call, which is issued and
    logged, or to its end. *)
Fixpoint advance {A : Type} (who : Thread) (v : Vars) (tr : list Event)
    (p : Proc A) : Vars * list Event * Proc A :=
  match p with
  | Ret a => (v, tr, Ret a)
  | Throw e => (v, tr, Throw e)
  | Await c k => (v, tr ++ [EvCall who (name_of c)], Await c k)
  | Load k => advance who v tr (k v)
  | Update f k => advance who (f v) tr k
  | Emit e k => advance who v (tr ++ [EvEffect who e]) k
  end.

(** ** The endpoint, [src/pages/api/scrape.ts] *)

Definition TIMEOUT : Z := 20000.

Definition DEFAULT_USER_AGENT : string :=
  "Mozilla/5.0 (Windows NT 10.0; Win64; x64) AppleWebKit/537.36 (KHTML, like Gecko) Chrome/120.0.0.0 Safari/537.36".

Definition isPrivateIpv4 (octets : list Js.number) : bool :=
  let a := nth_error octets 0 in
  let b := nth_error octets 1 in
  if Js.strict_eq a 10 then true
  else if Js.strict_eq a 127 then true
  else if Js.strict_eq a 169 && Js.strict_eq b 254 then true
  else if Js.strict_eq a 192 && Js.strict_eq b 168 then true
  else if Js.strict_eq a 172 && Js.ge b 16 && Js.le b 31 then true
  else if Js.strict_eq a 0 then true
  else false.

Section Endpoint.

(** The runtime's [net.isIP] and [new URL(s)] ([None] when it throws). *)
Variable isIP : string -> Z.
Variable parseURL : string -> option URL.

Definition isValidHttpUrl (urlString : string) : bool :=
  match parseURL urlString with
  | Some url =>
      String.eqb (protocol url) "http:" || String.eqb (protocol url) "https:"
  | None => false
  end.

Definition isPrivateIp (ip : string) : bool :=
  if isIP ip =? 4 then
    let parts := map Js.Number (Js.split "." ip) in
    isPrivateIpv4 parts
  else if isIP ip =? 6 then
    let lower := Js.toLowerCase ip in
    if String.eqb lower "::1" then true
    else if Js.startsWith lower "fe80" || Js.startsWith lower "fe80:" then true
    else if Js.startsWith lower "fc" || Js.startsWith lower "fd" then true
    else false
  else false.

(** The [for (const a of addrs)] loop of [isHostAllowed]: [Some false]
    when an iteration returns false, [None] when the loop runs out. *)
Fixpoint scan_addrs (addrs : list LookupAddress) : option bool :=
  match addrs with
  | [] => None
  | a :: rest =>
      let ip := address a in
      if String.eqb ip EmptyString then Some false
      else if isPrivateIp ip then Some false
      else scan_addrs rest
  end.

(** [dns.lookup] with [all: true] fulfils with an array, so [!addrs] is
    false and only the length test remains. *)
Definition isHostAllowed (urlString : string) : Proc bool :=
  try_catch
    (match parseURL urlString with
     | None => Throw (Js.mkError "Invalid URL")
     | Some u =>
         let hostname := hostname u in
         if String.eqb hostname EmptyString then Ret false
         else if String.eqb hostname "localhost" then Ret false
         else
           addrs <- await (dns_lookup hostname) ;;
           if Nat.eqb (List.length addrs) 0 then Ret false
           else match scan_addrs addrs with
                | Some b => Ret b
                | None => Ret true
                end
     end)
    (fun _ => Ret false).

(** [const cleanup = async () => ...] *)
Definition cleanup : Proc unit :=
  try_catch
    (Load (fun v =>
       match pageClosed v, browser v with
       | false, Some b =>
           await (browser_close b) ;;
           Update set_pageClosed (Ret tt)
       | _, _ => Ret tt
       end))
    (fun _ => Ret tt).

Definition maxAttempts : nat := 2.

(** The navigation loop, [attempt] running from 1 while
    [attempt <= maxAttempts]; [remaining] counts the iterations left. *)
Fixpoint goto_loop (page : Page) (url : string) (remaining attempt : nat)
    : Proc unit :=
  match remaining with
  | O => Ret tt
  | S remaining' =>
      Await (page_goto page url "networkidle") (fun r =>
        match r with
        | Fulfilled _ => Ret tt
        | Rejected err =>
            if Nat.eqb attempt maxAttempts then Throw err
            else Await (delay 250) (fun _ =>
                   goto_loop page url remaining' (S attempt))
        end)
  end.

Definition navigate (page : Page) (url : string) : Proc unit :=
  goto_loop page url maxAttempts 1.

(** The callback given to [page.evaluate]. *)
Definition extract (d : Document) : option string * option string * option string :=
  let title := match sel_title d with
               | Some el => textContent el
               | None => None
               end in
  let metaDescription :=
    match sel_meta d with
    | Some el => match content_attribute el with
                 | Some s => if String.eqb s EmptyString then None else Some s
                 | None => None
                 end
    | None => None
    end in
  let h1 := match sel_h1 d with
            | Some el => textContent el
            | None => None
            end in
  (title, metaDescription, h1).

(** The operation given to [withTimeout]. *)
Definition operation (url : string) (debug : bool) : Proc Body :=
  b <- await chromium_launch ;;
  Update (set_browser b) (
  context <- await (browser_newContext b DEFAULT_USER_AGENT) ;;
  page <- await (context_newPage context) ;;
  Emit (setDefaultNavigationTimeout page (TIMEOUT - 2000)) (
  Emit (setDefaultTimeout page (TIMEOUT - 2000)) (
  navigate page url ;;
  if debug then
    html <- await (page_content page) ;;
    cleanup ;;
    Ret (DebugSuccess html 200)
  else
    d <- await (page_evaluate page) ;;
    let '(title, metaDescription, h1) := extract d in
    cleanup ;;
    Ret (SuccessResponse title metaDescription h1 200)))).

(** [return res.status(code).json(body)]. *)
Definition send (code : Z) (body : Body) : Proc Response :=
  Emit (respond (mkResponse code body)) (Ret (mkResponse code body)).

(** The [catch (err)] block of [handler]. *)
Definition handler_catch (debug : bool) (err : Js.Error) : Proc Response :=
  let message := Js.message err in
  Emit (console_error message) (
  if Js.includes message "Executable doesn't exist"
     || Js.includes message "download new browsers" then
    cleanup ;;
    send 500 (ErrorResponse
      "Playwright browsers not installed. Run 'npx playwright install'" None)
  else if String.eqb message "Timeout" then
    cleanup ;;
    send 504 (ErrorResponse "Timeout" None)
  else
    cleanup ;;
    if debug then send 500 (ErrorResponse "Failed to scrape page" (Some message))
    else send 500 (ErrorResponse "Failed to scrape page" None)).

(** [Array.isArray(q) ? q[0] : q]. *)
Definition query_first (q : QueryValue) : option string :=
  match q with
  | QUndefined => None
  | QString s => Some s
  | QArray l => hd_error l
  end.

(** [q === "true" || q === "1"]. *)
Definition query_is_true (q : QueryValue) : bool :=
  match q with
  | QString s => String.eqb s "true" || String.eqb s "1"
  | _ => false
  end.

(** [handler] up to the host check: the response it returns early, or
    the url and the debug flag it goes on with. *)
Definition handler_entry (req : Request) : Proc (Response + string * bool) :=
  if negb (String.eqb (req_method req) "GET") then
    Emit (setHeader "Allow" "GET") (
    r <- send 405 (ErrorResponse "Method Not Allowed" None) ;; Ret (inl r))
  else
    let url := query_first (query_url req) in
    let debug := query_is_true (query_debug req) in
    match url with
    | None => r <- send 400 (ErrorResponse "Invalid URL" None) ;; Ret (inl r)
    | Some url =>
        if String.eqb url EmptyString || negb (isValidHttpUrl url) then
          r <- send 400 (ErrorResponse "Invalid URL" None) ;; Ret (inl r)
        else
          hostAllowed <- isHostAllowed url ;;
          if negb hostAllowed then
            r <- send 400 (ErrorResponse "Invalid URL or disallowed host" None) ;;
            Ret (inl r)
          else Ret (inr (url, debug))
    end.

End Endpoint.

(** ** [withTimeout] and the event loop

    The operation, the timer callback and the code that awaits
    [withTimeout] run interleaved, one task at a time; a task runs from the
    settling of the call it awaits up to its next awaited call. *)

Inductive TimerState : Type :=
| TArmed                       (* setTimeout pending *)
| TRunning (p : Proc unit)     (* fired, [onTimeout()] not yet settled *)
| TRejected                    (* reject(new Error("Timeout")) done *)
| TCleared.                    (* clearTimeout before it fired *)

Inductive MainState (R : Type) : Type :=
| MAwait                       (* awaiting Promise.race *)
| MRun (p : Proc R)            (* running the code after the race *)
| MDone (r : R)
| MFailed (e : Js.Error).
Arguments MAwait {R}.
Arguments MRun {R} p.
Arguments MDone {R} r.
Arguments MFailed {R} e.

(** What the scheduler does next: settle the call the operation, the timer
    callback or the main code awaits, or fire the timer. *)
Inductive Choice : Type :=
| StepOp (a : Answer)
| Fire
| StepTimer (a : Answer)
| StepMain (a : Answer).

Record Machine (T R : Type) : Type :=
  mkMachine { m_vars : Vars; m_trace : list Event; m_op : Proc T;
              m_timer : TimerState; m_main : MainState R }.
Arguments mkMachine {T R}.
Arguments m_vars {T R}.
Arguments m_trace {T R}.
Arguments m_op {T R}.
Arguments m_timer {T R}.
Arguments m_main {T R}.

Section WithTimeout.

Context {T R : Type}.

(** The [onTimeout] argument, and the code of the caller after
    [await withTimeout(...)]: on a value and on a throw. *)
Variable onTimeout : option (Proc unit).
Variable on_value : T -> Proc R.
Variable on_throw : Js.Error -> Proc R.

Definition main_state (p : Proc R) : MainState R :=
  match p with
  | Ret r => MDone r
  | Throw e => MFailed e
  | _ => MRun p
  end.

(** The first promise to settle decides [Promise.race]; [finally] clears
    the timer and the caller goes on. A promise that settles later is
    not observed. *)
Definition race_settled (m : Machine T R) (r : Settled T) : Machine T R :=
  match m_main m with
  | MAwait =>
      let timer := match m_timer m with TArmed => TCleared | t => t end in
      let tr := m_trace m ++ [EvRaceSettled (fulfilled r); EvClearTimeout] in
      let '(v, tr', p) :=
        advance Main (m_vars m) tr
          (match r with Fulfilled x => on_value x | Rejected e => on_throw e end) in
      mkMachine v tr' (m_op m) timer (main_state p)
  | _ => m
  end.

(** The operation reached its end, or its next awaited call. *)
Definition op_progress (m : Machine T R) : Machine T R :=
  match m_op m with
  | Ret x => race_settled m (Fulfilled x)
  | Throw e => race_settled m (Rejected e)
  | _ => m
  end.

Definition reject_timeout (m : Machine T R) : Machine T R :=
  race_settled
    (mkMachine (m_vars m) (m_trace m ++ [EvRejectTimeout]) (m_op m) TRejected
       (m_main m))
    (Rejected (Js.mkError "Timeout")).

(** The promise of [onTimeout()] settled ([then] and [catch] both
    reject), or the callback awaits a call. *)
Definition timer_progress (m : Machine T R) (p : Proc unit) : Machine T R :=
  match p with
  | Ret _ | Throw _ =>
      reject_timeout
        (mkMachine (m_vars m) (m_trace m ++ [EvOnTimeoutSettled]) (m_op m)
           (m_timer m) (m_main m))
  | _ => mkMachine (m_vars m) (m_trace m) (m_op m) (TRunning p) (m_main m)
  end.

Definition step (ch : Choice) (m : Machine T R) : Machine T R :=
  match ch with
  | StepOp a =>
      match m_op m with
      | Await c k =>
          let r := a _ c in
          let '(v, tr, p) :=
            advance Op (m_vars m)
              (m_trace m ++ [EvSettle Op (name_of c) (fulfilled r)]) (k r) in
          op_progress (mkMachine v tr p (m_timer m) (m_main m))
      | _ => m
      end
  | Fire =>
      match m_timer m with
      | TArmed =>
          match onTimeout with
          | Some cb =>
              let '(v, tr, p) :=
                advance Timer (m_vars m)
                  (m_trace m ++ [EvTimerFired; EvOnTimeoutCalled]) cb in
              timer_progress (mkMachine v tr (m_op m) (m_timer m) (m_main m)) p
          | None =>
              reject_timeout
                (mkMachine (m_vars m) (m_trace m ++ [EvTimerFired]) (m_op m)
                   (m_timer m) (m_main m))
          end
      | _ => m
      end
  | StepTimer a =>
      match m_timer m with
      | TRunning (Await c k) =>
          let r := a _ c in
          let '(v, tr, p) :=
            advance Timer (m_vars m)
              (m_trace m ++ [EvSettle Timer (name_of c) (fulfilled r)]) (k r) in
          timer_progress (mkMachine v tr (m_op m) (m_timer m) (m_main m)) p
      | _ => m
      end
  | StepMain a =>
      match m_main m with
      | MRun (Await c k) =>
          let r := a _ c in
          let '(v, tr, p) :=
            advance Main (m_vars m)
              (m_trace m ++ [EvSettle Main (name_of c) (fulfilled r)]) (k r) in
          mkMachine v tr (m_op m) (m_timer m) (main_state p)
      | _ => m
      end
  end.

Definition steps (sched : list Choice) (m : Machine T R) : Machine T R :=
  fold_left (fun m ch => step ch m) sched m.

(** [withTimeout(promise, ms, onTimeout)]: the operation has run up to
    its first awaited call when the timer is armed. *)
Definition withTimeout (v : Vars) (tr : list Event) (op : Proc T) (ms : Z)
    : Machine T R :=
  let '(v', tr', p) := advance Op v tr op in
  op_progress (mkMachine v' (tr' ++ [EvSetTimeout ms]) p TArmed MAwait).

End WithTimeout.

(** ** The whole handler *)

Section Handler.

Variable isIP : string -> Z.
Variable parseURL : string -> option URL.

Definition initial_vars : Vars := {| browser := None; pageClosed := false |}.

(** The race of [handler]: the operation against [TIMEOUT], with the
    awaited [cleanup] on timeout. *)
Definition handler_race (tr : list Event) (url : string) (debug : bool)
    : Machine Body Response :=
  withTimeout (send 200) (handler_catch debug) initial_vars tr
    (operation url debug) TIMEOUT.

Definition handler_step (debug : bool) : Choice -> Machine Body Response -> Machine Body Response :=
  step (Some cleanup) (send 200) (handler_catch debug).

Definition handler_steps (debug : bool) (sched : list Choice) :=
  steps (Some cleanup) (send 200) (handler_catch debug) sched.

(** What a run of the handler shows: the trace, the shared variables and
    how far the main code got. *)
Record Outcome : Type :=
  mkOutcome { out_trace : list Event; out_vars : Vars;
              out_main : MainState Response }.

(** [handler(req, res)]: the entry code settles its DNS lookup as [env]
    says, then the scheduler drives the race. *)
Definition handler (env : nat -> Answer) (sched : list Choice) (req : Request)
    : Outcome :=
  match run Main env initial_vars [] (handler_entry isIP parseURL req) with
  | (v, tr, inl (inl r)) => mkOutcome tr v (MDone r)
  | (v, tr, inl (inr (url, debug))) =>
      let m := handler_steps debug sched (handler_race tr url debug) in
      mkOutcome (m_trace m) (m_vars m) (m_main m)
  | (v, tr, inr e) => mkOutcome tr v (MFailed e)
  end.

End Handler.

(** ** Observations on runs *)

Fixpoint has_char (x : ascii) (s : string) : bool :=
  match s with
  | EmptyString => false
  | String c r => Ascii.eqb c x || has_char x r
  end.

Definition octets : list Z := map Z.of_nat (seq 0 256).

(** The text of an octet is a run of digits without a dot that converts
    back to the octet. *)
Definition octet_text_ok (a : Z) : bool :=
  negb (has_char "." (Addr.octet_to_string a))
  && match Js.Number (Addr.octet_to_string a) with
     | Js.Num z => z =? a
     | Js.NaN => false
     end.

(** The events of one awaited call. *)
Definition awaited {T : Type} (who : Thread) (c : Call T) (r : Settled T)
    : list Event :=
  [EvCall who (name_of c); EvSettle who (name_of c) (fulfilled r)].

Definition count (f : Event -> bool) (tr : list Event) : nat :=
  List.length (filter f tr).

Definition is_close_call (e : Event) : bool :=
  match e with EvCall _ CClose => true | _ => false end.

Definition is_close_done (e : Event) : bool :=
  match e with EvSettle _ CClose true => true | _ => false end.

(** A call whose name satisfies [f] is issued. *)
Definition is_call_named (f : CallName -> bool) (e : Event) : bool :=
  match e with EvCall _ c => f c | _ => false end.

Definition is_goto_name (c : CallName) : bool :=
  match c with CGoto _ _ => true | _ => false end.

Definition is_goto_call : Event -> bool := is_call_named is_goto_name.

Definition is_dns_event (e : Event) : bool :=
  match e with
  | EvCall _ (CDnsLookup _) | EvSettle _ (CDnsLookup _) _ => true
  | _ => false
  end.

Definition is_launch_call (e : Event) : bool :=
  match e with EvCall _ CLaunch => true | _ => false end.

(** The events a run adds to the trace it starts from. *)
Definition events_of {A : Type} (who : Thread) (env : nat -> Answer) (v : Vars)
    (p : Proc A) : list Event :=
  snd (fst (run who env v [] p)).

(** The environment of a run in which the first navigation attempt
    rejects: the answers of [env] with the rejected attempt and the backoff
    put in before the attempt that [env] answers. *)
Definition with_retry (env : nat -> Answer) (rejected backoff : Answer)
    : nat -> Answer :=
  fun n =>
    match n with
    | 0%nat | 1%nat | 2%nat => env n
    | 3%nat => rejected
    | 4%nat => backoff
    | S (S n') => env n'
    end.

Section Observations.

Variable isIP : string -> Z.
Variable parseURL : string -> option URL.

(** An address entry that lets the loop of [isHostAllowed] go on. *)
Definition passes (a : LookupAddress) : bool :=
  negb (String.eqb (address a) EmptyString) && negb (isPrivateIp isIP (address a)).

(** The value [isHostAllowed] returns. *)
Definition host_allowed (env : nat -> Answer) (urlString : string) : bool + Js.Error :=
  snd (run Main env initial_vars [] (isHostAllowed isIP parseURL urlString)).

End Observations.

(** The reference reader takes the text of an octet back to the octet. *)
Definition octet_parse_ok (a : Z) : bool :=
  match AddrText.parse_octet (Addr.octet_to_string a) with
  | Some z => z =? a
  | None => false
  end.

(** ** Invariants of traces *)

Definition thread_eqb (a b : Thread) : bool :=
  match a, b with
  | Main, Main | Op, Op | Timer, Timer => true
  | _, _ => false
  end.

(** The events a thread logs itself when it runs. *)
Definition by_thread (who : Thread) (e : Event) : bool :=
  match e with
  | EvCall w _ | EvSettle w _ _ | EvEffect w _ => thread_eqb w who
  | _ => false
  end.

Definition is_call_of (who : Thread) (e : Event) : bool :=
  match e with EvCall w _ => thread_eqb w who | _ => false end.

Definition is_settle_of (who : Thread) (e : Event) : bool :=
  match e with EvSettle w _ _ => thread_eqb w who | _ => false end.

(** The events of the timer callback of [withTimeout]. *)
Definition is_timer_event (e : Event) : bool :=
  match e with
  | EvTimerFired | EvOnTimeoutCalled | EvOnTimeoutSettled | EvRejectTimeout => true
  | _ => false
  end.

(** Events that neither the timer callback nor the code it calls logs. *)
Definition neutral (e : Event) : bool :=
  negb (is_timer_event e) && negb (by_thread Timer e).

Definition is_await {A : Type} (p : Proc A) : bool :=
  match p with Await _ _ => true | _ => false end.

(** A piece of code is blocked on a call or has ended. *)
Definition settled_or_awaiting {A : Type} (p : Proc A) : bool :=
  match p with Ret _ | Throw _ | Await _ _ => true | _ => false end.

(** Every event that the code can log when thread [who] runs it
    satisfies [Q]. *)
Fixpoint Safe {A : Type} (Q : Event -> Prop) (who : Thread) (p : Proc A)
    : Prop :=
  match p with
  | Ret _ | Throw _ => True
  | Await c k =>
      Q (EvCall who (name_of c))
      /\ (forall ok, Q (EvSettle who (name_of c) ok))
      /\ (forall r, Safe Q who (k r))
  | Load k => forall v, Safe Q who (k v)
  | Update _ k => Safe Q who k
  | Emit e k => Q (EvEffect who e) /\ Safe Q who k
  end.

(** Along every path, the code issues at most [n] calls whose name
    satisfies [f]. *)
Fixpoint Bounded {A : Type} (f : CallName -> bool) (n : nat) (p : Proc A)
    : Prop :=
  match p with
  | Ret _ | Throw _ => True
  | Await c k =>
      if f (name_of c) then
        match n with
        | O => False
        | S n' => forall r, Bounded f n' (k r)
        end
      else forall r, Bounded f n (k r)
  | Load k => forall v, Bounded f n (k v)
  | Update _ k => Bounded f n k
  | Emit _ k => Bounded f n k
  end.

(** The same for code that has ended or is blocked on a call already
    issued. *)
Definition Resumable {A : Type} (f : CallName -> bool) (n : nat) (p : Proc A)
    : Prop :=
  match p with
  | Ret _ | Throw _ => True
  | Await _ k => forall r, Bounded f n (k r)
  | _ => False
  end.

(** The timeouts the endpoint installs are the ones of its constants: a
    page timeout is [TIMEOUT - 2000], the deadline timer is [TIMEOUT]. *)
Definition timeouts_ok (e : Event) : Prop :=
  match e with
  | EvEffect _ (setDefaultNavigationTimeout _ ms) => ms = TIMEOUT - 2000
  | EvEffect _ (setDefaultTimeout _ ms) => ms = TIMEOUT - 2000
  | EvSetTimeout ms => ms = TIMEOUT
  | _ => True
  end.

(** Events of the code that runs once the host check has passed: no DNS
    lookup among them. *)
Definition no_dns (e : Event) : Prop := is_dns_event e = false.

(** What holds of every event of the race of [handler]. *)
Definition race_ok (e : Event) : Prop := timeouts_ok e /\ no_dns e.

(** A call to the browser: what the endpoint acquires and drives. *)
Definition is_renderer_call (e : Event) : bool :=
  match e with
  | EvCall _ (CDnsLookup _) | EvCall _ (CDelay _) => false
  | EvCall _ _ => true
  | _ => false
  end.

(** The number of calls a run awaits. *)
Fixpoint awaits {A : Type} (env : nat -> Answer) (v : Vars) (p : Proc A) : nat :=
  match p with
  | Ret _ | Throw _ => 0
  | Await c k => S (awaits (fun n => env (S n)) v (k (env O _ c)))
  | Load k => awaits env v (k v)
  | Update f k => awaits env (f v) k
  | Emit _ k => awaits env v k
  end.

(** The responses of the entry code. *)
Definition method_not_allowed : Response :=
  mkResponse 405 (ErrorResponse "Method Not Allowed" None).
Definition invalid_url : Response :=
  mkResponse 400 (ErrorResponse "Invalid URL" None).
Definition disallowed_host : Response :=
  mkResponse 400 (ErrorResponse "Invalid URL or disallowed host" None).
Definition timed_out : Response :=
  mkResponse 504 (ErrorResponse "Timeout" None).

(** The events that [withTimeout] itself logs. *)
Definition is_race_event (e : Event) : bool :=
  match e with
  | EvTimerFired | EvOnTimeoutCalled | EvOnTimeoutSettled | EvRejectTimeout
  | EvRaceSettled _ | EvClearTimeout => true
  | _ => false
  end.

(** Every event logged after [tr0] satisfies [Q], and so will the events
    of the code that is still to run. *)
Definition MSafe {T R : Type} (Q : Event -> Prop) (tr0 : list Event)
    (m : Machine T R) : Prop :=
  (exists evs, m_trace m = tr0 ++ evs /\ Forall Q evs)
  /\ Safe Q Op (m_op m)
  /\ (forall p, m_timer m = TRunning p -> Safe Q Timer p)
  /\ (forall p, m_main m = MRun p -> Safe Q Main p).

(** After [tr0], the race has issued and can still issue at most [N]
    calls whose name satisfies [f], all of them by the operation. *)
Definition MBounded {T R : Type} (f : CallName -> bool) (N : nat)
    (tr0 : list Event) (m : Machine T R) : Prop :=
  exists evs n,
    m_trace m = tr0 ++ evs
    /\ (count (is_call_named f) evs + n <= N)%nat
    /\ Resumable f n (m_op m)
    /\ (forall p, m_timer m = TRunning p -> Resumable f 0 p)
    /\ (forall p, m_main m = MRun p -> Resumable f 0 p).

(** How the trace reflects the state of the timer: nothing of the timer
    before it fires; the callback invoked and one call of it pending while
    it runs; and once [reject] was called, before it the callback invoked
    and settled with no call of it pending, and nothing of the timer
    after. *)
Definition TInv (t : TimerState) (tr : list Event) : Prop :=
  match t with
  | TArmed | TCleared =>
      filter is_timer_event tr = [] /\ filter (by_thread Timer) tr = []
  | TRunning p =>
      filter is_timer_event tr = [EvTimerFired; EvOnTimeoutCalled]
      /\ is_await p = true
      /\ count (is_call_of Timer) tr = S (count (is_settle_of Timer) tr)
  | TRejected =>
      exists l1 l2,
        tr = l1 ++ EvRejectTimeout :: l2
        /\ filter is_timer_event l1
           = [EvTimerFired; EvOnTimeoutCalled; EvOnTimeoutSettled]
        /\ count (is_call_of Timer) l1 = count (is_settle_of Timer) l1
        /\ filter is_timer_event l2 = []
  end.

(** ** Environments to run the endpoint in *)

Module Env.

(** Every call fulfils: the lookup with [addrs], the page reads with
    [html] and [doc]. *)
Definition ok (addrs : list LookupAddress) (html : string) (doc : Document)
    : Answer :=
  fun T c =>
    match c in Call T return Settled T with
    | dns_lookup _ => Fulfilled addrs
    | chromium_launch => Fulfilled (mkBrowser 1)
    | browser_newContext _ _ => Fulfilled (mkContext 1)
    | context_newPage _ => Fulfilled (mkPage 1)
    | page_goto _ _ _ => Fulfilled tt
    | page_content _ => Fulfilled html
    | page_evaluate _ => Fulfilled doc
    | browser_close _ => Fulfilled tt
    | delay _ => Fulfilled tt
    end.

(** Every call rejects with [msg]. *)
Definition fail (msg : string) : Answer :=
  fun T _ => Rejected (Js.mkError msg).

Definition empty_doc : Document := mkDocument None None None.

Definition text (s : string) : Element := mkElement (Some s) None.

(** [<title>A</title><meta name="description" content="B"><h1>C</h1>] *)
Definition abc_doc : Document :=
  mkDocument (Some (text "A")) (Some (mkElement (Some EmptyString) (Some "B")))
    (Some (text "C")).

Definition yes : Answer := ok [mkLookupAddress "93.184.216.34" 4] "<html></html>" abc_doc.

(** The [n]-th call settles as the [n]-th answer of the list, later
    ones as [d]. *)
Definition script (l : list Answer) (d : Answer) : nat -> Answer :=
  fun n => nth n l d.

(** A URL reader to run the endpoint with: [scheme://host], with an
    optional port and path after the host. *)
Definition parseURL (s : string) : option URL :=
  match String.index 0 "://" s with
  | None => None
  | Some i =>
      let rest := substring (i + 3) (String.length s - (i + 3)) s in
      let authority := hd EmptyString (Js.split "/" rest) in
      let host := hd EmptyString (Js.split ":" authority) in
      if Nat.eqb i 0 || String.eqb host EmptyString then None
      else Some (mkURL (substring 0 i s ++ ":") (Js.toLowerCase host))
  end.

Definition get (url : string) : Request :=
  mkRequest "GET" (QString url) QUndefined.

End Env.


(** ** Further observations *)

(** The responses sent in a trace, in order. *)
Fixpoint responses (tr : list Event) : list Response :=
  match tr with
  | [] => []
  | EvEffect _ (respond r) :: rest => r :: responses rest
  | _ :: rest => responses rest
  end.

Definition is_dns_call (e : Event) : bool :=
  match e with EvCall _ (CDnsLookup _) => true | _ => false end.

(** The description that [extract] returns. *)
Definition description_of (d : Document) : option string := snd (fst (extract d)).

(** The calls that acquire the browser, its context and its page, and the
    calls that read the page. *)
Definition is_launch_name (c : CallName) : bool :=
  match c with CLaunch => true | _ => false end.

Definition is_context_name (c : CallName) : bool :=
  match c with CNewContext _ => true | _ => false end.

Definition is_page_name (c : CallName) : bool :=
  match c with CNewPage => true | _ => false end.

Definition is_read_name (c : CallName) : bool :=
  match c with CContent | CEvaluate => true | _ => false end.

Definition is_close_name (c : CallName) : bool :=
  match c with CClose => true | _ => false end.

(** Once the race is settled no timer is pending. *)
Definition settled_timer {T R : Type} (m : Machine T R) : Prop :=
  m_timer m = TArmed -> m_main m = MAwait.

Definition is_dns_name (c : CallName) : bool :=
  match c with CDnsLookup _ => true | _ => false end.

(** ** What a piece of code sends and how it ends *)

Definition sent (e : Effect) : list Response :=
  match e with respond r => [r] | _ => [] end.

(** Every path of the code ends by returning [x] with [Q rs x] or by
    throwing [e] with [E rs e], where [rs] is [acc] followed by the
    responses sent on the path. *)
Fixpoint Ends {A : Type} (Q : list Response -> A -> Prop)
    (E : list Response -> Js.Error -> Prop) (acc : list Response)
    (p : Proc A) : Prop :=
  match p with
  | Ret x => Q acc x
  | Throw e => E acc e
  | Await _ k => forall r, Ends Q E acc (k r)
  | Load k => forall v, Ends Q E acc (k v)
  | Update _ k => Ends Q E acc k
  | Emit e k => Ends Q E (acc ++ sent e) k
  end.

(** Code that sends no response and returns values satisfying [B]. *)
Definition quietly {A : Type} (B : A -> Prop) (rs : list Response) (x : A)
    : Prop :=
  rs = [] /\ B x.

Definition quiet_error (rs : list Response) (e : Js.Error) : Prop := rs = [].

Definition never {X : Type} (rs : list Response) (x : X) : Prop := False.

Definition Quiet {A : Type} (B : A -> Prop) (p : Proc A) : Prop :=
  Ends (quietly B) quiet_error [] p.

(** Code that sends no response and does not throw. *)
Definition Calm {A : Type} (p : Proc A) : Prop :=
  Ends (quietly (fun _ => True)) never [] p.

(** Code that does not throw and whose every path sends exactly one
    response, one that satisfies [P], as its last action, and returns
    it. *)
Fixpoint Answers (P : Response -> Prop) (p : Proc Response) : Prop :=
  match p with
  | Ret _ | Throw _ => False
  | Await _ k => forall r, Answers P (k r)
  | Load k => forall v, Answers P (k v)
  | Update _ k => Answers P k
  | Emit (respond r) k => P r /\ k = Ret r
  | Emit _ k => Answers P k
  end.

(** The race has sent nothing while the caller awaits it or is in its
    continuation, and exactly the response returned once the caller is
    done; the caller never fails. *)
Definition MResp {T : Type} (B : T -> Prop) (P : Response -> Prop)
    (tr0 : list Event) (m : Machine T Response) : Prop :=
  exists evs,
    m_trace m = tr0 ++ evs
    /\ Quiet B (m_op m)
    /\ (forall p, m_timer m = TRunning p -> Quiet (fun _ => True) p)
    /\ match m_main m with
       | MAwait => responses evs = []
       | MRun p => responses evs = [] /\ Answers P p
       | MDone r => responses evs = [r] /\ P r
       | MFailed _ => False
       end.

(** The bodies the operation returns. *)
Definition body_form (debug : bool) (b : Body) : Prop :=
  if debug then exists html, b = DebugSuccess html 200
  else exists title metaDescription h1,
         metaDescription <> Some EmptyString
         /\ b = SuccessResponse title metaDescription h1 200.

(** The responses of the [try] and [catch] blocks of the handler. *)
Definition late_response (debug : bool) (r : Response) : Prop :=
  (exists b, body_form debug b /\ r = mkResponse 200 b)
  \/ r = mkResponse 500
           (ErrorResponse
              "Playwright browsers not installed. Run 'npx playwright install'"
              None)
  \/ r = timed_out
  \/ exists message,
       r = mkResponse 500
             (ErrorResponse "Failed to scrape page"
                (if debug then Some message else None)).

(** The responses sent before the browser is touched. *)
Definition early_response (r : Response) : Prop :=
  r = method_not_allowed \/ r = invalid_url \/ r = disallowed_host.

(** ** Resuming a blocked piece of code *)

(** Run code that has ended or is blocked on a call already issued: the
    call settles as [env 0] says and the code runs on to its end. *)
Definition resume {A : Type} (who : Thread) (env : nat -> Answer) (v : Vars)
    (tr : list Event) (p : Proc A) : Vars * list Event * (A + Js.Error) :=
  match p with
  | Await c k =>
      let r := env O _ c in
      run who (fun n => env (S n)) v
        (tr ++ [EvSettle who (name_of c) (fulfilled r)]) (k r)
  | _ => run who env v tr p
  end.

(** How a promise settles when its code returns or throws. *)
Definition settled_as {A : Type} (r : A + Js.Error) : Settled A :=
  match r with inl x => Fulfilled x | inr e => Rejected e end.

Definition ended_as {A : Type} (r : A + Js.Error) : Proc A :=
  match r with inl x => Ret x | inr e => Throw e end.

(** ** Closing the browser when the timer does not fire *)

Definition closes (c : CallName) : nat := if is_close_name c then 1 else 0.

(** Run from variables [v] with [n] calls of [browser.close()] so far,
    and with no other code touching the variables meanwhile, every path
    of the code ends in variables [v'] after [n'] such calls with
    [Q v' n'] of what it returns or throws. *)
Fixpoint EndsSt {A : Type} (Q : Vars -> nat -> A + Js.Error -> Prop)
    (v : Vars) (n : nat) (p : Proc A) : Prop :=
  match p with
  | Ret x => Q v n (inl x)
  | Throw e => Q v n (inr e)
  | Await c k => forall r, EndsSt Q v (n + closes (name_of c)) (k r)
  | Load k => EndsSt Q v n (k v)
  | Update f k => EndsSt Q (f v) n k
  | Emit _ k => EndsSt Q v n k
  end.

(** The same for code that has ended or is blocked on a call already
    issued and counted. *)
Definition Blocked {A : Type} (Q : Vars -> nat -> A + Js.Error -> Prop)
    (v : Vars) (n : nat) (p : Proc A) : Prop :=
  match p with
  | Ret x => Q v n (inl x)
  | Throw e => Q v n (inr e)
  | Await _ k => forall r, EndsSt Q v n (k r)
  | _ => False
  end.

Definition has_ended {A : Type} (p : Proc A) : Prop :=
  match p with Ret _ | Throw _ => True | _ => False end.

Definition timer_idle (t : TimerState) : Prop :=
  match t with TArmed | TCleared => True | _ => False end.

(** Unless the timer fired: the operation and then the caller run one
    after the other, and they end with [G] of the variables and of the
    number of calls of [browser.close()]. *)
Definition Unfired {T R : Type} (G : Vars -> nat -> Prop)
    (on_value : T -> Proc R) (on_throw : Js.Error -> Proc R)
    (tr0 : list Event) (m : Machine T R) : Prop :=
  exists evs,
    m_trace m = tr0 ++ evs
    /\ (In EvTimerFired evs
        \/ (timer_idle (m_timer m)
            /\ let n := count is_close_call evs in
               match m_main m with
               | MAwait =>
                   Blocked
                     (fun v' n' r =>
                        EndsSt (fun v2 n2 _ => G v2 n2) v' n'
                          (match r with
                           | inl x => on_value x
                           | inr e => on_throw e
                           end))
                     (m_vars m) n (m_op m)
               | MRun p =>
                   has_ended (m_op m)
                   /\ Blocked (fun v2 n2 _ => G v2 n2) (m_vars m) n p
               | MDone _ | MFailed _ => has_ended (m_op m) /\ G (m_vars m) n
               end)).

(** One call of [browser.close()] when a browser was launched, none
    otherwise. *)
Definition closed_once (v : Vars) (n : nat) : Prop :=
  n = match browser v with Some _ => 1%nat | None => 0%nat end.


(** ** The flag [pageClosed] *)

(** The flag is set exactly when a call of [browser.close()] has
    fulfilled. *)
Definition flag_ok (v : Vars) (tr : list Event) : Prop :=
  pageClosed v = true <-> (1 <= count is_close_done tr)%nat.

(** The same within a task: [owed] tells that a close has just fulfilled
    and the flag is still to be set. *)
Definition flag_due (owed : bool) (v : Vars) (tr : list Event) : Prop :=
  if owed then (1 <= count is_close_done tr)%nat else flag_ok v tr.

(** The code sets the flag in the task in which a close fulfils, and
    nowhere else; no task ends with the flag owed. *)
Fixpoint Flag {A : Type} (owed : bool) (p : Proc A) : Prop :=
  match p with
  | Ret _ | Throw _ => owed = false
  | Await c k =>
      owed = false
      /\ forall r, Flag (is_close_name (name_of c) && fulfilled r) (k r)
  | Load k => forall v, Flag owed (k v)
  | Update f k =>
      (if owed then forall v, pageClosed (f v) = true
       else forall v, pageClosed (f v) = pageClosed v)
      /\ Flag false k
  | Emit _ k => Flag owed k
  end.

Definition MFlag {T R : Type} (m : Machine T R) : Prop :=
  flag_ok (m_vars m) (m_trace m)
  /\ Flag false (m_op m)
  /\ (forall p, m_timer m = TRunning p -> Flag false p)
  /\ (forall p, m_main m = MRun p -> Flag false p).

(** ** Where the browser is sent *)

(** The page is sent to [url] only, waiting for the network to be idle,
    in a context opened with the default user agent. *)
Definition target_ok (url : string) (e : Event) : Prop :=
  match e with
  | EvCall _ (CGoto u w) => u = url /\ w = "networkidle"
  | EvCall _ (CNewContext ua) => ua = DEFAULT_USER_AGENT
  | _ => True
  end.

(** ** Who settles the race *)

Definition is_race_settled (e : Event) : bool :=
  match e with EvRaceSettled _ => true | _ => false end.

(** Neither the timer's [reject] nor the settling of the race. *)
Definition undecided (e : Event) : bool :=
  match e with EvRejectTimeout | EvRaceSettled _ => false | _ => true end.

(** The timer's [reject] comes before the race is settled. *)
Fixpoint timer_first (tr : list Event) : bool :=
  match tr with
  | [] => false
  | EvRejectTimeout :: _ => true
  | EvRaceSettled _ :: _ => false
  | _ :: rest => timer_first rest
  end.

(** While the caller awaits the race neither event has been logged;
    once the race is settled, and the timer's [reject] settled it, the
    caller is on its way to an answer that satisfies [P]. *)
Definition MWon {T : Type} (P : Response -> Prop) (tr0 : list Event)
    (m : Machine T Response) : Prop :=
  exists evs,
    m_trace m = tr0 ++ evs
    /\ match m_main m with
       | MAwait => forallb undecided evs = true
       | MRun p =>
           forallb undecided evs = false
           /\ (timer_first evs = true -> Answers P p)
       | MDone r =>
           forallb undecided evs = false /\ (timer_first evs = true -> P r)
       | MFailed _ => forallb undecided evs = false
       end.

(** * Properties *)

(** ** Splitting and converting address text *)

Lemma split_nonempty (sep : ascii) (s : string) : Js.split sep s <> [].
Proof.
  destruct s as [|c r]; simpl; [discriminate|].
  destruct (Ascii.eqb c sep); [discriminate|].
  destruct (Js.split sep r); discriminate.
Qed.

Lemma split_without_sep (sep : ascii) (s : string) :
  has_char sep s = false -> Js.split sep s = [s].
Proof.
  induction s as [|c r IH]; simpl; intros H; [reflexivity|].
  apply orb_false_iff in H as [Hc Hr].
  rewrite Hc, (IH Hr). reflexivity.
Qed.

Lemma split_app (sep : ascii) (s r : string) :
  has_char sep s = false ->
  Js.split sep (s ++ String sep r)%string = s :: Js.split sep r.
Proof.
  induction s as [|c s IH]; simpl; intros H.
  - rewrite Ascii.eqb_refl. reflexivity.
  - apply orb_false_iff in H as [Hc Hs].
    rewrite Hc, (IH Hs). reflexivity.
Qed.

Lemma octets_complete (a : Z) : Addr.octet a -> In a octets.
Proof.
  intros [Hlo Hhi]. unfold octets.
  apply in_map_iff. exists (Z.to_nat a). split; [lia|].
  apply in_seq. lia.
Qed.

Lemma octet_text_ok_all : forallb octet_text_ok octets = true.
Proof. vm_compute. reflexivity. Qed.

Lemma octet_text (a : Z) :
  Addr.octet a ->
  has_char "." (Addr.octet_to_string a) = false
  /\ Js.Number (Addr.octet_to_string a) = Js.Num a.
Proof.
  intros Ha. pose proof octet_text_ok_all as Hall.
  rewrite forallb_forall in Hall.
  specialize (Hall a (octets_complete a Ha)). unfold octet_text_ok in Hall.
  apply andb_true_iff in Hall as [Hdot Hnum].
  split; [now apply negb_true_iff in Hdot|].
  destruct (Js.Number (Addr.octet_to_string a)); [discriminate|].
  apply Z.eqb_eq in Hnum. now subst.
Qed.

Lemma ipv4_text_parts (a b c d : Z) :
  Addr.octet a -> Addr.octet b -> Addr.octet c -> Addr.octet d ->
  map Js.Number (Js.split "." (Addr.ipv4_to_string a b c d))
  = [Js.Num a; Js.Num b; Js.Num c; Js.Num d].
Proof.
  intros Ha Hb Hc Hd. unfold Addr.ipv4_to_string.
  destruct (octet_text a Ha) as [Da Na], (octet_text b Hb) as [Db Nb],
    (octet_text c Hc) as [Dc Nc], (octet_text d Hd) as [Dd Nd].
  cbn [append].
  rewrite (split_app "." (Addr.octet_to_string a)) by assumption.
  rewrite (split_app "." (Addr.octet_to_string b)) by assumption.
  rewrite (split_app "." (Addr.octet_to_string c)) by assumption.
  rewrite split_without_sep by assumption.
  simpl. now rewrite Na, Nb, Nc, Nd.
Qed.

(** The comparisons of [isPrivateIpv4] on the first two octets decide
    membership in the listed ranges. *)
Lemma isPrivateIpv4_ranges (a b c d : Z) :
  Addr.octet a -> Addr.octet b -> Addr.octet c -> Addr.octet d ->
  isPrivateIpv4 [Js.Num a; Js.Num b; Js.Num c; Js.Num d]
  = Addr.in_private_range_v4 (Addr.ipv4 a b c d).
Proof.
  unfold Addr.octet. intros Ha Hb Hc Hd.
  unfold Addr.in_private_range_v4, Addr.private_ranges_v4, Addr.in_cidr,
    isPrivateIpv4. cbn [existsb fst snd nth_error Js.strict_eq Js.ge Js.le].
  rewrite !Z.shiftr_div_pow2 by lia.
  change (32 - 8) with 24. change (32 - 16) with 16. change (32 - 12) with 20.
  assert (E24 : Addr.ipv4 a b c d / 2 ^ 24 = a)
    by (unfold Addr.ipv4; symmetry; apply Z.div_unique with (r := (b * 256 + c) * 256 + d); lia).
  assert (E16 : Addr.ipv4 a b c d / 2 ^ 16 = a * 256 + b)
    by (unfold Addr.ipv4; symmetry; apply Z.div_unique with (r := c * 256 + d); lia).
  assert (E20 : Addr.ipv4 a b c d / 2 ^ 20 = a * 16 + b / 16).
  { unfold Addr.ipv4; symmetry.
    apply Z.div_unique with (r := ((b mod 16) * 256 + c) * 256 + d).
    - pose proof (Z.mod_pos_bound b 16). lia.
    - pose proof (Z.div_mod b 16). lia. }
  rewrite E24, E16, E20.
  replace (Addr.ipv4 10 0 0 0 / 2 ^ 24) with 10 by reflexivity.
  replace (Addr.ipv4 127 0 0 0 / 2 ^ 24) with 127 by reflexivity.
  replace (Addr.ipv4 169 254 0 0 / 2 ^ 16) with (169 * 256 + 254) by reflexivity.
  replace (Addr.ipv4 192 168 0 0 / 2 ^ 16) with (192 * 256 + 168) by reflexivity.
  replace (Addr.ipv4 172 16 0 0 / 2 ^ 20) with (172 * 16 + 1) by reflexivity.
  replace (Addr.ipv4 0 0 0 0 / 2 ^ 24) with 0 by reflexivity.
  pose proof (Z.div_mod b 16) as Hdm. pose proof (Z.mod_pos_bound b 16) as Hmb.
  repeat match goal with
         | |- context [?x =? ?y] => destruct (Z.eqb_spec x y)
         | |- context [?x <=? ?y] => destruct (Z.leb_spec x y)
         end; cbn; try reflexivity; exfalso; lia.
Qed.

(** ** The host-safety check *)

Section HostCheck.

Variable isIP : string -> Z.
Variable parseURL : string -> option URL.

Lemma scan_addrs_forallb (addrs : list LookupAddress) :
  scan_addrs isIP addrs = if forallb (passes isIP) addrs then None else Some false.
Proof.
  induction addrs as [|a rest IH]; simpl; [reflexivity|].
  unfold passes at 1.
  destruct (String.eqb (address a) EmptyString); simpl; [reflexivity|].
  destruct (isPrivateIp isIP (address a)); simpl; [reflexivity|].
  exact IH.
Qed.

(** What a run of [isHostAllowed] does, case by case. *)
Lemma run_isHostAllowed (who : Thread) (env : nat -> Answer) (v : Vars)
    (tr : list Event) (urlString : string) :
  run who env v tr (isHostAllowed isIP parseURL urlString) =
  match parseURL urlString with
  | None => (v, tr, inl false)
  | Some u =>
      if String.eqb (hostname u) EmptyString || String.eqb (hostname u) "localhost"
      then (v, tr, inl false)
      else
        let r := env O _ (dns_lookup (hostname u)) in
        (v, tr ++ awaited who (dns_lookup (hostname u)) r,
         inl match r with
             | Fulfilled addrs =>
                 negb (Nat.eqb (List.length addrs) 0) && forallb (passes isIP) addrs
             | Rejected _ => false
             end)
  end.
Proof.
  unfold isHostAllowed.
  destruct (parseURL urlString) as [u|]; [|reflexivity].
  destruct (String.eqb (hostname u) EmptyString); [reflexivity|].
  destruct (String.eqb (hostname u) "localhost"); [reflexivity|].
  cbn. destruct (env O _ (dns_lookup (hostname u))) as [addrs|e]; cbn;
    [|reflexivity].
  destruct (Nat.eqb (List.length addrs) 0); cbn; [reflexivity|].
  rewrite scan_addrs_forallb. now destruct (forallb (passes isIP) addrs).
Qed.

(** [isHostAllowed] never throws and leaves the shared variables alone. *)
Lemma isHostAllowed_returns (who : Thread) (env : nat -> Answer) (v : Vars)
    (tr : list Event) (urlString : string) :
  exists tr' b, run who env v tr (isHostAllowed isIP parseURL urlString) = (v, tr', inl b).
Proof.
  rewrite run_isHostAllowed.
  destruct (parseURL urlString) as [u|]; [|now eauto].
  destruct (_ || _); now eauto.
Qed.

End HostCheck.

Lemma responses_app (l1 l2 : list Event) :
  responses (l1 ++ l2) = responses l1 ++ responses l2.
Proof.
  induction l1 as [|e l1 IH]; [reflexivity|].
  destruct e as [w c|w c ok|w e| | | | | | |]; cbn; auto.
  destruct e; cbn; auto. now rewrite IH.
Qed.

Lemma responses_dns (tr : list Event) :
  forallb is_dns_event tr = true -> responses tr = [].
Proof.
  induction tr as [|e tr IH]; [reflexivity|]. cbn.
  intros H. apply andb_true_iff in H as [He Htr].
  destruct e as [w c|w c ok|w e| | | | | | |]; try discriminate; cbn; auto.
Qed.

Lemma count_app (f : Event -> bool) (l1 l2 : list Event) :
  count f (l1 ++ l2) = (count f l1 + count f l2)%nat.
Proof. unfold count. now rewrite filter_app, length_app. Qed.

(** ** The cleanup routine *)

(** What a run of [cleanup] does: it calls [browser.close()] when the flag
    is unset and a browser is there, sets the flag when the close
    fulfilled, and returns. *)
Lemma run_cleanup (who : Thread) (env : nat -> Answer) (v : Vars)
    (tr : list Event) :
  run who env v tr cleanup =
  match pageClosed v, browser v with
  | false, Some b =>
      let r := env O _ (browser_close b) in
      (if fulfilled r then set_pageClosed v else v,
       tr ++ awaited who (browser_close b) r, inl tt)
  | _, _ => (v, tr, inl tt)
  end.
Proof.
  unfold cleanup. cbn.
  destruct (pageClosed v); [reflexivity|].
  destruct (browser v) as [b|]; [|reflexivity].
  cbn. destruct (env O unit (browser_close b)); reflexivity.
Qed.

(** C10: [cleanup] returns normally whatever the state: without a
    browser, with a live browser, and when [browser.close()] throws; the
    flag is set by it only when [browser.close()] fulfilled, a close that
    throws leaves it unset. *)
Theorem cleanup_never_throws (who : Thread) (env : nat -> Answer) (v : Vars)
    (tr : list Event) :
  exists v' evs,
    run who env v tr cleanup = (v', tr ++ evs, inl tt)
    /\ browser v' = browser v
    /\ (browser v = None -> v' = v /\ evs = [])
    /\ (forall b, pageClosed v = false -> browser v = Some b ->
        env O _ (browser_close b) = Fulfilled tt ->
        pageClosed v' = true /\ count is_close_call evs = 1%nat)
    /\ (forall b e, pageClosed v = false -> browser v = Some b ->
        env O _ (browser_close b) = Rejected e ->
        pageClosed v' = false /\ count is_close_call evs = 1%nat)
    /\ (pageClosed v' = true ->
        pageClosed v = true
        \/ exists b, browser v = Some b
                     /\ env O _ (browser_close b) = Fulfilled tt).
Proof.
  rewrite run_cleanup.
  destruct v as [[b|] [|]]; cbn.
  - exists (mkVars (Some b) true), []. rewrite app_nil_r.
    repeat split; try discriminate; auto.
  - destruct (env O unit (browser_close b)) as [[]|e] eqn:E; cbn.
    + eexists _, _. split; [reflexivity|]. cbn.
      split; [reflexivity|]. split; [discriminate|]. split; [|split].
      * intros b' _ _ _. auto.
      * intros b' e' _ Hb He. injection Hb as <-. congruence.
      * intros _. right. exists b. auto.
    + eexists _, _. split; [reflexivity|]. cbn.
      split; [reflexivity|]. split; [discriminate|]. split; [|split].
      * intros b' _ Hb He. injection Hb as <-. congruence.
      * intros b' e' _ _ _. auto.
      * discriminate.
  - exists (mkVars None true), []. rewrite app_nil_r.
    repeat split; try discriminate; auto.
  - exists (mkVars None false), []. rewrite app_nil_r.
    repeat split; try discriminate; auto.
Qed.


(** ** The navigation loop *)

Section Navigation.

Variables (page : Page) (url : string).

(** What a run of the navigation loop does: one attempt when it
    fulfils; else the backoff and a second attempt, whose rejection is
    thrown. *)
Lemma run_navigate (who : Thread) (env : nat -> Answer) (v : Vars)
    (tr : list Event) :
  let goto := page_goto page url "networkidle" in
  run who env v tr (navigate page url) =
  match env O _ goto with
  | Fulfilled _ => (v, tr ++ awaited who goto (env O _ goto), inl tt)
  | Rejected _ =>
      (v,
       tr ++ awaited who goto (env O _ goto)
          ++ awaited who (delay 250) (env 1%nat _ (delay 250))
          ++ awaited who goto (env 2%nat _ goto),
       match env 2%nat _ goto with
       | Fulfilled _ => inl tt
       | Rejected e2 => inr e2
       end)
  end.
Proof.
  unfold navigate. cbn.
  destruct (env O unit (page_goto page url "networkidle")) as [[]|e1]; cbn;
    [reflexivity|].
  rewrite <- !app_assoc. cbn.
  destruct (env 2%nat unit (page_goto page url "networkidle")) as [[]|e2];
    reflexivity.
Qed.

End Navigation.

(** ** What one task logs *)

Lemma Safe_bind {A B : Type} (Q : Event -> Prop) (who : Thread) (p : Proc A)
    (f : A -> Proc B) :
  Safe Q who p -> (forall a, Safe Q who (f a)) -> Safe Q who (bind p f).
Proof.
  intros Hp Hf.
  induction p as [a|e|T c k IH|k IH|g k IH|e k IH]; cbn in *; auto.
  - destruct Hp as (H1 & H2 & H3). auto.
  - destruct Hp as (H1 & H2). auto.
Qed.

Lemma Safe_try_catch {A : Type} (Q : Event -> Prop) (who : Thread) (p : Proc A)
    (h : Js.Error -> Proc A) :
  Safe Q who p -> (forall e, Safe Q who (h e)) -> Safe Q who (try_catch p h).
Proof.
  intros Hp Hh.
  induction p as [a|e|T c k IH|k IH|g k IH|e k IH]; cbn in *; auto.
  - destruct Hp as (H1 & H2 & H3). auto.
  - destruct Hp as (H1 & H2). auto.
Qed.

(** The trace a task starts from is a prefix of the one it leaves. *)
Lemma advance_app {A : Type} (who : Thread) (p : Proc A) :
  forall v tr,
    advance who v tr p =
    (fst (fst (advance who v [] p)), tr ++ snd (fst (advance who v [] p)),
     snd (advance who v [] p)).
Proof.
  induction p as [a|e|T c k IH|k IH|f k IH|e k IH]; intros v tr; cbn.
  - now rewrite app_nil_r.
  - now rewrite app_nil_r.
  - reflexivity.
  - apply IH.
  - apply IH.
  - rewrite IH. rewrite (IH v [EvEffect who e]). cbn.
    now rewrite <- app_assoc.
Qed.

Lemma run_app {A : Type} (who : Thread) (p : Proc A) :
  forall env v tr,
    run who env v tr p =
    (fst (fst (run who env v [] p)), tr ++ snd (fst (run who env v [] p)),
     snd (run who env v [] p)).
Proof.
  induction p as [a|e|T c k IH|k IH|f k IH|e k IH]; intros env v tr; cbn.
  - now rewrite app_nil_r.
  - now rewrite app_nil_r.
  - rewrite IH. rewrite (IH _ _ v [_; _]). cbn. now rewrite <- app_assoc.
  - apply IH.
  - apply IH.
  - rewrite IH. rewrite (IH env v [EvEffect who e]). cbn.
    now rewrite <- app_assoc.
Qed.

(** A task of safe code logs safe events and leaves safe code. *)
Lemma advance_safe {A : Type} (Q : Event -> Prop) (who : Thread) (p : Proc A) :
  Safe Q who p ->
  forall v, Forall Q (snd (fst (advance who v [] p)))
            /\ Safe Q who (snd (advance who v [] p)).
Proof.
  induction p as [a|e|T c k IH|k IH|f k IH|e k IH]; intros Hp v; cbn in *.
  - split; auto.
  - split; auto.
  - destruct Hp as (H1 & H2 & H3). split; auto.
  - apply IH, Hp.
  - apply IH, Hp.
  - destruct Hp as (H1 & H2). rewrite advance_app. cbn.
    destruct (IH H2 v) as [H3 H4]. split; auto.
Qed.

Lemma run_safe {A : Type} (Q : Event -> Prop) (who : Thread) (p : Proc A) :
  Safe Q who p ->
  forall env v, Forall Q (snd (fst (run who env v [] p))).
Proof.
  induction p as [a|e|T c k IH|k IH|f k IH|e k IH]; intros Hp env v; cbn in *.
  - constructor.
  - constructor.
  - destruct Hp as (H1 & H2 & H3). rewrite run_app. cbn.
    repeat constructor; auto.
  - apply IH, Hp.
  - apply IH, Hp.
  - destruct Hp as (H1 & H2). rewrite run_app. cbn. constructor; auto.
Qed.

Lemma thread_eqb_refl (w : Thread) : thread_eqb w w = true.
Proof. now destruct w. Qed.

(** A task logs events of its own thread: effects, then at most the call
    it blocks on; and it stops at an awaited call or at its end. *)
Lemma advance_events {A : Type} (who : Thread) (p : Proc A) :
  forall v,
    let r := advance who v [] p in
    Forall (fun e => by_thread who e = true /\ is_settle_of who e = false)
      (snd (fst r))
    /\ count (is_call_of who) (snd (fst r))
       = (if is_await (snd r) then 1 else 0)%nat
    /\ settled_or_awaiting (snd r) = true.
Proof.
  induction p as [a|e|T c k IH|k IH|f k IH|e k IH]; intros v; cbn.
  - repeat split; constructor.
  - repeat split; constructor.
  - rewrite thread_eqb_refl. repeat split.
    constructor; [|constructor]. cbn. now rewrite thread_eqb_refl.
  - apply IH.
  - apply IH.
  - rewrite advance_app. cbn. destruct (IH v) as (H1 & H2 & H3).
    repeat split; auto.
    constructor; auto. cbn. now rewrite thread_eqb_refl.
Qed.

(** ** Invariants of the race *)

Lemma filter_neutral (f : Event -> bool) (evs : list Event) :
  (forall e, f e = true -> neutral e = false) ->
  forallb neutral evs = true -> filter f evs = [].
Proof.
  intros Hf. induction evs as [|e evs IH]; cbn; [reflexivity|].
  intros H. apply andb_true_iff in H as [He Hevs].
  destruct (f e) eqn:E; [|auto]. apply Hf in E. congruence.
Qed.

Lemma timer_event_not_neutral (e : Event) :
  is_timer_event e = true -> neutral e = false.
Proof. unfold neutral. now intros ->. Qed.

Lemma timer_thread_not_neutral (e : Event) :
  by_thread Timer e = true -> neutral e = false.
Proof. unfold neutral. intros ->. now rewrite andb_false_r. Qed.

Lemma timer_call_not_neutral (e : Event) :
  is_call_of Timer e = true -> neutral e = false.
Proof.
  intros H. apply timer_thread_not_neutral. destruct e; cbn in *; congruence.
Qed.

Lemma timer_settle_not_neutral (e : Event) :
  is_settle_of Timer e = true -> neutral e = false.
Proof.
  intros H. apply timer_thread_not_neutral. destruct e; cbn in *; congruence.
Qed.

Lemma count_neutral (f : Event -> bool) (evs : list Event) :
  (forall e, f e = true -> neutral e = false) ->
  forallb neutral evs = true -> count f evs = 0%nat.
Proof. intros Hf H. unfold count. now rewrite filter_neutral. Qed.

(** Events of the operation and of the main code are neutral. *)
Lemma own_events_neutral (who : Thread) (evs : list Event) :
  who <> Timer ->
  Forall (fun e => by_thread who e = true /\ is_settle_of who e = false) evs ->
  forallb neutral evs = true.
Proof.
  intros Hw H. apply forallb_forall. intros e He.
  rewrite Forall_forall in H. destruct (H e He) as [Hb _].
  destruct e; cbn in *; try discriminate;
    destruct who0, who; cbn in *; congruence.
Qed.

(** Neutral events leave the invariant of the timer alone, also when the
    pending timer is cleared. *)
Lemma TInv_neutral (t t' : TimerState) (tr evs : list Event) :
  forallb neutral evs = true ->
  t' = t \/ (t = TArmed /\ t' = TCleared) ->
  TInv t tr -> TInv t' (tr ++ evs).
Proof.
  intros Hn Ht Hinv.
  assert (Ht0 : filter is_timer_event evs = [])
    by (apply filter_neutral; auto using timer_event_not_neutral).
  assert (Hb0 : filter (by_thread Timer) evs = [])
    by (apply filter_neutral; auto using timer_thread_not_neutral).
  assert (Hc0 : count (is_call_of Timer) evs = 0%nat)
    by (apply count_neutral; auto using timer_call_not_neutral).
  assert (Hs0 : count (is_settle_of Timer) evs = 0%nat)
    by (apply count_neutral; auto using timer_settle_not_neutral).
  assert (Hsame : TInv t (tr ++ evs)).
  { destruct t; cbn in *.
    - rewrite !filter_app, Ht0, Hb0, !app_nil_r. exact Hinv.
    - rewrite filter_app, !count_app, Ht0, Hc0, Hs0, app_nil_r, !Nat.add_0_r.
      exact Hinv.
    - destruct Hinv as (l1 & l2 & -> & H1 & H2 & H3).
      exists l1, (l2 ++ evs). rewrite <- app_assoc. cbn.
      rewrite filter_app, H3, Ht0. auto.
    - rewrite !filter_app, Ht0, Hb0, !app_nil_r. exact Hinv. }
  destruct Ht as [->|[-> ->]]; [exact Hsame|exact Hsame].
Qed.



Lemma filter_nil_weaken (f g : Event -> bool) (l : list Event) :
  (forall e, f e = true -> g e = true) -> filter g l = [] -> filter f l = [].
Proof.
  intros Hfg. induction l as [|e l IH]; cbn; [reflexivity|].
  destruct (g e) eqn:Eg; [discriminate|].
  destruct (f e) eqn:Ef; [apply Hfg in Ef; congruence|exact IH].
Qed.

Lemma no_timer_thread_counts (tr : list Event) :
  filter (by_thread Timer) tr = [] ->
  count (is_call_of Timer) tr = 0%nat /\ count (is_settle_of Timer) tr = 0%nat.
Proof.
  intros H. unfold count. split.
  - rewrite (filter_nil_weaken (is_call_of Timer) (by_thread Timer)); auto.
    intros []; cbn; congruence.
  - rewrite (filter_nil_weaken (is_settle_of Timer) (by_thread Timer)); auto.
    intros []; cbn; congruence.
Qed.

(** What a task logs holds no event of the timer and no settled call. *)
Lemma own_events_counts (who : Thread) (evs : list Event) :
  Forall (fun e => by_thread who e = true /\ is_settle_of who e = false) evs ->
  filter is_timer_event evs = [] /\ count (is_settle_of who) evs = 0%nat.
Proof.
  unfold count. induction 1 as [|e evs [Hb Hs] _ [IH1 IH2]]; cbn; [auto|].
  rewrite Hs. destruct e; cbn in *; try discriminate; auto.
Qed.

Section RaceInvariants.

Context {T R : Type}.
Variable cb : Proc unit.
Variable on_value : T -> Proc R.
Variable on_throw : Js.Error -> Proc R.

(** Settling the race logs neutral events and at most clears the
    timer. *)
Lemma race_settled_trace (m : Machine T R) (r : Settled T) :
  let m' := race_settled on_value on_throw m r in
  exists evs,
    m_trace m' = m_trace m ++ evs
    /\ forallb neutral evs = true
    /\ (m_timer m' = m_timer m
        \/ (m_timer m = TArmed /\ m_timer m' = TCleared)).
Proof.
  unfold race_settled. destruct (m_main m).
  - rewrite advance_app. cbn.
    eexists. rewrite <- app_assoc. split; [reflexivity|]. split.
    + cbn. apply own_events_neutral with (who := Main); [discriminate|].
      apply advance_events.
    + destruct (m_timer m); auto.
  - exists []. rewrite app_nil_r. auto.
  - exists []. rewrite app_nil_r. auto.
  - exists []. rewrite app_nil_r. auto.
Qed.

Lemma TInv_race_settled (m : Machine T R) (r : Settled T) :
  TInv (m_timer m) (m_trace m) ->
  TInv (m_timer (race_settled on_value on_throw m r))
       (m_trace (race_settled on_value on_throw m r)).
Proof.
  intros H. destruct (race_settled_trace m r) as (evs & -> & Hn & Ht).
  now apply TInv_neutral with (t := m_timer m).
Qed.

Lemma TInv_op_progress (m : Machine T R) :
  TInv (m_timer m) (m_trace m) ->
  TInv (m_timer (op_progress on_value on_throw m))
       (m_trace (op_progress on_value on_throw m)).
Proof.
  intros H. unfold op_progress.
  destruct (m_op m); auto using TInv_race_settled.
Qed.

Lemma TInv_reject_timeout (m : Machine T R) :
  filter is_timer_event (m_trace m)
  = [EvTimerFired; EvOnTimeoutCalled; EvOnTimeoutSettled] ->
  count (is_call_of Timer) (m_trace m) = count (is_settle_of Timer) (m_trace m) ->
  TInv (m_timer (reject_timeout on_value on_throw m))
       (m_trace (reject_timeout on_value on_throw m)).
Proof.
  intros H1 H2. unfold reject_timeout. apply TInv_race_settled. cbn.
  exists (m_trace m), []. auto.
Qed.

Lemma TInv_timer_progress (m : Machine T R) (p : Proc unit) :
  settled_or_awaiting p = true ->
  filter is_timer_event (m_trace m) = [EvTimerFired; EvOnTimeoutCalled] ->
  count (is_call_of Timer) (m_trace m)
  = (count (is_settle_of Timer) (m_trace m) + if is_await p then 1 else 0)%nat ->
  TInv (m_timer (timer_progress on_value on_throw m p))
       (m_trace (timer_progress on_value on_throw m p)).
Proof.
  intros Hp Hf Hc.
  destruct p; cbn in Hp; try discriminate; cbn [timer_progress].
  - apply TInv_reject_timeout; cbn [m_trace].
    + now rewrite filter_app, Hf.
    + rewrite !count_app. cbn in *. lia.
  - apply TInv_reject_timeout; cbn [m_trace].
    + now rewrite filter_app, Hf.
    + rewrite !count_app. cbn in *. lia.
  - cbn [timer_progress m_timer m_trace TInv is_await] in *.
    repeat split; auto. lia.
Qed.

Lemma step_TInv (ch : Choice) (m : Machine T R) :
  TInv (m_timer m) (m_trace m) ->
  TInv (m_timer (step (Some cb) on_value on_throw ch m))
       (m_trace (step (Some cb) on_value on_throw ch m)).
Proof.
  intros H. destruct ch as [a| |a|a]; cbn [step].
  - destruct (m_op m) as [x|e|U c k|k|f k|e k]; auto.
    rewrite advance_app. cbn [fst snd]. apply TInv_op_progress.
    cbn [m_timer m_trace].
    rewrite <- app_assoc. apply TInv_neutral with (t := m_timer m); auto.
    cbn. apply own_events_neutral with (who := Op); [discriminate|].
    apply advance_events.
  - destruct (m_timer m) eqn:Et; try (rewrite Et; exact H).
    cbn in H. destruct H as [Hf Hb].
    destruct (no_timer_thread_counts _ Hb) as [Hc Hs].
    destruct (advance_events Timer cb (m_vars m)) as (He & Hcalls & Hp).
    destruct (own_events_counts _ _ He) as [Het Hes].
    rewrite advance_app. cbn [fst snd].
    apply TInv_timer_progress; cbn [m_trace]; auto.
    + rewrite !filter_app, Hf, Het. reflexivity.
    + rewrite !count_app, Hc, Hs, Hes, Hcalls. reflexivity.
  - destruct (m_timer m) as [|p| |] eqn:Et; try (rewrite Et; exact H).
    destruct p as [x|e|U c k|k|f k|e k]; try (rewrite Et; exact H).
    cbn in H. destruct H as (Hf & _ & Hc).
    destruct (advance_events Timer (k (a U c)) (m_vars m)) as (He & Hcalls & Hp).
    destruct (own_events_counts _ _ He) as [Het Hes].
    rewrite advance_app. cbn [fst snd].
    apply TInv_timer_progress; cbn [m_trace]; auto.
    + rewrite !filter_app, Hf, Het. reflexivity.
    + rewrite !count_app, Hc, Hes, Hcalls. cbn. lia.
  - destruct (m_main m) as [|p|r|e] eqn:Em; auto.
    destruct p as [x|e|U c k|k|f k|e k]; auto.
    rewrite advance_app. cbn [fst snd m_timer m_trace].
    rewrite <- app_assoc. apply TInv_neutral with (t := m_timer m); auto.
    cbn. apply own_events_neutral with (who := Main); [discriminate|].
    apply advance_events.
Qed.

Lemma steps_TInv (sched : list Choice) (m : Machine T R) :
  TInv (m_timer m) (m_trace m) ->
  TInv (m_timer (steps (Some cb) on_value on_throw sched m))
       (m_trace (steps (Some cb) on_value on_throw sched m)).
Proof.
  revert m. induction sched as [|ch sched IH]; intros m H; cbn; [exact H|].
  apply IH, step_TInv, H.
Qed.

Lemma withTimeout_TInv (v : Vars) (tr0 : list Event) (op : Proc T) (ms : Z) :
  forallb neutral tr0 = true ->
  let m := withTimeout on_value on_throw v tr0 op ms in
  TInv (m_timer m) (m_trace m).
Proof.
  intros H0. unfold withTimeout. rewrite advance_app. cbn [fst snd].
  apply TInv_op_progress. cbn [m_timer m_trace].
  change (TInv TArmed (([] ++ tr0 ++ snd (fst (advance Op v [] op))) ++ [EvSetTimeout ms])).
  rewrite <- app_assoc. apply TInv_neutral with (t := TArmed); auto.
  - rewrite !forallb_app, H0. cbn. rewrite andb_true_r.
    apply own_events_neutral with (who := Op); [discriminate|].
    apply advance_events.
  - cbn. auto.
Qed.


End RaceInvariants.

Section RaceSafety.

Context {T R : Type}.
Variable Q : Event -> Prop.
Variable onTimeout : option (Proc unit).
Variable on_value : T -> Proc R.
Variable on_throw : Js.Error -> Proc R.

Hypothesis Q_race : forall e, is_race_event e = true -> Q e.
Hypothesis Q_onTimeout : forall cb, onTimeout = Some cb -> Safe Q Timer cb.
Hypothesis Q_value : forall x, Safe Q Main (on_value x).
Hypothesis Q_throw : forall e, Safe Q Main (on_throw e).

Lemma MSafe_make (tr0 evs : list Event) (v : Vars) (op : Proc T)
    (t : TimerState) (mn : MainState R) :
  Forall Q evs -> Safe Q Op op ->
  (forall p, t = TRunning p -> Safe Q Timer p) ->
  (forall p, mn = MRun p -> Safe Q Main p) ->
  MSafe Q tr0 (mkMachine v (tr0 ++ evs) op t mn).
Proof. intros. unfold MSafe. cbn. eauto 10. Qed.

Lemma main_state_safe (p : Proc R) :
  Safe Q Main p -> forall q, main_state p = MRun q -> Safe Q Main q.
Proof. intros Hp q. destruct p; cbn; intros E; inversion E; subst; exact Hp. Qed.

Lemma MSafe_race_settled (tr0 : list Event) (m : Machine T R) (r : Settled T) :
  MSafe Q tr0 m -> MSafe Q tr0 (race_settled on_value on_throw m r).
Proof.
  destruct m as [v tr op t mn].
  intros ((evs & E & Hevs) & Hop & Htm & Hmn). cbn in *. subst tr.
  unfold race_settled. cbn [m_main m_timer m_trace m_vars m_op].
  destruct mn as [|p0|r0|e0]; [|apply MSafe_make; auto..].
  set (p := match r with Fulfilled x => on_value x | Rejected e => on_throw e end).
  assert (Hp : Safe Q Main p) by (subst p; destruct r; auto).
  rewrite advance_app. cbn [fst snd].
  destruct (advance_safe Q Main p Hp v) as [H1 H2].
  rewrite <- !app_assoc. apply MSafe_make; auto.
  - rewrite !Forall_app. repeat split; auto;
      repeat constructor; apply Q_race; reflexivity.
  - intros q Hq. destruct t; try discriminate; auto.
  - now apply main_state_safe.
Qed.

Lemma MSafe_op_progress (tr0 : list Event) (m : Machine T R) :
  MSafe Q tr0 m -> MSafe Q tr0 (op_progress on_value on_throw m).
Proof.
  intros H. unfold op_progress. destruct (m_op m); auto using MSafe_race_settled.
Qed.

Lemma MSafe_timer_progress (tr0 evs : list Event) (v : Vars) (op : Proc T)
    (t : TimerState) (mn : MainState R) (p : Proc unit) :
  Forall Q evs -> Safe Q Op op -> Safe Q Timer p ->
  (forall q, mn = MRun q -> Safe Q Main q) ->
  MSafe Q tr0
    (timer_progress on_value on_throw (mkMachine v (tr0 ++ evs) op t mn) p).
Proof.
  intros Hevs Hop Hp Hmn.
  assert (Hrej : MSafe Q tr0
            (reject_timeout on_value on_throw
               (mkMachine v ((tr0 ++ evs) ++ [EvOnTimeoutSettled]) op t mn))).
  { unfold reject_timeout. apply MSafe_race_settled. cbn.
    rewrite <- !app_assoc. apply MSafe_make; auto; [|discriminate].
    rewrite Forall_app. split; auto;
      repeat constructor; apply Q_race; reflexivity. }
  destruct p; cbn [timer_progress m_vars m_trace m_op m_timer m_main]; auto;
    apply MSafe_make; auto; intros q Hq; injection Hq as <-; exact Hp.
Qed.

Lemma step_MSafe (tr0 : list Event) (ch : Choice) (m : Machine T R) :
  MSafe Q tr0 m -> MSafe Q tr0 (step onTimeout on_value on_throw ch m).
Proof.
  intros Hm. pose proof Hm as Hm0.
  destruct m as [v tr op t mn].
  destruct Hm as ((evs & E & Hevs) & Hop & Htm & Hmn). cbn in *. subst tr.
  destruct ch as [a| |a|a]; cbn [step m_vars m_trace m_op m_timer m_main].
  - destruct op as [x|e|U c k|k|f k|e k]; auto.
    destruct Hop as (Hc & Hs & Hk).
    rewrite advance_app. cbn [fst snd].
    destruct (advance_safe Q Op _ (Hk (a U c)) v) as [H1 H2].
    apply MSafe_op_progress. rewrite <- !app_assoc. apply MSafe_make; auto.
    rewrite !Forall_app. repeat split; auto.
  - destruct t; auto.
    destruct onTimeout as [cb|] eqn:Ecb.
    + rewrite advance_app. cbn [fst snd].
      destruct (advance_safe Q Timer cb (Q_onTimeout cb eq_refl) v) as [H1 H2].
      rewrite <- !app_assoc. apply MSafe_timer_progress; auto.
      rewrite !Forall_app. repeat split; auto;
        repeat constructor; apply Q_race; reflexivity.
    + unfold reject_timeout. apply MSafe_race_settled. cbn.
      rewrite <- !app_assoc. apply MSafe_make; auto; [|discriminate].
      rewrite Forall_app. split; auto;
        repeat constructor; apply Q_race; reflexivity.
  - destruct t as [|p| |]; auto.
    destruct p as [x|e|U c k|k|f k|e k]; auto.
    specialize (Htm _ eq_refl).
    destruct Htm as (Hc & Hs & Hk).
    rewrite advance_app. cbn [fst snd].
    destruct (advance_safe Q Timer _ (Hk (a U c)) v) as [H1 H2].
    rewrite <- !app_assoc. apply MSafe_timer_progress; auto.
    rewrite !Forall_app. repeat split; auto.
  - destruct mn as [|p|r|e]; auto.
    destruct p as [x|e|U c k|k|f k|e k]; auto.
    specialize (Hmn _ eq_refl).
    destruct Hmn as (Hc & Hs & Hk).
    rewrite advance_app. cbn [fst snd].
    destruct (advance_safe Q Main _ (Hk (a U c)) v) as [H1 H2].
    rewrite <- !app_assoc. apply MSafe_make; auto.
    + rewrite !Forall_app. repeat split; auto.
    + now apply main_state_safe.
Qed.

Lemma steps_MSafe (tr0 : list Event) (sched : list Choice) (m : Machine T R) :
  MSafe Q tr0 m -> MSafe Q tr0 (steps onTimeout on_value on_throw sched m).
Proof.
  revert m. induction sched as [|ch sched IH]; intros m H; cbn; [exact H|].
  apply IH, step_MSafe, H.
Qed.

Lemma withTimeout_MSafe (v : Vars) (tr0 : list Event) (op : Proc T) (ms : Z) :
  Safe Q Op op -> Q (EvSetTimeout ms) ->
  MSafe Q tr0 (withTimeout on_value on_throw v tr0 op ms).
Proof.
  intros Hop Hms. unfold withTimeout. rewrite advance_app. cbn [fst snd].
  destruct (advance_safe Q Op op Hop v) as [H1 H2].
  apply MSafe_op_progress. rewrite <- !app_assoc. apply MSafe_make; auto.
  - rewrite Forall_app. split; auto.
  - discriminate.
  - discriminate.
Qed.

End RaceSafety.

(** ** The code of the handler is safe *)

Lemma Safe_await {T : Type} (Q : Event -> Prop) (who : Thread) (c : Call T) :
  Q (EvCall who (name_of c)) -> (forall ok, Q (EvSettle who (name_of c) ok)) ->
  Safe Q who (await c).
Proof. intros H1 H2. cbn. repeat split; auto. now intros [x|e]. Qed.

Lemma race_ok_call (who : Thread) (c : CallName) :
  is_dns_event (EvCall who c) = false ->
  race_ok (EvCall who c) /\ forall ok, race_ok (EvSettle who c ok).
Proof. destruct c; cbn; try discriminate; intros _; repeat split. Qed.

Lemma Safe_cleanup (who : Thread) : Safe race_ok who cleanup.
Proof.
  unfold cleanup. apply Safe_try_catch; [|now cbn].
  cbn [Safe]. intros v. destruct (pageClosed v), (browser v); try exact I.
  apply Safe_bind; [|now cbn].
  apply Safe_await; apply race_ok_call; reflexivity.
Qed.

Lemma Safe_send (code : Z) (body : Body) : Safe race_ok Main (send code body).
Proof. cbn. repeat split. Qed.

Lemma Safe_handler_catch (debug : bool) (e : Js.Error) :
  Safe race_ok Main (handler_catch debug e).
Proof.
  unfold handler_catch. cbn [Safe]. split; [repeat split|].
  destruct (_ || _); [|destruct (String.eqb _ _)];
    (apply Safe_bind; [apply Safe_cleanup|intros _]);
    try destruct debug; apply Safe_send.
Qed.

Lemma Safe_navigate (page : Page) (url : string) :
  Safe race_ok Op (navigate page url).
Proof.
  unfold navigate. cbn.
  repeat (split || intro
          || match goal with
             | |- context [match ?r with Fulfilled _ => _ | Rejected _ => _ end] =>
                 destruct r; cbn
             end).
Qed.

Lemma Safe_operation (url : string) (debug : bool) :
  Safe race_ok Op (operation url debug).
Proof.
  unfold operation.
  apply Safe_bind; [apply Safe_await; apply race_ok_call; reflexivity|].
  intros b. cbn [Safe].
  apply Safe_bind; [apply Safe_await; apply race_ok_call; reflexivity|].
  intros c.
  apply Safe_bind; [apply Safe_await; apply race_ok_call; reflexivity|].
  intros p. cbn [Safe]. split; [repeat split|]. split; [repeat split|].
  apply Safe_bind; [apply Safe_navigate|]. intros _.
  destruct debug.
  - apply Safe_bind; [apply Safe_await; apply race_ok_call; reflexivity|].
    intros html. apply Safe_bind; [apply Safe_cleanup|now cbn].
  - apply Safe_bind; [apply Safe_await; apply race_ok_call; reflexivity|].
    intros d. destruct (extract d) as [[t m] h1].
    apply Safe_bind; [apply Safe_cleanup|now cbn].
Qed.

(** Every event of the race of [handler] is fine, whatever the
    schedule. *)
Lemma handler_race_safe (tr0 : list Event) (url : string) (debug : bool)
    (sched : list Choice) :
  MSafe race_ok tr0 (handler_steps debug sched (handler_race tr0 url debug)).
Proof.
  unfold handler_steps, handler_race.
  apply steps_MSafe.
  - intros e He. destruct e; try discriminate; repeat split.
  - intros cb E. injection E as <-. apply Safe_cleanup.
  - intros x. apply Safe_send.
  - apply Safe_handler_catch.
  - apply withTimeout_MSafe.
    + intros e He. destruct e; try discriminate; repeat split.
    + intros x. apply Safe_send.
    + apply Safe_handler_catch.
    + apply Safe_operation.
    + repeat split.
Qed.

(** ** The entry code of the handler *)

Lemma run_bind {A B : Type} (who : Thread) (p : Proc A) (f : A -> Proc B) :
  forall env v tr,
    run who env v tr (bind p f) =
    match run who env v tr p with
    | (v', tr', inl a) =>
        run who (fun n => env (awaits env v p + n)%nat) v' tr' (f a)
    | (v', tr', inr e) => (v', tr', inr e)
    end.
Proof.
  induction p as [a|e|T c k IH|k IH|g k IH|e k IH]; intros env v tr; cbn;
    auto.
Qed.

Section Entry.

Variable isIP : string -> Z.
Variable parseURL : string -> option URL.

(** The host check logs DNS events only. *)
Lemma isHostAllowed_events (env : nat -> Answer) (v : Vars) (url : string) :
  forallb is_dns_event (events_of Main env v (isHostAllowed isIP parseURL url))
  = true.
Proof.
  unfold events_of. rewrite run_isHostAllowed.
  destruct (parseURL url) as [u|]; [|reflexivity].
  destruct (_ || _); reflexivity.
Qed.

(** A request that passes the validation goes through the host check:
    the handler goes on when it returns true and answers 400 with
    "Invalid URL or disallowed host" when it returns false. *)
Lemma run_entry_valid (env : nat -> Answer) (req : Request) (url : string) :
  req_method req = "GET" ->
  query_first (query_url req) = Some url ->
  url <> EmptyString ->
  isValidHttpUrl parseURL url = true ->
  exists tr b,
    run Main env initial_vars [] (isHostAllowed isIP parseURL url)
    = (initial_vars, tr, inl b)
    /\ forallb is_dns_event tr = true
    /\ run Main env initial_vars [] (handler_entry isIP parseURL req) =
       if b then (initial_vars, tr, inl (inr (url, query_is_true (query_debug req))))
       else (initial_vars, tr ++ [EvEffect Main (respond disallowed_host)],
             inl (inl disallowed_host)).
Proof.
  intros Hm Hq Hne Hv.
  destruct (isHostAllowed_returns isIP parseURL Main env initial_vars [] url)
    as (tr & b & Hrun).
  exists tr, b. split; [exact Hrun|]. split.
  - pose proof (isHostAllowed_events env initial_vars url) as H.
    unfold events_of in H. now rewrite Hrun in H.
  - unfold handler_entry. rewrite Hm, Hq, Hv, String.eqb_refl. cbn [negb].
    apply String.eqb_neq in Hne. rewrite Hne. cbn [orb negb].
    rewrite run_bind, Hrun. now destruct b.
Qed.

(** A request that fails the validation is answered 400 "Invalid URL"
    and nothing else happens. *)
Lemma run_entry_invalid (env : nat -> Answer) (req : Request) :
  req_method req = "GET" ->
  (forall url, query_first (query_url req) = Some url ->
               url = EmptyString \/ isValidHttpUrl parseURL url = false) ->
  run Main env initial_vars [] (handler_entry isIP parseURL req)
  = (initial_vars, [EvEffect Main (respond invalid_url)], inl (inl invalid_url)).
Proof.
  intros Hm Hq. unfold handler_entry. rewrite Hm, String.eqb_refl. cbn [negb].
  destruct (query_first (query_url req)) as [url|]; [|reflexivity].
  destruct (Hq url eq_refl) as [->|Hv]; [reflexivity|].
  rewrite Hv. rewrite orb_true_r. reflexivity.
Qed.

(** The entry code never calls the browser; it goes on to the race only
    after the host check returned true. *)
Lemma run_entry_cases (env : nat -> Answer) (req : Request) :
  exists tr r,
    run Main env initial_vars [] (handler_entry isIP parseURL req)
    = (initial_vars, tr, inl r)
    /\ count is_renderer_call tr = 0%nat
    /\ match r with
       | inl _ => True
       | inr (url, debug) =>
           query_first (query_url req) = Some url
           /\ debug = query_is_true (query_debug req)
           /\ run Main env initial_vars [] (isHostAllowed isIP parseURL url)
              = (initial_vars, tr, inl true)
       end.
Proof.
  destruct (String.eqb (req_method req) "GET") eqn:Hm.
  - apply String.eqb_eq in Hm.
    destruct (query_first (query_url req)) as [url|] eqn:Hq.
    + destruct (String.eqb url EmptyString) eqn:Hne.
      * apply String.eqb_eq in Hne.
        rewrite run_entry_invalid; auto.
        -- eexists _, _. split; [reflexivity|]. split; [reflexivity|exact I].
        -- intros url' E. rewrite Hq in E. injection E as <-. auto.
      * apply String.eqb_neq in Hne.
        destruct (isValidHttpUrl parseURL url) eqn:Hv.
        -- destruct (run_entry_valid env req url Hm Hq Hne Hv)
             as (tr & b & Hrun & Hdns & ->).
           assert (Hc : count is_renderer_call tr = 0%nat).
           { unfold count. clear -Hdns.
             induction tr as [|e tr IH]; [reflexivity|]. cbn in *.
             apply andb_true_iff in Hdns as [He Htr].
             destruct e as [w c|w c ok|w e| | | | | | |]; try discriminate;
               destruct c; try discriminate; cbn; auto. }
           destruct b; eexists _, _; (split; [reflexivity|]); split; auto.
           rewrite count_app, Hc. reflexivity.
        -- rewrite run_entry_invalid; auto.
           ++ eexists _, _. split; [reflexivity|]. split; [reflexivity|exact I].
           ++ intros url' E. rewrite Hq in E. injection E as <-. auto.
    + rewrite run_entry_invalid; auto.
      * eexists _, _. split; [reflexivity|]. split; [reflexivity|exact I].
      * intros url' E. rewrite Hq in E. discriminate.
  - unfold handler_entry. rewrite Hm. cbn.
    eexists _, _. split; [reflexivity|]. split; [reflexivity|exact I].
Qed.

End Entry.

(** ** The handler as a whole *)

Lemma Forall_no_dns_count (evs : list Event) :
  Forall race_ok evs -> count is_dns_event evs = 0%nat.
Proof.
  unfold count. induction 1 as [|e evs [_ He] _ IH]; cbn; [reflexivity|].
  unfold no_dns in He. now rewrite He.
Qed.

Section HandlerProperties.

Variable isIP : string -> Z.
Variable parseURL : string -> option URL.

Lemma valid_scheme (url : string) (u : URL) :
  parseURL url = Some u ->
  protocol u = "http:" \/ protocol u = "https:" ->
  isValidHttpUrl parseURL url = true.
Proof.
  intros Hu [H|H]; unfold isValidHttpUrl; rewrite Hu, H; reflexivity.
Qed.

Lemma invalid_scheme (url : string) :
  parseURL url = None
  \/ (exists u, parseURL url = Some u
                /\ protocol u <> "http:" /\ protocol u <> "https:") ->
  isValidHttpUrl parseURL url = false.
Proof.
  unfold isValidHttpUrl. intros [->|(u & -> & H1 & H2)]; [reflexivity|].
  apply String.eqb_neq in H1, H2. now rewrite H1, H2.
Qed.

(** What the host check does reject: when the hostname of the URL
    resolves to a non-empty list of addresses, the host check returns
    false as soon as [isPrivateIp] flags one of them, and returns true
    only when it flags none; the handler then answers 400 with the message
    of a disallowed host, also when other addresses are public. For
    dotted IPv4 text [isPrivateIp] flags exactly the addresses of
    10.0.0.0/8, 127.0.0.0/8, 169.254.0.0/16, 192.168.0.0/16,
    172.16.0.0/12 and 0.0.0.0/8. *)
Theorem host_check_rejects_private (env : nat -> Answer) (urlString : string)
    (u : URL) (addrs : list LookupAddress) :
  parseURL urlString = Some u ->
  env O _ (dns_lookup (hostname u)) = Fulfilled addrs ->
  addrs <> [] ->
  ((exists a, In a addrs /\ isPrivateIp isIP (address a) = true) ->
     host_allowed isIP parseURL env urlString = inl false
     /\ forall sched req,
          req_method req = "GET" ->
          query_first (query_url req) = Some urlString ->
          urlString <> EmptyString ->
          protocol u = "http:" \/ protocol u = "https:" ->
          out_main (handler isIP parseURL env sched req) = MDone disallowed_host)
  /\ (host_allowed isIP parseURL env urlString = inl true ->
      forall a, In a addrs -> isPrivateIp isIP (address a) = false)
  /\ (forall a b c d,
        Addr.octet a -> Addr.octet b -> Addr.octet c -> Addr.octet d ->
        isIP (Addr.ipv4_to_string a b c d) = 4 ->
        isPrivateIp isIP (Addr.ipv4_to_string a b c d)
        = Addr.in_private_range_v4 (Addr.ipv4 a b c d)).
Proof.
  intros Hu Hdns Hne.
  assert (Hall : forall b, forallb (passes isIP) addrs = b ->
            b = true -> forall a, In a addrs -> isPrivateIp isIP (address a) = false).
  { intros b Hb -> a Ha. rewrite forallb_forall in Hb.
    specialize (Hb a Ha). unfold passes in Hb.
    apply andb_true_iff in Hb as [_ Hb]. now apply negb_true_iff in Hb. }
  assert (Hres : host_allowed isIP parseURL env urlString
                 = inl (negb (String.eqb (hostname u) EmptyString
                              || String.eqb (hostname u) "localhost")
                        && (negb (Nat.eqb (List.length addrs) 0)
                            && forallb (passes isIP) addrs))).
  { unfold host_allowed. rewrite run_isHostAllowed, Hu. cbn zeta. rewrite Hdns.
    now destruct (_ || _). }
  repeat split.
  - rewrite Hres. destruct H as (a & Ha & Hpriv).
    destruct (forallb (passes isIP) addrs) eqn:Hf.
    + specialize (Hall true eq_refl eq_refl a Ha). congruence.
    + now rewrite !andb_false_r.
  - intros sched req Hm Hq Hnonempty Hp.
    destruct (run_entry_valid isIP parseURL env req urlString Hm Hq Hnonempty
                (valid_scheme urlString u Hu Hp)) as (tr & b & Hrun & _ & Hentry).
    assert (b = false) as ->.
    { unfold host_allowed in Hres. rewrite Hrun in Hres. cbn in Hres.
      injection Hres as ->. destruct H as (a & Ha & Hpriv).
      destruct (forallb (passes isIP) addrs) eqn:Hf.
      - specialize (Hall true eq_refl eq_refl a Ha). congruence.
      - now rewrite !andb_false_r. }
    unfold handler. rewrite Hentry. reflexivity.
  - rewrite Hres. intros Htrue. injection Htrue as Htrue.
    apply andb_true_iff in Htrue as [_ Htrue].
    apply andb_true_iff in Htrue as [_ Htrue].
    exact (Hall true Htrue eq_refl).
  - intros a b c d Ha Hb Hc Hd Hv4. unfold isPrivateIp.
    rewrite Hv4. cbn. rewrite ipv4_text_parts by assumption.
    now apply isPrivateIpv4_ranges.
Qed.

(** C1: a host that resolves to the public address 93.184.216.34 and to
    fe90::1 passes the host check, although fe90::1 lies in fe80::/10, the
    link-local range that the design document and the comment in
    [isPrivateIp] count as private: the check returns true, and the
    handler sends no response but goes on and launches the browser. The
    address escapes through the test of [isPrivateIp] on the text prefix
    fe80. *)
Theorem host_check_admits_link_local (env : nat -> Answer) (urlString : string)
    (u : URL) :
  isIP "93.184.216.34" = 4 ->
  isIP "fe90::1" = 6 ->
  parseURL urlString = Some u ->
  hostname u <> EmptyString ->
  hostname u <> "localhost" ->
  env O _ (dns_lookup (hostname u))
  = Fulfilled [mkLookupAddress "93.184.216.34" 4; mkLookupAddress "fe90::1" 6] ->
  (AddrText.parse_ipv6 "fe90::1" = Some [0xfe90; 0; 0; 0; 0; 0; 0; 1]
   /\ Addr.in_private_range_v6 (Addr.ipv6 [0xfe90; 0; 0; 0; 0; 0; 0; 1]) = true)
  /\ host_allowed isIP parseURL env urlString = inl true
  /\ forall req,
       req_method req = "GET" ->
       query_first (query_url req) = Some urlString ->
       urlString <> EmptyString ->
       protocol u = "http:" \/ protocol u = "https:" ->
       let o := handler isIP parseURL env [] req in
       out_main o = MAwait
       /\ responses (out_trace o) = []
       /\ count is_launch_call (out_trace o) = 1%nat.
Proof.
  intros H4 H6 Hu He Hl Hdns.
  apply String.eqb_neq in He, Hl.
  assert (Hrun : run Main env initial_vars [] (isHostAllowed isIP parseURL urlString)
                 = (initial_vars,
                    [EvCall Main (CDnsLookup (hostname u));
                     EvSettle Main (CDnsLookup (hostname u)) true],
                    inl true)).
  { rewrite run_isHostAllowed, Hu, He, Hl. cbn zeta. rewrite Hdns.
    unfold passes, isPrivateIp. cbn [forallb address].
    rewrite H4, H6. vm_compute. reflexivity. }
  split; [split; vm_compute; reflexivity|].
  split; [unfold host_allowed; now rewrite Hrun|].
  intros req Hm Hq Hnonempty Hp.
  destruct (run_entry_valid isIP parseURL env req urlString Hm Hq Hnonempty
              (valid_scheme urlString u Hu Hp)) as (tr & b & Hrun' & _ & Hentry).
  rewrite Hrun in Hrun'. injection Hrun' as <- <-.
  cbn zeta. unfold handler. rewrite Hentry.
  unfold handler_steps, steps, handler_race, withTimeout. cbn.
  repeat split.
Qed.

(** C7: for a URL whose hostname is localhost the host check returns
    false and issues no call at all, so no DNS lookup: the trace and the
    variables are as before; and the handler only answers 400 with the
    message of a disallowed host. *)
Theorem localhost_rejected_without_lookup (who : Thread) (env : nat -> Answer)
    (v : Vars) (tr : list Event) (urlString : string) (u : URL) :
  parseURL urlString = Some u ->
  hostname u = "localhost" ->
  run who env v tr (isHostAllowed isIP parseURL urlString) = (v, tr, inl false)
  /\ forall sched req,
       req_method req = "GET" ->
       query_first (query_url req) = Some urlString ->
       urlString <> EmptyString ->
       protocol u = "http:" \/ protocol u = "https:" ->
       handler isIP parseURL env sched req
       = mkOutcome [EvEffect Main (respond disallowed_host)] initial_vars
           (MDone disallowed_host).
Proof.
  intros Hu Hl.
  assert (Hrun : forall who v tr,
            run who env v tr (isHostAllowed isIP parseURL urlString)
            = (v, tr, inl false)).
  { intros who' v' tr'. rewrite run_isHostAllowed, Hu, Hl. reflexivity. }
  split; [apply Hrun|].
  intros sched req Hm Hq Hnonempty Hp.
  destruct (run_entry_valid isIP parseURL env req urlString Hm Hq Hnonempty
              (valid_scheme urlString u Hu Hp)) as (tr' & b & Hrun' & _ & Hentry).
  rewrite Hrun in Hrun'. injection Hrun' as <- <-.
  unfold handler. rewrite Hentry. reflexivity.
Qed.

(** C4: when the DNS lookup of the hostname throws or gives no address,
    the host check returns false and the handler answers 400 with
    "Invalid URL or disallowed host", without calling the browser: after
    the events of the host check, which are the one lookup of the
    hostname, the handler sends that response, the only one, returns it
    and leaves the variables as they were, whatever the schedule. *)
Theorem dns_failure_fails_closed (env : nat -> Answer) (sched : list Choice)
    (req : Request) (url : string) (u : URL) :
  req_method req = "GET" ->
  query_first (query_url req) = Some url ->
  url <> EmptyString ->
  parseURL url = Some u ->
  protocol u = "http:" \/ protocol u = "https:" ->
  (exists e, env O _ (dns_lookup (hostname u)) = Rejected e)
  \/ env O _ (dns_lookup (hostname u)) = Fulfilled [] ->
  host_allowed isIP parseURL env url = inl false
  /\ out_main (handler isIP parseURL env sched req) = MDone disallowed_host
  /\ count is_renderer_call (out_trace (handler isIP parseURL env sched req))
     = 0%nat
  /\ handler isIP parseURL env sched req
     = mkOutcome
         (events_of Main env initial_vars (isHostAllowed isIP parseURL url)
            ++ [EvEffect Main (respond disallowed_host)])
         initial_vars (MDone disallowed_host)
  /\ responses (out_trace (handler isIP parseURL env sched req))
     = [disallowed_host]
  /\ (hostname u <> EmptyString -> hostname u <> "localhost" ->
      events_of Main env initial_vars (isHostAllowed isIP parseURL url)
      = [EvCall Main (CDnsLookup (hostname u));
         EvSettle Main (CDnsLookup (hostname u))
           (fulfilled (env O _ (dns_lookup (hostname u))))]).
Proof.
  intros Hm Hq Hne Hu Hp Hdns.
  assert (Hf : host_allowed isIP parseURL env url = inl false).
  { unfold host_allowed. rewrite run_isHostAllowed, Hu.
    destruct (_ || _); [reflexivity|]. cbn zeta.
    destruct Hdns as [[e ->]| ->]; reflexivity. }
  split; [exact Hf|].
  destruct (run_entry_valid isIP parseURL env req url Hm Hq Hne
              (valid_scheme url u Hu Hp)) as (tr & b & Hrun & Hev & Hentry).
  unfold host_allowed in Hf. rewrite Hrun in Hf. cbn in Hf.
  injection Hf as ->.
  unfold handler. rewrite Hentry. cbn [out_main out_trace].
  split; [reflexivity|]. split.
  { rewrite count_app. cbn. rewrite Nat.add_0_r.
    unfold count. clear -Hev. induction tr as [|e tr IH]; [reflexivity|].
    cbn in *. apply andb_true_iff in Hev as [He Htr].
    destruct e as [w c|w c ok|w e| | | | | | |]; try discriminate;
      destruct c; try discriminate; cbn; auto. }
  split; [unfold events_of; now rewrite Hrun|]. split.
  { rewrite responses_app. cbn. rewrite (responses_dns tr Hev). reflexivity. }
  intros Hhe Hhl. apply String.eqb_neq in Hhe, Hhl.
  unfold events_of. rewrite run_isHostAllowed, Hu, Hhe, Hhl. reflexivity.
Qed.

(** C5: a request whose url does not parse, or parses with a scheme
    other than http and https, is answered 400 "Invalid URL" and nothing
    else happens: no DNS lookup, no browser. And for every request and
    schedule the trace is the part of the entry code, without any call to
    the browser, followed by a part without DNS events that is empty
    unless the host check ran to its end there and returned true. *)
Theorem safety_check_precedes_browser (env : nat -> Answer)
    (sched : list Choice) (req : Request) :
  (forall url,
     req_method req = "GET" ->
     query_first (query_url req) = Some url ->
     parseURL url = None
     \/ (exists u, parseURL url = Some u
                   /\ protocol u <> "http:" /\ protocol u <> "https:") ->
     handler isIP parseURL env sched req
     = mkOutcome [EvEffect Main (respond invalid_url)] initial_vars
         (MDone invalid_url))
  /\ (exists tr0 evs,
        out_trace (handler isIP parseURL env sched req) = tr0 ++ evs
        /\ count is_renderer_call tr0 = 0%nat
        /\ count is_dns_event evs = 0%nat
        /\ (evs <> [] ->
            exists url,
              query_first (query_url req) = Some url
              /\ run Main env initial_vars [] (isHostAllowed isIP parseURL url)
                 = (initial_vars, tr0, inl true))).
Proof.
  split.
  - intros url Hm Hq Hbad. unfold handler.
    rewrite run_entry_invalid; auto.
    intros url' E. rewrite Hq in E. injection E as <-.
    right. now apply invalid_scheme.
  - destruct (run_entry_cases isIP parseURL env req) as (tr & r & Hrun & Hc & Hr).
    unfold handler. rewrite Hrun. destruct r as [resp|[url debug]].
    + exists tr, []. cbn. rewrite app_nil_r. repeat split; auto.
      intros H. now elim H.
    + destruct Hr as (Hq & -> & Hhost).
      destruct (handler_race_safe tr url (query_is_true (query_debug req)) sched)
        as ((evs & E & Hevs) & _).
      exists tr, evs. cbn [out_trace]. repeat split; auto.
      * now apply Forall_no_dns_count.
      * intros _. exists url. auto.
Qed.

(** C8: the deadline is 20000 ms and the page timeouts are the deadline
    less 2000 ms: in every run, a navigation or action timeout
    installed on the page is 18000 ms and the timer of the race is armed
    with 20000 ms; and once the page is open, both page timeouts are
    installed, before the navigation starts. *)
Theorem page_timeouts_below_deadline (env : nat -> Answer)
    (sched : list Choice) (req : Request) :
  TIMEOUT = 20000
  /\ (forall who p ms,
        In (EvEffect who (setDefaultNavigationTimeout p ms))
           (out_trace (handler isIP parseURL env sched req))
        \/ In (EvEffect who (setDefaultTimeout p ms))
              (out_trace (handler isIP parseURL env sched req)) ->
        ms = 18000)
  /\ (forall ms,
        In (EvSetTimeout ms) (out_trace (handler isIP parseURL env sched req)) ->
        ms = 20000)
  /\ (forall tr0 url debug (a0 a1 a2 : Answer) b c p,
        a0 _ chromium_launch = Fulfilled b ->
        a1 _ (browser_newContext b DEFAULT_USER_AGENT) = Fulfilled c ->
        a2 _ (context_newPage c) = Fulfilled p ->
        m_trace (handler_steps debug [StepOp a0; StepOp a1; StepOp a2]
                   (handler_race tr0 url debug))
        = tr0 ++ [EvCall Op CLaunch; EvSetTimeout 20000;
                  EvSettle Op CLaunch true;
                  EvCall Op (CNewContext DEFAULT_USER_AGENT);
                  EvSettle Op (CNewContext DEFAULT_USER_AGENT) true;
                  EvCall Op CNewPage; EvSettle Op CNewPage true;
                  EvEffect Op (setDefaultNavigationTimeout p 18000);
                  EvEffect Op (setDefaultTimeout p 18000);
                  EvCall Op (CGoto url "networkidle")]).
Proof.
  assert (Hall : Forall timeouts_ok (out_trace (handler isIP parseURL env sched req))).
  { destruct (run_entry_cases isIP parseURL env req) as (tr & r & Hrun & Hc & Hr).
    assert (Htr : Forall timeouts_ok tr).
    { destruct r as [resp|[url debug]].
      - unfold handler_entry in Hrun.
        destruct (negb _).
        + apply (f_equal (fun x => snd (fst x))) in Hrun. cbn in Hrun.
               rewrite <- Hrun. repeat constructor.
        + destruct (query_first (query_url req)) as [url|].
          * destruct (_ || _).
            -- apply (f_equal (fun x => snd (fst x))) in Hrun. cbn in Hrun.
               rewrite <- Hrun. repeat constructor.
            -- rewrite run_bind in Hrun.
               destruct (isHostAllowed_returns isIP parseURL Main env
                           initial_vars [] url) as (tr' & b' & Hh).
               pose proof (isHostAllowed_events isIP parseURL env initial_vars url) as Hev.
               unfold events_of in Hev. rewrite Hh in *. cbn in Hev.
               assert (Forall timeouts_ok tr').
               { apply Forall_forall. intros e He.
                 rewrite forallb_forall in Hev. specialize (Hev e He).
                 destruct e; try discriminate; exact I. }
               destruct b'; cbn in Hrun;
                 apply (f_equal (fun x => snd (fst x))) in Hrun; cbn in Hrun;
                 rewrite <- Hrun; auto;
                 apply Forall_app; split; auto; repeat constructor.
          * apply (f_equal (fun x => snd (fst x))) in Hrun. cbn in Hrun.
               rewrite <- Hrun. repeat constructor.
      - destruct Hr as (_ & _ & Hh).
        pose proof (isHostAllowed_events isIP parseURL env initial_vars url) as Hev.
        unfold events_of in Hev. rewrite Hh in Hev. cbn in Hev.
        apply Forall_forall. intros e He.
        rewrite forallb_forall in Hev. specialize (Hev e He).
        destruct e; try discriminate; exact I. }
    unfold handler. rewrite Hrun. destruct r as [resp|[url debug]]; auto.
    destruct (handler_race_safe tr url debug sched) as ((evs & E & Hevs) & _).
    cbn [out_trace]. rewrite E. apply Forall_app. split; auto.
    eapply Forall_impl; [|exact Hevs]. now intros e [He _]. }
  rewrite Forall_forall in Hall.
  split; [reflexivity|]. split; [|split].
  - intros who p ms [H|H]; apply Hall in H; exact H.
  - intros ms H. apply Hall in H. exact H.
  - intros tr0 url debug a0 a1 a2 b c p H0 H1 H2.
    unfold handler_steps, handler_race, withTimeout, operation. cbn.
    rewrite H0. cbn. rewrite H1. cbn. rewrite H2. cbn.
    rewrite <- !app_assoc. reflexivity.
Qed.

End HandlerProperties.

(** ** The timeout *)

(** A run logs events of its own thread. *)
Lemma run_events {A : Type} (who : Thread) (p : Proc A) :
  forall env v, Forall (fun e => by_thread who e = true)
                  (snd (fst (run who env v [] p))).
Proof.
  induction p as [a|e|T c k IH|k IH|f k IH|e k IH]; intros env v; cbn; auto.
  - rewrite run_app. cbn.
    repeat (constructor; [cbn; apply thread_eqb_refl|]). apply IH.
  - rewrite run_app. cbn.
    constructor; [cbn; apply thread_eqb_refl|]. apply IH.
Qed.





(** When the deadline passes while [chromium.launch()] is still pending,
    [cleanup] finds no browser: 504 "Timeout" is answered without any call
    of [browser.close()], and the operation goes on to launch. *)
Lemma timeout_before_launch :
  let o := handler AddrText.isIP_ref Env.parseURL (fun _ => Env.yes)
             [Fire; StepOp Env.yes]
             (Env.get "https://example.com") in
  out_main o = MDone timed_out
  /\ count is_close_call (out_trace o) = 0%nat
  /\ out_vars o = mkVars (Some (mkBrowser 1)) false.
Proof. vm_compute. repeat split; reflexivity. Qed.


(** C2: the address fe90::1 lies in fe80::/10, and so is private by the
    ranges of the design document, yet [isPrivateIp] answers false for it:
    the test compares the text with the prefix fe80, which only the first
    64 of the 1024 leading groups of the range have. The test on the
    prefixes fc and fd errs the other way: fc::1 is outside fc00::/7 and
    [isPrivateIp] answers true. *)
Theorem link_local_prefix_missed (isIP : string -> Z) :
  isIP "fe90::1" = 6 ->
  isIP "fc::1" = 6 ->
  (AddrText.parse_ipv6 "fe90::1" = Some [0xfe90; 0; 0; 0; 0; 0; 0; 1]
   /\ Addr.in_cidr 128 (fst Addr.link_local_v6) (snd Addr.link_local_v6)
        (Addr.ipv6 [0xfe90; 0; 0; 0; 0; 0; 0; 1]) = true
   /\ Addr.in_private_range_v6 (Addr.ipv6 [0xfe90; 0; 0; 0; 0; 0; 0; 1]) = true
   /\ isPrivateIp isIP "fe90::1" = false)
  /\ (AddrText.parse_ipv6 "fc::1" = Some [0xfc; 0; 0; 0; 0; 0; 0; 1]
      /\ Addr.in_private_range_v6 (Addr.ipv6 [0xfc; 0; 0; 0; 0; 0; 0; 1]) = false
      /\ isPrivateIp isIP "fc::1" = true).
Proof.
  intros H1 H2. unfold isPrivateIp. rewrite H1, H2.
  repeat split; vm_compute; reflexivity.
Qed.

(** ** Counting the calls of the race *)

Lemma Bounded_mono {A : Type} (f : CallName -> bool) (p : Proc A) :
  forall n n', (n <= n')%nat -> Bounded f n p -> Bounded f n' p.
Proof.
  induction p as [a|e|T c k IH|k IH|g k IH|e k IH]; intros n n' Hn Hp;
    cbn in *; eauto.
  destruct (f (name_of c)); [|eauto].
  destruct n as [|n]; [contradiction|].
  destruct n' as [|n']; [lia|].
  intros r. apply (IH r n); [lia|apply Hp].
Qed.

Lemma Bounded_bind {A B : Type} (f : CallName -> bool) (p : Proc A)
    (g : A -> Proc B) :
  forall n m,
    Bounded f n p -> (forall a, Bounded f m (g a)) ->
    Bounded f (n + m) (bind p g).
Proof.
  induction p as [a|e|T c k IH|k IH|h k IH|e k IH]; intros n m Hp Hg;
    cbn in *; eauto.
  - apply Bounded_mono with (n := m); [lia|apply Hg].
  - destruct (f (name_of c)); [|eauto].
    destruct n as [|n]; [contradiction|]. cbn. eauto.
Qed.

Lemma Bounded_try_catch {A : Type} (f : CallName -> bool) (p : Proc A)
    (h : Js.Error -> Proc A) :
  forall n m,
    Bounded f n p -> (forall e, Bounded f m (h e)) ->
    Bounded f (n + m) (try_catch p h).
Proof.
  induction p as [a|e|T c k IH|k IH|g k IH|e k IH]; intros n m Hp Hh;
    cbn in *; eauto.
  - apply Bounded_mono with (n := m); [lia|apply Hh].
  - destruct (f (name_of c)); [|eauto].
    destruct n as [|n]; [contradiction|]. cbn. eauto.
Qed.

(** A task of code within budget [n] stays within it. *)
Lemma advance_bounded {A : Type} (f : CallName -> bool) (who : Thread)
    (p : Proc A) :
  forall n v,
    Bounded f n p ->
    exists n',
      (count (is_call_named f) (snd (fst (advance who v [] p))) + n' <= n)%nat
      /\ Resumable f n' (snd (advance who v [] p)).
Proof.
  induction p as [a|e|T c k IH|k IH|g k IH|e k IH]; intros n v Hp; cbn in *.
  - exists n. split; [unfold count; cbn; lia|exact I].
  - exists n. split; [unfold count; cbn; lia|exact I].
  - unfold count. cbn. destruct (f (name_of c)).
    + destruct n as [|n]; [contradiction|]. exists n. cbn. split; [lia|exact Hp].
    + exists n. cbn. split; [lia|exact Hp].
  - apply IH, Hp.
  - apply IH, Hp.
  - rewrite advance_app. cbn. destruct (IH n v Hp) as (n' & H1 & H2).
    exists n'. split; [exact H1|exact H2].
Qed.

Lemma advance_bounded0 {A : Type} (f : CallName -> bool) (who : Thread)
    (p : Proc A) (v : Vars) :
  Bounded f 0 p ->
  count (is_call_named f) (snd (fst (advance who v [] p))) = 0%nat
  /\ Resumable f 0 (snd (advance who v [] p)).
Proof.
  intros Hp. destruct (advance_bounded f who p 0 v Hp) as (n' & H1 & H2).
  assert (n' = 0%nat) as -> by lia. split; [lia|exact H2].
Qed.

Section RaceBound.

Context {T R : Type}.
Variable f : CallName -> bool.
Variable N : nat.
Variable onTimeout : option (Proc unit).
Variable on_value : T -> Proc R.
Variable on_throw : Js.Error -> Proc R.

Hypothesis B_onTimeout : forall cb, onTimeout = Some cb -> Bounded f 0 cb.
Hypothesis B_value : forall x, Bounded f 0 (on_value x).
Hypothesis B_throw : forall e, Bounded f 0 (on_throw e).

Lemma MBounded_make (tr0 evs : list Event) (n : nat) (v : Vars) (op : Proc T)
    (t : TimerState) (mn : MainState R) :
  (count (is_call_named f) evs + n <= N)%nat ->
  Resumable f n op ->
  (forall p, t = TRunning p -> Resumable f 0 p) ->
  (forall p, mn = MRun p -> Resumable f 0 p) ->
  MBounded f N tr0 (mkMachine v (tr0 ++ evs) op t mn).
Proof. intros. exists evs, n. cbn. auto. Qed.

Lemma main_state_resumable (p : Proc R) :
  Resumable f 0 p -> forall q, main_state p = MRun q -> Resumable f 0 q.
Proof. intros Hp q. destruct p; cbn; intros E; inversion E; subst; exact Hp. Qed.

Lemma MBounded_race_settled (tr0 : list Event) (m : Machine T R) (r : Settled T) :
  MBounded f N tr0 m -> MBounded f N tr0 (race_settled on_value on_throw m r).
Proof.
  destruct m as [v tr op t mn].
  intros (evs & n & E & Hn & Hop & Htm & Hmn). cbn in *. subst tr.
  unfold race_settled. cbn [m_main m_timer m_trace m_vars m_op].
  destruct mn as [|p0|r0|e0]; [|apply MBounded_make with (n := n); auto..].
  set (p := match r with Fulfilled x => on_value x | Rejected e => on_throw e end).
  assert (Hp : Bounded f 0 p) by (subst p; destruct r; auto).
  rewrite advance_app. cbn [fst snd].
  destruct (advance_bounded0 f Main p v Hp) as [H1 H2].
  rewrite <- !app_assoc. apply MBounded_make with (n := n); auto.
  - rewrite !count_app, H1. unfold count at 2. cbn. lia.
  - intros q Hq. destruct t; try discriminate; auto.
  - now apply main_state_resumable.
Qed.

Lemma MBounded_op_progress (tr0 : list Event) (m : Machine T R) :
  MBounded f N tr0 m -> MBounded f N tr0 (op_progress on_value on_throw m).
Proof.
  intros H. unfold op_progress.
  destruct (m_op m); auto using MBounded_race_settled.
Qed.

Lemma MBounded_timer_progress (tr0 evs : list Event) (n : nat) (v : Vars)
    (op : Proc T) (t : TimerState) (mn : MainState R) (p : Proc unit) :
  (count (is_call_named f) evs + n <= N)%nat ->
  Resumable f n op -> Resumable f 0 p ->
  (forall q, mn = MRun q -> Resumable f 0 q) ->
  MBounded f N tr0
    (timer_progress on_value on_throw (mkMachine v (tr0 ++ evs) op t mn) p).
Proof.
  intros Hn Hop Hp Hmn.
  assert (Hrej : MBounded f N tr0
            (reject_timeout on_value on_throw
               (mkMachine v ((tr0 ++ evs) ++ [EvOnTimeoutSettled]) op t mn))).
  { unfold reject_timeout. apply MBounded_race_settled. cbn.
    rewrite <- !app_assoc. apply MBounded_make with (n := n); auto;
      [|discriminate].
    rewrite count_app. unfold count at 2. cbn. lia. }
  destruct p; cbn [timer_progress m_vars m_trace m_op m_timer m_main]; auto;
    apply MBounded_make with (n := n); auto;
    intros q Hq; injection Hq as <-; exact Hp.
Qed.

Lemma step_MBounded (tr0 : list Event) (ch : Choice) (m : Machine T R) :
  MBounded f N tr0 m -> MBounded f N tr0 (step onTimeout on_value on_throw ch m).
Proof.
  intros Hm. pose proof Hm as Hm0.
  destruct m as [v tr op t mn].
  destruct Hm as (evs & n & E & Hn & Hop & Htm & Hmn). cbn in *. subst tr.
  destruct ch as [a| |a|a]; cbn [step m_vars m_trace m_op m_timer m_main].
  - destruct op as [x|e|U c k|k|g k|e k]; auto.
    rewrite advance_app. cbn [fst snd].
    destruct (advance_bounded f Op (k (a U c)) n v (Hop _)) as (n' & H1 & H2).
    apply MBounded_op_progress. rewrite <- !app_assoc.
    apply MBounded_make with (n := n'); auto.
    rewrite !count_app. unfold count at 2. cbn. lia.
  - destruct t; auto.
    destruct onTimeout as [cb|] eqn:Ecb.
    + rewrite advance_app. cbn [fst snd].
      destruct (advance_bounded0 f Timer cb v (B_onTimeout cb eq_refl)) as [H1 H2].
      rewrite <- !app_assoc. apply MBounded_timer_progress with (n := n); auto.
      rewrite !count_app, H1. unfold count at 2. cbn. lia.
    + unfold reject_timeout. apply MBounded_race_settled. cbn.
      rewrite <- !app_assoc. apply MBounded_make with (n := n); auto;
        [|discriminate].
      rewrite count_app. unfold count at 2. cbn. lia.
  - destruct t as [|p| |]; auto.
    destruct p as [x|e|U c k|k|g k|e k]; auto.
    specialize (Htm _ eq_refl). cbn in Htm.
    rewrite advance_app. cbn [fst snd].
    destruct (advance_bounded0 f Timer (k (a U c)) v (Htm _)) as [H1 H2].
    rewrite <- !app_assoc. apply MBounded_timer_progress with (n := n); auto.
    rewrite !count_app, H1. unfold count at 2. cbn. lia.
  - destruct mn as [|p|r|e]; auto.
    destruct p as [x|e|U c k|k|g k|e k]; auto.
    specialize (Hmn _ eq_refl). cbn in Hmn.
    rewrite advance_app. cbn [fst snd].
    destruct (advance_bounded0 f Main (k (a U c)) v (Hmn _)) as [H1 H2].
    rewrite <- !app_assoc. apply MBounded_make with (n := n); auto.
    + rewrite !count_app, H1. unfold count at 2. cbn. lia.
    + now apply main_state_resumable.
Qed.

Lemma steps_MBounded (tr0 : list Event) (sched : list Choice) (m : Machine T R) :
  MBounded f N tr0 m ->
  MBounded f N tr0 (steps onTimeout on_value on_throw sched m).
Proof.
  revert m. induction sched as [|ch sched IH]; intros m H; cbn; [exact H|].
  apply IH, step_MBounded, H.
Qed.

Lemma withTimeout_MBounded (v : Vars) (tr0 : list Event) (op : Proc T) (ms : Z) :
  Bounded f N op ->
  MBounded f N tr0 (withTimeout on_value on_throw v tr0 op ms).
Proof.
  intros Hop. unfold withTimeout. rewrite advance_app. cbn [fst snd].
  destruct (advance_bounded f Op op N v Hop) as (n' & H1 & H2).
  apply MBounded_op_progress. rewrite <- !app_assoc.
  apply MBounded_make with (n := n'); auto; try discriminate.
  rewrite count_app. unfold count at 2. cbn. lia.
Qed.

End RaceBound.

(** The handler calls [page.goto] in the navigation loop only. *)
Lemma Bounded_cleanup : Bounded is_goto_name 0 cleanup.
Proof.
  unfold cleanup. apply (Bounded_try_catch is_goto_name _ _ 0 0); [|now cbn].
  cbn. intros v. destruct (pageClosed v), (browser v); cbn; auto.
  intros [x|e]; exact I.
Qed.

Lemma Bounded_send (code : Z) (body : Body) :
  Bounded is_goto_name 0 (send code body).
Proof. exact I. Qed.

Lemma Bounded_handler_catch (debug : bool) (e : Js.Error) :
  Bounded is_goto_name 0 (handler_catch debug e).
Proof.
  unfold handler_catch. cbn [Bounded].
  destruct (_ || _); [|destruct (String.eqb _ _)];
    (apply (Bounded_bind is_goto_name _ _ 0 0); [apply Bounded_cleanup|intros _]);
    try destruct debug; apply Bounded_send.
Qed.

Lemma Bounded_navigate (page : Page) (url : string) :
  Bounded is_goto_name 2 (navigate page url).
Proof.
  unfold navigate. cbn. intros [x|e]; cbn; [exact I|].
  intros _ [x|e']; exact I.
Qed.

Lemma Bounded_await {T : Type} (f : CallName -> bool) (c : Call T) :
  f (name_of c) = false -> Bounded f 0 (await c).
Proof. intros H. cbn. rewrite H. now intros [x|e]. Qed.

Lemma Bounded_operation (url : string) (debug : bool) :
  Bounded is_goto_name 2 (operation url debug).
Proof.
  unfold operation.
  apply (Bounded_bind is_goto_name _ _ 0 2); [now apply Bounded_await|].
  intros b. cbn [Bounded].
  apply (Bounded_bind is_goto_name _ _ 0 2); [now apply Bounded_await|].
  intros c.
  apply (Bounded_bind is_goto_name _ _ 0 2); [now apply Bounded_await|].
  intros p. cbn [Bounded].
  apply (Bounded_bind is_goto_name _ _ 2 0); [apply Bounded_navigate|].
  intros _. destruct debug.
  - apply (Bounded_bind is_goto_name _ _ 0 0); [now apply Bounded_await|].
    intros html.
    apply (Bounded_bind is_goto_name _ _ 0 0); [apply Bounded_cleanup|now cbn].
  - apply (Bounded_bind is_goto_name _ _ 0 0); [now apply Bounded_await|].
    intros d. destruct (extract d) as [[t m] h1].
    apply (Bounded_bind is_goto_name _ _ 0 0); [apply Bounded_cleanup|now cbn].
Qed.

Lemma handler_race_gotos (tr0 : list Event) (url : string) (debug : bool)
    (sched : list Choice) :
  MBounded is_goto_name 2 tr0
    (handler_steps debug sched (handler_race tr0 url debug)).
Proof.
  unfold handler_steps, handler_race. apply steps_MBounded.
  - intros cb E. injection E as <-. apply Bounded_cleanup.
  - intros x. apply Bounded_send.
  - apply Bounded_handler_catch.
  - apply withTimeout_MBounded.
    + intros x. apply Bounded_send.
    + apply Bounded_handler_catch.
    + apply Bounded_operation.
Qed.

Lemma count_le (f g : Event -> bool) (l : list Event) :
  (forall e, f e = true -> g e = true) -> (count f l <= count g l)%nat.
Proof.
  intros Hfg. unfold count. induction l as [|e l IH]; cbn; [lia|].
  destruct (f e) eqn:Ef; [rewrite (Hfg e Ef); cbn; lia|].
  destruct (g e); cbn; lia.
Qed.

Lemma goto_is_renderer_call (e : Event) :
  is_goto_call e = true -> is_renderer_call e = true.
Proof. destruct e as [w c|w c ok|w e| | | | | | |]; try discriminate. now destruct c. Qed.

(** One task of the operation, the machine written out. *)
Lemma step_op_await {T R U : Type} (onTimeout : option (Proc unit))
    (on_value : T -> Proc R) (on_throw : Js.Error -> Proc R) (a : Answer)
    (v : Vars) (tr : list Event) (c : Call U) (k : Settled U -> Proc T)
    (t : TimerState) (mn : MainState R) :
  step onTimeout on_value on_throw (StepOp a) (mkMachine v tr (Await c k) t mn)
  = op_progress on_value on_throw
      (mkMachine
         (fst (fst (advance Op v (tr ++ [EvSettle Op (name_of c) (fulfilled (a U c))])
                      (k (a U c)))))
         (snd (fst (advance Op v (tr ++ [EvSettle Op (name_of c) (fulfilled (a U c))])
                      (k (a U c)))))
         (snd (advance Op v (tr ++ [EvSettle Op (name_of c) (fulfilled (a U c))])
                 (k (a U c))))
         t mn).
Proof.
  cbn [step m_op m_vars m_trace m_timer m_main].
  now destruct (advance Op v _ (k (a U c))) as [[v' tr'] p'].
Qed.

(** One task of the main code, the machine written out. *)
Lemma step_main_await {T R U : Type} (onTimeout : option (Proc unit))
    (on_value : T -> Proc R) (on_throw : Js.Error -> Proc R) (a : Answer)
    (v : Vars) (tr : list Event) (op : Proc T) (c : Call U)
    (k : Settled U -> Proc R) (t : TimerState) :
  step onTimeout on_value on_throw (StepMain a)
    (mkMachine v tr op t (MRun (Await c k)))
  = mkMachine
      (fst (fst (advance Main v (tr ++ [EvSettle Main (name_of c) (fulfilled (a U c))])
                   (k (a U c)))))
      (snd (fst (advance Main v (tr ++ [EvSettle Main (name_of c) (fulfilled (a U c))])
                   (k (a U c)))))
      op t
      (main_state
         (snd (advance Main v (tr ++ [EvSettle Main (name_of c) (fulfilled (a U c))])
                 (k (a U c))))).
Proof.
  cbn [step m_op m_vars m_trace m_timer m_main].
  now destruct (advance Main v _ (k (a U c))) as [[v' tr'] p'].
Qed.

(** C6: the navigation loop calls [page.goto] at most twice, and so does
    every run of the handler; when the first attempt rejects it waits the
    250 ms backoff and tries exactly once more; the operation returns the
    same result and leaves the same variables whether the navigation
    succeeds at once or on the retry, and the handler then answers the
    same 200 response; and when the second attempt rejects too, its error
    is thrown by the loop and by the operation, and the handler answers
    500, with the message of that error as details in debug mode. *)
Theorem navigation_retries_once (page : Page) (url : string) (who : Thread)
    (env : nat -> Answer) (v : Vars) (tr : list Event) :
  let goto := page_goto page url "networkidle" in
  (exists evs r,
     run who env v tr (navigate page url) = (v, tr ++ evs, r)
     /\ (count is_goto_call evs <= 2)%nat
     /\ (fulfilled (env O _ goto) = true ->
         evs = awaited who goto (env O _ goto) /\ r = inl tt)
     /\ (fulfilled (env O _ goto) = false ->
         evs = awaited who goto (env O _ goto)
               ++ awaited who (delay 250) (env 1%nat _ (delay 250))
               ++ awaited who goto (env 2%nat _ goto)
         /\ count is_goto_call evs = 2%nat
         /\ r = match env 2%nat _ goto with
                | Fulfilled _ => inl tt
                | Rejected e2 => inr e2
                end))
  /\ (forall (env0 : nat -> Answer) (rejected backoff : Answer) (debug : bool)
             (e : Js.Error),
        (forall p, env0 3%nat _ (page_goto p url "networkidle") = Fulfilled tt) ->
        (forall p, rejected _ (page_goto p url "networkidle") = Rejected e) ->
        let r1 := run Op env0 initial_vars [] (operation url debug) in
        let r2 := run Op (with_retry env0 rejected backoff) initial_vars []
                    (operation url debug) in
        fst (fst r1) = fst (fst r2) /\ snd r1 = snd r2)
  /\ (forall (env0 : nat -> Answer) (debug : bool) b c p e1 e2,
        env0 0%nat _ chromium_launch = Fulfilled b ->
        env0 1%nat _ (browser_newContext b DEFAULT_USER_AGENT) = Fulfilled c ->
        env0 2%nat _ (context_newPage c) = Fulfilled p ->
        env0 3%nat _ (page_goto p url "networkidle") = Rejected e1 ->
        env0 5%nat _ (page_goto p url "networkidle") = Rejected e2 ->
        snd (run Op env0 initial_vars [] (operation url debug)) = inr e2)
  /\ (forall isIP parseURL (env0 : nat -> Answer) (sched : list Choice)
             (req : Request),
        (count is_goto_call (out_trace (handler isIP parseURL env0 sched req))
         <= 2)%nat)
  /\ (forall (debug : bool) (tr0 : list Event)
             (a0 a1 a2 a3 a4 a5 rejected backoff : Answer) (e : Js.Error)
             b c p html d,
        a0 _ chromium_launch = Fulfilled b ->
        a1 _ (browser_newContext b DEFAULT_USER_AGENT) = Fulfilled c ->
        a2 _ (context_newPage c) = Fulfilled p ->
        a3 _ (page_goto p url "networkidle") = Fulfilled tt ->
        rejected _ (page_goto p url "networkidle") = Rejected e ->
        a4 _ (page_content p) = Fulfilled html ->
        a4 _ (page_evaluate p) = Fulfilled d ->
        a5 _ (browser_close b) = Fulfilled tt ->
        let m1 := handler_steps debug
                    (map StepOp [a0; a1; a2; a3; a4; a5])
                    (handler_race tr0 url debug) in
        let m2 := handler_steps debug
                    (map StepOp [a0; a1; a2; rejected; backoff; a3; a4; a5])
                    (handler_race tr0 url debug) in
        let body := if debug then DebugSuccess html 200
                    else let '(title, metaDescription, h1) := extract d in
                         SuccessResponse title metaDescription h1 200 in
        m_main m1 = MDone (mkResponse 200 body)
        /\ m_main m2 = MDone (mkResponse 200 body)
        /\ m_vars m1 = m_vars m2)
  /\ (forall (debug : bool) (tr0 : list Event)
             (a0 a1 a2 first backoff second closing : Answer)
             (e1 e2 : Js.Error) b c p,
        a0 _ chromium_launch = Fulfilled b ->
        a1 _ (browser_newContext b DEFAULT_USER_AGENT) = Fulfilled c ->
        a2 _ (context_newPage c) = Fulfilled p ->
        first _ (page_goto p url "networkidle") = Rejected e1 ->
        second _ (page_goto p url "networkidle") = Rejected e2 ->
        closing _ (browser_close b) = Fulfilled tt ->
        Js.includes (Js.message e2) "Executable doesn't exist" = false ->
        Js.includes (Js.message e2) "download new browsers" = false ->
        String.eqb (Js.message e2) "Timeout" = false ->
        let m := handler_steps debug
                   [StepOp a0; StepOp a1; StepOp a2; StepOp first;
                    StepOp backoff; StepOp second; StepMain closing]
                   (handler_race tr0 url debug) in
        m_main m
        = MDone (mkResponse 500
                   (ErrorResponse "Failed to scrape page"
                      (if debug then Some (Js.message e2) else None)))
        /\ pageClosed (m_vars m) = true).
Proof.
  intros goto. split; [|split; [|split; [|split; [|split]]]].
  - rewrite run_navigate. cbn zeta. fold goto.
    destruct (env O unit goto) as [[]|e1] eqn:E0.
    + eexists _, _. split; [reflexivity|]. cbn.
      split; [lia|]. split; [auto|discriminate].
    + eexists _, _. split; [reflexivity|]. cbn.
      split; [lia|]. split; [discriminate|]. intros _. auto.
  - intros env0 rejected backoff debug e Hok Hrej r1 r2. subst r1 r2.
    unfold operation. cbn.
    destruct (env0 0%nat Browser chromium_launch) as [b|e0]; cbn; [|auto].
    destruct (env0 1%nat BrowserContext (browser_newContext b DEFAULT_USER_AGENT))
      as [c|e0]; cbn; [|auto].
    destruct (env0 2%nat Page (context_newPage c)) as [p|e0]; cbn; [|auto].
    rewrite Hok, Hrej. cbn. rewrite Hok. cbn.
    destruct debug; cbn.
    + destruct (env0 4%nat string (page_content p)) as [html|e0]; cbn; [|auto].
      destruct (env0 5%nat unit (browser_close b)) as [[]|e0]; cbn; auto.
    + destruct (env0 4%nat Document (page_evaluate p)) as [d|e0]; cbn; [|auto].
      destruct (extract d) as [[t m] h1]. cbn.
      destruct (env0 5%nat unit (browser_close b)) as [[]|e0]; cbn; auto.
  - intros env0 debug b c p e1 e2 H0 H1 H2 H3 H5.
    unfold operation. cbn. rewrite H0. cbn. rewrite H1. cbn. rewrite H2. cbn.
    rewrite H3. cbn. rewrite H5. cbn. reflexivity.
  - intros isIP parseURL env0 sched req.
    destruct (run_entry_cases isIP parseURL env0 req) as (tr1 & r & Hrun & Hc & _).
    assert (Hg : count is_goto_call tr1 = 0%nat).
    { pose proof (count_le is_goto_call is_renderer_call tr1 goto_is_renderer_call).
      lia. }
    unfold handler. rewrite Hrun. destruct r as [resp|[url' debug]];
      cbn [out_trace]; [lia|].
    destruct (handler_race_gotos tr1 url' debug sched)
      as (evs & n & E & Hn & _).
    rewrite E, count_app. fold is_goto_call in Hn. lia.
  - intros debug tr0 a0 a1 a2 a3 a4 a5 rejected backoff e b c p html d
      H0 H1 H2 H3 Hr H4c H4e H5.
    unfold handler_steps, steps, handler_race, withTimeout.
    cbn [map fold_left].
    destruct debug; cbn -[step];
      repeat (rewrite step_op_await;
              rewrite ?H0, ?H1, ?H2, ?H3, ?Hr, ?H4c, ?H4e, ?H5;
              cbn -[step]);
      try destruct (extract d) as [[t m] h1]; auto.
  - intros debug tr0 a0 a1 a2 first backoff second closing e1 e2 b c p
      H0 H1 H2 Hf Hs Hc Hi1 Hi2 Ht.
    unfold handler_steps, steps, handler_race, withTimeout.
    cbn [map fold_left]. cbn -[step].
    repeat (rewrite step_op_await; rewrite ?H0, ?H1, ?H2, ?Hf, ?Hs;
            cbn -[step Js.includes String.eqb]).
    rewrite Hi1, Hi2, Ht. cbn -[step].
    rewrite step_main_await, Hc.
    destruct debug; cbn; auto.
Qed.

(** ** The reference classifier and the scenarios of the design document *)

Lemma octet_parse_ok_all : forallb octet_parse_ok octets = true.
Proof. vm_compute. reflexivity. Qed.

(** The reference classifier answers 4 on every dotted-decimal text. *)
Lemma isIP_ref_ipv4 (a b c d : Z) :
  Addr.octet a -> Addr.octet b -> Addr.octet c -> Addr.octet d ->
  AddrText.isIP_ref (Addr.ipv4_to_string a b c d) = 4.
Proof.
  intros Ha Hb Hc Hd.
  assert (Hp : forall x, Addr.octet x ->
            AddrText.parse_octet (Addr.octet_to_string x) = Some x).
  { intros x Hx. pose proof octet_parse_ok_all as Hall.
    rewrite forallb_forall in Hall.
    specialize (Hall x (octets_complete x Hx)). unfold octet_parse_ok in Hall.
    destruct (AddrText.parse_octet (Addr.octet_to_string x)); [|discriminate].
    apply Z.eqb_eq in Hall. now subst. }
  unfold AddrText.isIP_ref, AddrText.parse_ipv4, Addr.ipv4_to_string.
  destruct (octet_text a Ha) as [Da _], (octet_text b Hb) as [Db _],
    (octet_text c Hc) as [Dc _], (octet_text d Hd) as [Dd _].
  cbn [append].
  rewrite (split_app "." (Addr.octet_to_string a)) by assumption.
  rewrite (split_app "." (Addr.octet_to_string b)) by assumption.
  rewrite (split_app "." (Addr.octet_to_string c)) by assumption.
  rewrite split_without_sep by assumption.
  cbn [map]. now rewrite !Hp.
Qed.

(** A page with a title, a description and a heading is summarised. *)
Example fetch_summary :
  out_main (handler AddrText.isIP_ref Env.parseURL (fun _ => Env.yes)
              (map StepOp [Env.yes; Env.yes; Env.yes; Env.yes; Env.yes; Env.yes])
              (Env.get "https://example.com"))
  = MDone (mkResponse 200 (SuccessResponse (Some "A") (Some "B") (Some "C") 200)).
Proof. vm_compute. reflexivity. Qed.

(** The address of the metadata service is a disallowed host. *)
Example fetch_metadata_service :
  out_main (handler AddrText.isIP_ref Env.parseURL
              (fun _ => Env.ok [mkLookupAddress "169.254.169.254" 4]
                          EmptyString Env.empty_doc)
              [] (Env.get "http://169.254.169.254/"))
  = MDone disallowed_host.
Proof. vm_compute. reflexivity. Qed.

Example fetch_not_a_url :
  out_main (handler AddrText.isIP_ref Env.parseURL (fun _ => Env.yes) []
              (Env.get "not a url"))
  = MDone invalid_url.
Proof. vm_compute. reflexivity. Qed.

(** ** The theorems at concrete inputs *)

(** example.com resolving to a public and a private address is rejected. *)
Lemma host_check_rejects_private_witness :
  let addrs := [mkLookupAddress "93.184.216.34" 4; mkLookupAddress "10.0.0.1" 4] in
  let env := fun _ : nat => Env.ok addrs "<html></html>" Env.empty_doc in
  (Env.parseURL "http://example.com" = Some (mkURL "http:" "example.com")
   /\ env O _ (dns_lookup "example.com") = Fulfilled addrs
   /\ addrs <> [])
  /\ host_allowed AddrText.isIP_ref Env.parseURL env "http://example.com"
     = inl false.
Proof.
  intros addrs env. split.
  - repeat split. discriminate.
  - refine (proj1 (proj1 (host_check_rejects_private AddrText.isIP_ref
                            Env.parseURL env "http://example.com"
                            (mkURL "http:" "example.com") addrs
                            eq_refl eq_refl _) _)).
    + discriminate.
    + exists (mkLookupAddress "10.0.0.1" 4). split.
      * right. left. reflexivity.
      * vm_compute. reflexivity.
Defined.

(** example.com resolving to a public address and to fe90::1 is let
    through. *)
Lemma host_check_admits_link_local_witness :
  let addrs := [mkLookupAddress "93.184.216.34" 4; mkLookupAddress "fe90::1" 6] in
  let env := fun _ : nat => Env.ok addrs "<html></html>" Env.empty_doc in
  (AddrText.isIP_ref "93.184.216.34" = 4 /\ AddrText.isIP_ref "fe90::1" = 6
   /\ Env.parseURL "https://example.com" = Some (mkURL "https:" "example.com"))
  /\ Addr.in_private_range_v6 (Addr.ipv6 [0xfe90; 0; 0; 0; 0; 0; 0; 1]) = true
  /\ host_allowed AddrText.isIP_ref Env.parseURL env "https://example.com"
     = inl true
  /\ count is_launch_call
       (out_trace (handler AddrText.isIP_ref Env.parseURL env []
                     (Env.get "https://example.com")))
     = 1%nat.
Proof.
  intros addrs env. split; [repeat split; vm_compute; reflexivity|].
  destruct (host_check_admits_link_local AddrText.isIP_ref Env.parseURL env
              "https://example.com" (mkURL "https:" "example.com"))
    as ((_ & H1) & H2 & H3); try (vm_compute; reflexivity); try discriminate.
  split; [exact H1|]. split; [exact H2|].
  apply (H3 (Env.get "https://example.com")); try reflexivity;
    [discriminate|right; reflexivity].
Defined.

Lemma localhost_rejected_without_lookup_witness :
  (Env.parseURL "http://localhost" = Some (mkURL "http:" "localhost")
   /\ hostname (mkURL "http:" "localhost") = "localhost")
  /\ run Main (fun _ => Env.yes) initial_vars []
       (isHostAllowed AddrText.isIP_ref Env.parseURL "http://localhost")
     = (initial_vars, [], inl false).
Proof.
  split.
  - split; reflexivity.
  - apply (proj1 (localhost_rejected_without_lookup AddrText.isIP_ref
                    Env.parseURL Main (fun _ => Env.yes) initial_vars []
                    "http://localhost" (mkURL "http:" "localhost")
                    eq_refl eq_refl)).
Defined.

Lemma link_local_prefix_missed_witness :
  (AddrText.isIP_ref "fe90::1" = 6 /\ AddrText.isIP_ref "fc::1" = 6)
  /\ isPrivateIp AddrText.isIP_ref "fe90::1" = false
  /\ isPrivateIp AddrText.isIP_ref "fc::1" = true.
Proof.
  split.
  - split; vm_compute; reflexivity.
  - destruct (link_local_prefix_missed AddrText.isIP_ref) as [H1 H2];
      [vm_compute; reflexivity|vm_compute; reflexivity|].
    split; [apply H1|apply H2].
Defined.

Lemma dns_failure_fails_closed_witness :
  let env := fun _ : nat => Env.fail "getaddrinfo ENOTFOUND" in
  let req := Env.get "http://nxdomain.example" in
  handler AddrText.isIP_ref Env.parseURL env [StepOp Env.yes; Fire] req
  = mkOutcome
      [EvCall Main (CDnsLookup "nxdomain.example");
       EvSettle Main (CDnsLookup "nxdomain.example") false;
       EvEffect Main (respond disallowed_host)]
      initial_vars (MDone disallowed_host).
Proof.
  intros env req.
  refine (proj1 (proj2 (proj2 (proj2
            (dns_failure_fails_closed AddrText.isIP_ref Env.parseURL
               env [StepOp Env.yes; Fire] req "http://nxdomain.example"
               (mkURL "http:" "nxdomain.example")
               eq_refl eq_refl _ eq_refl _ _))))).
  - discriminate.
  - left. reflexivity.
  - left. exists (Js.mkError "getaddrinfo ENOTFOUND"). reflexivity.
Defined.

Lemma safety_check_precedes_browser_witness :
  handler AddrText.isIP_ref Env.parseURL (fun _ => Env.yes)
    [StepOp Env.yes; Fire] (Env.get "ftp://example.com")
  = mkOutcome [EvEffect Main (respond invalid_url)] initial_vars
      (MDone invalid_url).
Proof.
  refine (proj1 (safety_check_precedes_browser AddrText.isIP_ref Env.parseURL
                   (fun _ => Env.yes) [StepOp Env.yes; Fire]
                   (Env.get "ftp://example.com"))
            "ftp://example.com" eq_refl eq_refl _).
  right. exists (mkURL "ftp:" "example.com").
  split; [reflexivity|]. split; discriminate.
Defined.

Lemma navigation_retries_once_witness :
  let env := Env.script [Env.yes; Env.yes; Env.yes; Env.fail "net::ERR_FAILED";
                         Env.yes; Env.fail "net::ERR_TIMED_OUT"] Env.yes in
  snd (run Op env initial_vars [] (operation "https://example.com" false))
  = inr (Js.mkError "net::ERR_TIMED_OUT").
Proof.
  intros env.
  refine (proj1 (proj2 (proj2 (navigation_retries_once (mkPage 1)
                                 "https://example.com" Op env initial_vars [])))
            env false (mkBrowser 1) (mkContext 1) (mkPage 1)
            (Js.mkError "net::ERR_FAILED") (Js.mkError "net::ERR_TIMED_OUT")
            eq_refl eq_refl eq_refl eq_refl eq_refl).
Defined.

Lemma page_timeouts_below_deadline_witness :
  In (EvEffect Op (setDefaultNavigationTimeout (mkPage 1) 18000))
     (m_trace (handler_steps false [StepOp Env.yes; StepOp Env.yes; StepOp Env.yes]
                 (handler_race [] "https://example.com" false))).
Proof.
  rewrite (proj2 (proj2 (proj2
             (page_timeouts_below_deadline AddrText.isIP_ref Env.parseURL
                (fun _ => Env.yes) [] (Env.get "https://example.com"))))
             [] "https://example.com" false Env.yes Env.yes Env.yes
             (mkBrowser 1) (mkContext 1) (mkPage 1) eq_refl eq_refl eq_refl).
  cbn. tauto.
Defined.


Lemma cleanup_never_throws_witness :
  let v := mkVars (Some (mkBrowser 1)) false in
  exists v' evs,
    run Main (fun _ => Env.fail "close failed") v [] cleanup = (v', evs, inl tt)
    /\ pageClosed v' = false.
Proof.
  intros v.
  destruct (cleanup_never_throws Main (fun _ => Env.fail "close failed") v [])
    as (v' & evs & Hrun & _ & _ & _ & Hfail & _).
  exists v', evs. split; [exact Hrun|].
  apply (Hfail (mkBrowser 1) (Js.mkError "close failed")); reflexivity.
Defined.


(** * Further properties of the endpoint *)

(** ** Requests the handler turns away at once *)

Section EarlyAnswers.

Variable isIP : string -> Z.
Variable parseURL : string -> option URL.

(** A request with a method other than GET is answered 405 with the
    [Allow: GET] header, whatever its query: no URL is parsed, no lookup
    made, no browser launched. *)
Theorem non_get_rejected (env : nat -> Answer) (sched : list Choice)
    (req : Request) :
  req_method req <> "GET" ->
  handler isIP parseURL env sched req
  = mkOutcome [EvEffect Main (setHeader "Allow" "GET");
               EvEffect Main (respond method_not_allowed)]
      initial_vars (MDone method_not_allowed).
Proof.
  intros Hm. apply String.eqb_neq in Hm.
  unfold handler, handler_entry. rewrite Hm. reflexivity.
Qed.

(** A GET request without a url parameter, with an empty array or with an
    empty first value is answered 400 "Invalid URL" before the URL reader
    is asked, so also when that reader would accept the empty string. *)
Theorem missing_url_rejected (env : nat -> Answer) (sched : list Choice)
    (req : Request) :
  req_method req = "GET" ->
  query_first (query_url req) = None
  \/ query_first (query_url req) = Some EmptyString ->
  handler isIP parseURL env sched req
  = mkOutcome [EvEffect Main (respond invalid_url)] initial_vars
      (MDone invalid_url).
Proof.
  intros Hm Hq. unfold handler.
  rewrite run_entry_invalid; [reflexivity|exact Hm|].
  intros url E. destruct Hq as [Hq|Hq]; rewrite Hq in E; [discriminate|].
  injection E as <-. auto.
Qed.

End EarlyAnswers.

(** ** The host check, exactly *)

Section HostCheckExact.

Variable isIP : string -> Z.
Variable parseURL : string -> option URL.

(** When [isHostAllowed] returns true. *)
Lemma host_allowed_true_iff (env : nat -> Answer) (urlString : string) :
  host_allowed isIP parseURL env urlString = inl true <->
  exists u addrs,
    parseURL urlString = Some u
    /\ hostname u <> EmptyString
    /\ hostname u <> "localhost"
    /\ env O _ (dns_lookup (hostname u)) = Fulfilled addrs
    /\ addrs <> []
    /\ forall a, In a addrs ->
         address a <> EmptyString /\ isPrivateIp isIP (address a) = false.
Proof.
  unfold host_allowed. rewrite run_isHostAllowed.
  destruct (parseURL urlString) as [u|] eqn:Hu.
  - destruct (String.eqb (hostname u) EmptyString) eqn:He; cbn [orb].
    + cbn. split; [discriminate|].
      intros (u' & addrs & Hu' & Hne & _). injection Hu' as <-.
      apply String.eqb_eq in He. contradiction.
    + destruct (String.eqb (hostname u) "localhost") eqn:Hl.
      * cbn. split; [discriminate|].
        intros (u' & addrs & Hu' & _ & Hnl & _). injection Hu' as <-.
        apply String.eqb_eq in Hl. contradiction.
      * cbn zeta. cbn [snd].
        apply String.eqb_neq in He, Hl.
        destruct (env O (list LookupAddress) (dns_lookup (hostname u)))
          as [addrs|e] eqn:Hd.
        -- split.
           ++ intros H. injection H as H.
              apply andb_true_iff in H as [Hlen Hall].
              rewrite forallb_forall in Hall.
              exists u, addrs. repeat split; auto.
              ** intros ->. discriminate.
              ** specialize (Hall a H).
                 unfold passes in Hall. apply andb_true_iff in Hall as [Ha _].
                 apply negb_true_iff in Ha. now apply String.eqb_neq.
              ** specialize (Hall a H).
                 unfold passes in Hall. apply andb_true_iff in Hall as [_ Ha].
                 now apply negb_true_iff in Ha.
           ++ intros (u' & addrs' & Hu' & _ & _ & Hd' & Hne & Hall).
              injection Hu' as <-. rewrite Hd in Hd'. injection Hd' as <-.
              f_equal. apply andb_true_iff. split.
              ** destruct addrs; [contradiction|reflexivity].
              ** apply forallb_forall. intros a Ha.
                 destruct (Hall a Ha) as [H1 H2]. unfold passes.
                 apply String.eqb_neq in H1. now rewrite H1, H2.
        -- split; [discriminate|].
           intros (u' & addrs' & Hu' & _ & _ & Hd' & _).
           injection Hu' as <-. rewrite Hd in Hd'. discriminate.
  - cbn. split; [discriminate|].
    intros (u & addrs & Hu' & _). discriminate.
Qed.

(** [isHostAllowed] never throws and always returns a boolean; it returns
    true exactly when the URL parses, its hostname is neither empty nor
    localhost, the lookup fulfils with at least one address, and every
    address is a non-empty text that [isPrivateIp] does not flag. *)
Theorem host_check_exact (env : nat -> Answer) (urlString : string) :
  (host_allowed isIP parseURL env urlString = inl true
   \/ host_allowed isIP parseURL env urlString = inl false)
  /\ (host_allowed isIP parseURL env urlString = inl true <->
      exists u addrs,
        parseURL urlString = Some u
        /\ hostname u <> EmptyString
        /\ hostname u <> "localhost"
        /\ env O _ (dns_lookup (hostname u)) = Fulfilled addrs
        /\ addrs <> []
        /\ forall a, In a addrs ->
             address a <> EmptyString /\ isPrivateIp isIP (address a) = false).
Proof.
  split; [|apply host_allowed_true_iff].
  unfold host_allowed.
  destruct (isHostAllowed_returns isIP parseURL Main env initial_vars []
              urlString) as (tr & b & ->).
  destruct b; auto.
Qed.

(** The host check leaves the shared variables alone and its only call
    is one [dns.lookup] of the parsed hostname; it makes no call at all
    when the URL does not parse or the hostname is empty or localhost. *)
Theorem host_check_single_lookup (who : Thread) (env : nat -> Answer)
    (v : Vars) (urlString : string) :
  fst (fst (run who env v [] (isHostAllowed isIP parseURL urlString))) = v
  /\ (events_of who env v (isHostAllowed isIP parseURL urlString) = []
      \/ exists u,
           parseURL urlString = Some u
           /\ hostname u <> EmptyString /\ hostname u <> "localhost"
           /\ events_of who env v (isHostAllowed isIP parseURL urlString)
              = awaited who (dns_lookup (hostname u))
                  (env O _ (dns_lookup (hostname u)))).
Proof.
  unfold events_of. rewrite run_isHostAllowed.
  destruct (parseURL urlString) as [u|] eqn:Hu; [|cbn; auto].
  destruct (String.eqb (hostname u) EmptyString) eqn:He; [cbn; auto|].
  destruct (String.eqb (hostname u) "localhost") eqn:Hl; [cbn; auto|].
  cbn. split; [reflexivity|]. right. exists u.
  apply String.eqb_neq in He, Hl. auto.
Qed.

(** Addresses that [net.isIP] does not recognise are let through: when
    the lookup of a usable hostname fulfils with addresses that are
    non-empty texts classified neither 4 nor 6, the host is allowed. *)
Theorem unrecognised_addresses_allowed (env : nat -> Answer)
    (urlString : string) (u : URL) (addrs : list LookupAddress) :
  parseURL urlString = Some u ->
  hostname u <> EmptyString ->
  hostname u <> "localhost" ->
  env O _ (dns_lookup (hostname u)) = Fulfilled addrs ->
  addrs <> [] ->
  (forall a, In a addrs ->
     address a <> EmptyString
     /\ isIP (address a) <> 4 /\ isIP (address a) <> 6) ->
  host_allowed isIP parseURL env urlString = inl true.
Proof.
  intros Hu He Hl Hd Hne Hall.
  apply host_allowed_true_iff.
  exists u, addrs. repeat split; auto.
  - now apply Hall.
  - destruct (Hall a H) as (_ & H4 & H6). unfold isPrivateIp.
    apply Z.eqb_neq in H4, H6. now rewrite H4, H6.
Qed.

End HostCheckExact.

(** ** The address classifier on IPv6 text *)

Lemma lower_char_idem (c : ascii) : Js.lower_char (Js.lower_char c) = Js.lower_char c.
Proof.
  destruct c as [[] [] [] [] [] [] [] []]; reflexivity.
Qed.

Lemma toLowerCase_idem (s : string) :
  Js.toLowerCase (Js.toLowerCase s) = Js.toLowerCase s.
Proof.
  induction s as [|c s IH]; cbn; [reflexivity|].
  now rewrite lower_char_idem, IH.
Qed.

Lemma prefix_weaken (p q s : string) :
  String.prefix (p ++ q) s = true -> String.prefix p s = true.
Proof.
  revert s. induction p as [|a p IH]; intros s H.
  - now destruct s.
  - destruct s as [|b s]; cbn in *; [discriminate|].
    destruct (ascii_dec a b); [now apply IH|discriminate].
Qed.

(** What [isPrivateIp] answers for a text classified as IPv6. *)
Lemma isPrivateIp_v6 (isIP : string -> Z) (ip : string) :
  isIP ip = 6 ->
  isPrivateIp isIP ip
  = (String.eqb (Js.toLowerCase ip) "::1"
     || Js.startsWith (Js.toLowerCase ip) "fe80"
     || Js.startsWith (Js.toLowerCase ip) "fc"
     || Js.startsWith (Js.toLowerCase ip) "fd").
Proof.
  intros H. unfold isPrivateIp. rewrite H. cbn [Z.eqb Pos.eqb].
  destruct (String.eqb (Js.toLowerCase ip) "::1"); [reflexivity|].
  assert (Hp : Js.startsWith (Js.toLowerCase ip) "fe80:" = true ->
               Js.startsWith (Js.toLowerCase ip) "fe80" = true)
    by apply (prefix_weaken "fe80" ":").
  destruct (Js.startsWith (Js.toLowerCase ip) "fe80") eqn:E1; [reflexivity|].
  destruct (Js.startsWith (Js.toLowerCase ip) "fe80:") eqn:E2;
    [specialize (Hp eq_refl); discriminate|].
  cbn [orb].
  destruct (Js.startsWith (Js.toLowerCase ip) "fc" || Js.startsWith (Js.toLowerCase ip) "fd");
    reflexivity.
Qed.

(** For IPv6 text the classifier ignores the case of the letters: a text
    and its lower-case form, both classified 6, get the same answer. *)
Theorem ipv6_class_ignores_case (isIP : string -> Z) (ip : string) :
  isIP ip = 6 ->
  isIP (Js.toLowerCase ip) = 6 ->
  isPrivateIp isIP (Js.toLowerCase ip) = isPrivateIp isIP ip.
Proof.
  intros H1 H2. rewrite !isPrivateIp_v6 by assumption.
  now rewrite toLowerCase_idem.
Qed.

(** An IPv6 text that starts with a colon is flagged only when it is
    ::1: the tests on the prefixes fe80, fc and fd cannot hold. So the
    IPv4-mapped texts ::ffff:a.b.c.d are never flagged, whatever IPv4
    address they carry. *)
Theorem ipv6_colon_prefix_public (isIP : string -> Z) (s : string) :
  isIP (String ":" s) = 6 ->
  (Js.toLowerCase s <> ":1" -> isPrivateIp isIP (String ":" s) = false)
  /\ (forall t, s = (":ffff:" ++ t)%string ->
                isPrivateIp isIP (String ":" s) = false).
Proof.
  intros H.
  assert (Hgen : Js.toLowerCase s <> ":1" ->
                 isPrivateIp isIP (String ":" s) = false).
  { intros Hne. rewrite isPrivateIp_v6 by assumption.
    cbn [Js.toLowerCase]. change (Js.lower_char ":") with ":"%char.
    apply String.eqb_neq in Hne.
    cbn [String.eqb Js.startsWith String.prefix]. rewrite Hne.
    reflexivity. }
  split; [exact Hgen|].
  intros t ->. apply Hgen. cbn. discriminate.
Qed.

(** ** The page summary *)

(** The description of the summary is never the empty string: it is null
    exactly when there is no meta element, the element has no content
    attribute, or the attribute is empty; otherwise it is the attribute.
    The title and the heading are the text of their elements, null when
    the element is missing. *)
Theorem extract_null_on_missing (d : Document) :
  description_of d <> Some EmptyString
  /\ (description_of d = None <->
      sel_meta d = None
      \/ exists el, sel_meta d = Some el
                    /\ (content_attribute el = None
                        \/ content_attribute el = Some EmptyString))
  /\ (forall el s, sel_meta d = Some el -> content_attribute el = Some s ->
                   s <> EmptyString -> description_of d = Some s)
  /\ fst (fst (extract d))
     = match sel_title d with Some el => textContent el | None => None end
  /\ snd (extract d)
     = match sel_h1 d with Some el => textContent el | None => None end.
Proof.
  unfold description_of, extract. cbn [fst snd].
  destruct (sel_meta d) as [el|].
  - destruct (content_attribute el) as [s|] eqn:Hc.
    + destruct (String.eqb s EmptyString) eqn:Hs.
      * apply String.eqb_eq in Hs. subst s.
        repeat split; try discriminate; auto.
        -- intros _. right. exists el. auto.
        -- intros el' s' E1 E2 Hne. injection E1 as <-.
           rewrite Hc in E2. injection E2 as <-. contradiction.
      * apply String.eqb_neq in Hs.
        repeat split; try discriminate; auto.
        -- intros E. injection E as ->. contradiction.
        -- intros [E|(el' & E & [E'|E'])]; try discriminate;
             injection E as <-; rewrite Hc in E'; try discriminate.
           injection E' as ->. contradiction.
        -- intros el' s' E1 E2 _. injection E1 as <-.
           rewrite Hc in E2. now injection E2 as <-.
    + repeat split; try discriminate; auto.
      * intros _. right. exists el. auto.
      * intros el' s' E1 E2. injection E1 as <-. rewrite Hc in E2. discriminate.
  - repeat split; try discriminate; auto.
Qed.

(** ** The operation on its own *)

Lemma description_nonempty (d : Document) :
  snd (fst (extract d)) <> Some EmptyString.
Proof.
  unfold extract. cbn [fst snd].
  destruct (sel_meta d) as [el|]; [|discriminate].
  destruct (content_attribute el) as [s|]; [|discriminate].
  destruct (String.eqb s EmptyString) eqn:Hs; [discriminate|].
  apply String.eqb_neq in Hs. intros E. injection E as ->. contradiction.
Qed.

(** When the operation returns, the browser is launched, the operation
    has called [browser.close()] exactly once, the flag is set exactly
    when that close fulfilled, and the value is the page source with
    status 200 in debug mode and else the summary with status 200, whose
    description is not the empty string. When the operation throws, it has
    not called [browser.close()] and the flag is unset: closing is left to
    its caller. *)
Theorem operation_result (env : nat -> Answer) (url : string) (debug : bool) :
  let r := run Op env initial_vars [] (operation url debug) in
  match snd r with
  | inl body =>
      (exists b, browser (fst (fst r)) = Some b)
      /\ count is_close_call (snd (fst r)) = 1%nat
      /\ (pageClosed (fst (fst r)) = true
          <-> count is_close_done (snd (fst r)) = 1%nat)
      /\ (if debug then exists html, body = DebugSuccess html 200
          else exists title description h1,
                 body = SuccessResponse title description h1 200
                 /\ description <> Some EmptyString)
  | inr _ =>
      count is_close_call (snd (fst r)) = 0%nat
      /\ pageClosed (fst (fst r)) = false
  end.
Proof.
  unfold operation. cbn -[extract].
  destruct (env 0%nat Browser chromium_launch) as [b|e0]; cbn -[extract];
    [|auto].
  destruct (env 1%nat BrowserContext (browser_newContext b DEFAULT_USER_AGENT))
    as [c|e0]; cbn -[extract]; [|auto].
  destruct (env 2%nat Page (context_newPage c)) as [p|e0]; cbn -[extract];
    [|auto].
  destruct (env 3%nat unit (page_goto p url "networkidle")) as [[]|e1];
    cbn -[extract].
  - destruct debug; cbn -[extract].
    + destruct (env 4%nat string (page_content p)) as [html|e0];
        cbn -[extract]; [|auto].
      destruct (env 5%nat unit (browser_close b)) as [[]|e0]; cbn -[extract];
        repeat split; try easy; eauto.
    + destruct (env 4%nat Document (page_evaluate p)) as [d|e0];
        cbn -[extract]; [|auto].
      pose proof (description_nonempty d) as Hd.
      destruct (extract d) as [[t m] h1]. cbn in Hd. cbn.
      destruct (env 5%nat unit (browser_close b)) as [[]|e0]; cbn;
        repeat split; try easy; eauto 6.
  - destruct (env 5%nat unit (page_goto p url "networkidle")) as [[]|e2];
      cbn -[extract]; [|auto].
    destruct debug; cbn -[extract].
    + destruct (env 6%nat string (page_content p)) as [html|e0];
        cbn -[extract]; [|auto].
      destruct (env 7%nat unit (browser_close b)) as [[]|e0]; cbn -[extract];
        repeat split; try easy; eauto.
    + destruct (env 6%nat Document (page_evaluate p)) as [d|e0];
        cbn -[extract]; [|auto].
      pose proof (description_nonempty d) as Hd.
      destruct (extract d) as [[t m] h1]. cbn in Hd. cbn.
      destruct (env 7%nat unit (browser_close b)) as [[]|e0]; cbn;
        repeat split; try easy; eauto 6.
Qed.

(** ** The timer of [withTimeout] *)

Section TimerDiscipline.

Context {T R : Type}.
Variable onTimeout : option (Proc unit).
Variable on_value : T -> Proc R.
Variable on_throw : Js.Error -> Proc R.

Lemma main_state_not_awaiting (p : Proc R) : main_state p <> MAwait.
Proof. destruct p; discriminate. Qed.

Lemma race_settled_timer (m : Machine T R) (r : Settled T) :
  settled_timer m -> settled_timer (race_settled on_value on_throw m r).
Proof.
  destruct m as [v tr op t mn]. unfold settled_timer, race_settled. cbn.
  intros H. destruct mn; auto.
  destruct (advance Main v _ _) as [[v' tr'] p]. cbn.
  destruct t; discriminate.
Qed.

Lemma race_settled_cleared (m : Machine T R) (r : Settled T) :
  m_timer m = TCleared ->
  m_timer (race_settled on_value on_throw m r) = TCleared.
Proof.
  destruct m as [v tr op t mn]. unfold race_settled. cbn. intros ->.
  destruct mn; auto.
  now destruct (advance Main v _ _) as [[v' tr'] p].
Qed.

Lemma op_progress_timer (m : Machine T R) :
  settled_timer m -> settled_timer (op_progress on_value on_throw m).
Proof.
  intros H. unfold op_progress. destruct (m_op m); auto using race_settled_timer.
Qed.

Lemma op_progress_cleared (m : Machine T R) :
  m_timer m = TCleared -> m_timer (op_progress on_value on_throw m) = TCleared.
Proof.
  intros H. unfold op_progress. destruct (m_op m); auto using race_settled_cleared.
Qed.

Lemma timer_progress_timer (m : Machine T R) (p : Proc unit) :
  settled_timer (timer_progress on_value on_throw m p).
Proof.
  destruct p; cbn [timer_progress];
    try (unfold settled_timer; cbn; discriminate);
    unfold reject_timeout; apply race_settled_timer;
    unfold settled_timer; cbn; discriminate.
Qed.

Lemma step_settled_timer (ch : Choice) (m : Machine T R) :
  settled_timer m -> settled_timer (step onTimeout on_value on_throw ch m).
Proof.
  intros H. destruct ch as [a| |a|a]; cbn [step].
  - destruct (m_op m) as [x|e|U c k|k|f k|e k]; auto.
    destruct (advance Op _ _ _) as [[v' tr'] p]. apply op_progress_timer.
    exact H.
  - destruct (m_timer m) eqn:Et; auto.
    destruct onTimeout as [cb|].
    + destruct (advance Timer _ _ _) as [[v' tr'] p]. apply timer_progress_timer.
    + unfold reject_timeout. apply race_settled_timer.
      unfold settled_timer. cbn. discriminate.
  - destruct (m_timer m) as [|p| |] eqn:Et; auto.
    destruct p as [x|e|U c k|k|f k|e k]; auto.
    destruct (advance Timer _ _ _) as [[v' tr'] p]. apply timer_progress_timer.
  - destruct (m_main m) as [|p|r|e] eqn:Em; auto.
    destruct p as [x|e|U c k|k|f k|e k]; auto.
    destruct (advance Main _ _ _) as [[v' tr'] p].
    unfold settled_timer in *. cbn. intros Ht. specialize (H Ht).
    rewrite Em in H. discriminate.
Qed.

Lemma step_cleared (ch : Choice) (m : Machine T R) :
  m_timer m = TCleared ->
  m_timer (step onTimeout on_value on_throw ch m) = TCleared.
Proof.
  intros H. destruct ch as [a| |a|a]; cbn [step].
  - destruct (m_op m) as [x|e|U c k|k|f k|e k]; auto.
    destruct (advance Op _ _ _) as [[v' tr'] p]. apply op_progress_cleared.
    exact H.
  - now rewrite H.
  - now rewrite H.
  - destruct (m_main m) as [|p|r|e]; auto.
    destruct p as [x|e|U c k|k|f k|e k]; auto.
    now destruct (advance Main _ _ _) as [[v' tr'] p].
Qed.

Lemma steps_settled_timer (sched : list Choice) (m : Machine T R) :
  settled_timer m -> settled_timer (steps onTimeout on_value on_throw sched m).
Proof.
  revert m. induction sched as [|ch sched IH]; intros m H; cbn; [exact H|].
  apply IH, step_settled_timer, H.
Qed.

Lemma steps_cleared (sched : list Choice) (m : Machine T R) :
  m_timer m = TCleared ->
  m_timer (steps onTimeout on_value on_throw sched m) = TCleared.
Proof.
  revert m. induction sched as [|ch sched IH]; intros m H; cbn; [exact H|].
  apply IH, step_cleared, H.
Qed.

Lemma withTimeout_settled_timer (v : Vars) (tr0 : list Event) (op : Proc T)
    (ms : Z) :
  settled_timer (withTimeout on_value on_throw v tr0 op ms).
Proof.
  unfold withTimeout. destruct (advance Op v tr0 op) as [[v' tr'] p].
  apply op_progress_timer. unfold settled_timer. reflexivity.
Qed.

End TimerDiscipline.

(** In every run of [withTimeout]: once the race is settled the timer is
    no longer pending (the [finally] cleared it, or it had fired); when
    the race is settled and the timer has not fired, the timer is cleared;
    and a cleared timer stays cleared whatever is scheduled next, so
    [onTimeout] is never invoked in such a run. *)
Theorem timer_cleared_for_good {T R : Type} (cb : Proc unit)
    (on_value : T -> Proc R) (on_throw : Js.Error -> Proc R)
    (sched1 sched2 : list Choice) (v : Vars) (tr0 : list Event) (op : Proc T)
    (ms : Z) :
  forallb neutral tr0 = true ->
  let m1 := steps (Some cb) on_value on_throw sched1
              (withTimeout on_value on_throw v tr0 op ms) in
  let m2 := steps (Some cb) on_value on_throw sched2 m1 in
  (m_main m1 <> MAwait -> m_timer m1 <> TArmed)
  /\ (m_main m1 <> MAwait -> filter is_timer_event (m_trace m1) = [] ->
      m_timer m1 = TCleared)
  /\ (m_timer m1 = TCleared ->
      m_timer m2 = TCleared /\ filter is_timer_event (m_trace m2) = []).
Proof.
  intros H0 m1 m2.
  pose proof (steps_settled_timer (Some cb) on_value on_throw sched1 _
                (withTimeout_settled_timer on_value on_throw v tr0 op ms)) as Hs.
  pose proof (steps_TInv cb on_value on_throw sched1 _
                (withTimeout_TInv on_value on_throw v tr0 op ms H0)) as Hi1.
  fold m1 in Hs, Hi1.
  assert (Ha : m_main m1 <> MAwait -> m_timer m1 <> TArmed).
  { intros Hm Ht. apply Hm, Hs, Ht. }
  split; [exact Ha|]. split.
  - intros Hm Hf. specialize (Ha Hm).
    destruct (m_timer m1); cbn in Hi1; try congruence.
    + destruct Hi1 as [Hi1 _]. rewrite Hf in Hi1. discriminate.
    + destruct Hi1 as (l1 & l2 & E & H1 & _). rewrite E, filter_app, H1 in Hf.
      discriminate.
  - intros Hc.
    pose proof (steps_cleared (Some cb) on_value on_throw sched2 m1 Hc) as Hc2.
    pose proof (steps_TInv cb on_value on_throw sched2 m1 Hi1) as Hi2.
    fold m2 in Hc2, Hi2. split; [exact Hc2|].
    rewrite Hc2 in Hi2. cbn in Hi2. apply Hi2.
Qed.

(** ** How often the handler calls out *)

Lemma run_bounded {A : Type} (f : CallName -> bool) (who : Thread)
    (p : Proc A) :
  forall n env v,
    Bounded f n p ->
    (count (is_call_named f) (snd (fst (run who env v [] p))) <= n)%nat.
Proof.
  induction p as [a|e|T c k IH|k IH|g k IH|e k IH]; intros n env v Hp;
    cbn in *.
  - unfold count. cbn. lia.
  - unfold count. cbn. lia.
  - rewrite run_app. cbn [fst snd]. rewrite count_app.
    unfold count at 1. cbn. destruct (f (name_of c)).
    + destruct n as [|n]; [contradiction|].
      specialize (IH (env O T c) n (fun i => env (S i)) v (Hp _)). cbn. lia.
    + specialize (IH (env O T c) n (fun i => env (S i)) v (Hp _)). cbn. lia.
  - apply IH, Hp.
  - apply IH, Hp.
  - rewrite run_app. cbn [fst snd]. rewrite count_app. unfold count at 1. cbn.
    apply IH, Hp.
Qed.

Section CallBudget.

Variable isIP : string -> Z.
Variable parseURL : string -> option URL.
Variable f : CallName -> bool.
Variables ne nr : nat.

Hypothesis f_close : f CClose = false.
Hypothesis f_entry : forall url, Bounded f ne (isHostAllowed isIP parseURL url).
Hypothesis f_race : forall url debug, Bounded f nr (operation url debug).

Lemma budget_cleanup : Bounded f 0 cleanup.
Proof.
  unfold cleanup. apply (Bounded_try_catch f _ _ 0 0); [|now cbn].
  cbn. intros v. destruct (pageClosed v), (browser v); cbn; auto.
  rewrite f_close. intros [x|e]; exact I.
Qed.

Lemma budget_handler_catch (debug : bool) (e : Js.Error) :
  Bounded f 0 (handler_catch debug e).
Proof.
  unfold handler_catch. cbn [Bounded].
  destruct (_ || _); [|destruct (String.eqb _ _)];
    (apply (Bounded_bind f _ _ 0 0); [apply budget_cleanup|intros _]);
    try destruct debug; exact I.
Qed.

Lemma budget_entry (req : Request) :
  Bounded f ne (handler_entry isIP parseURL req).
Proof.
  unfold handler_entry.
  destruct (negb _); [exact I|]. cbn zeta.
  destruct (query_first _) as [url|]; [|exact I].
  destruct (_ || _); [exact I|].
  replace ne with (ne + 0)%nat by lia.
  apply Bounded_bind; [apply f_entry|].
  intros b. destruct (negb b); exact I.
Qed.

Lemma budget_race (tr0 : list Event) (url : string) (debug : bool)
    (sched : list Choice) :
  MBounded f nr tr0 (handler_steps debug sched (handler_race tr0 url debug)).
Proof.
  unfold handler_steps, handler_race. apply steps_MBounded.
  - intros cb E. injection E as <-. apply budget_cleanup.
  - intros x. exact I.
  - apply budget_handler_catch.
  - apply withTimeout_MBounded.
    + intros x. exact I.
    + apply budget_handler_catch.
    + apply f_race.
Qed.

Lemma budget_handler (env : nat -> Answer) (sched : list Choice)
    (req : Request) :
  (count (is_call_named f) (out_trace (handler isIP parseURL env sched req))
   <= ne + nr)%nat.
Proof.
  pose proof (run_bounded f Main _ ne env initial_vars (budget_entry req)) as He.
  unfold handler.
  destruct (run Main env initial_vars [] (handler_entry isIP parseURL req))
    as [[v tr] [[r|[url debug]]|e]]; cbn [fst snd out_trace] in *; try lia.
  destruct (budget_race tr url debug sched) as (evs & n & E & Hn & _).
  rewrite E, count_app. lia.
Qed.

End CallBudget.

Lemma isHostAllowed_no_call (isIP : string -> Z) (parseURL : string -> option URL)
    (f : CallName -> bool) (url : string) :
  (forall h, f (CDnsLookup h) = false) ->
  Bounded f 0 (isHostAllowed isIP parseURL url).
Proof.
  intros Hf. unfold isHostAllowed.
  apply (Bounded_try_catch f _ _ 0 0); [|now cbn].
  destruct (parseURL url) as [u|]; [|exact I]. cbn zeta.
  destruct (String.eqb _ _); [exact I|].
  destruct (String.eqb _ _); [exact I|].
  cbn. rewrite Hf. intros [addrs|e]; cbn; [|exact I].
  destruct (Nat.eqb _ _); [exact I|]. now destruct (scan_addrs _ _).
Qed.

Lemma isHostAllowed_one_lookup (isIP : string -> Z)
    (parseURL : string -> option URL) (url : string) :
  Bounded is_dns_name 1 (isHostAllowed isIP parseURL url).
Proof.
  unfold isHostAllowed.
  apply (Bounded_try_catch is_dns_name _ _ 1 0); [|now cbn].
  destruct (parseURL url) as [u|]; [|exact I]. cbn zeta.
  destruct (String.eqb _ _); [exact I|].
  destruct (String.eqb _ _); [exact I|].
  cbn. intros [addrs|e]; cbn; [|exact I].
  destruct (Nat.eqb _ _); [exact I|]. now destruct (scan_addrs _ _).
Qed.

Lemma operation_budget (f : CallName -> bool) (nl nc np nd : nat)
    (url : string) (debug : bool) :
  f CClose = false ->
  (forall u w, f (CGoto u w) = false) ->
  (forall ms, f (CDelay ms) = false) ->
  Bounded f nl (await chromium_launch) ->
  (forall b, Bounded f nc (await (browser_newContext b DEFAULT_USER_AGENT))) ->
  (forall c, Bounded f np (await (context_newPage c))) ->
  (forall p, Bounded f nd (await (page_content p))) ->
  (forall p, Bounded f nd (await (page_evaluate p))) ->
  Bounded f (nl + (nc + (np + (0 + (nd + 0))))) (operation url debug).
Proof.
  intros Hc Hg Hd Hl Hctx Hp Hr1 Hr2.
  assert (Hcl : Bounded f 0 cleanup).
  { unfold cleanup. apply (Bounded_try_catch f _ _ 0 0); [|now cbn].
    cbn. intros v. destruct (pageClosed v), (browser v); cbn; auto.
    rewrite Hc. intros [x|e]; exact I. }
  unfold operation.
  apply Bounded_bind; [exact Hl|]. intros b. cbn [Bounded].
  apply Bounded_bind; [apply Hctx|]. intros c.
  apply Bounded_bind; [apply Hp|]. intros p. cbn [Bounded].
  apply Bounded_bind.
  { unfold navigate. cbn. rewrite Hg. intros [x|e]; cbn; [exact I|].
    rewrite Hd. intros _. rewrite Hg. intros [x|e']; exact I. }
  intros _. destruct debug.
  - apply Bounded_bind; [apply Hr1|]. intros html.
    apply (Bounded_bind f _ _ 0 0); [exact Hcl|now cbn].
  - apply Bounded_bind; [apply Hr2|]. intros d.
    destruct (extract d) as [[t m] h1].
    apply (Bounded_bind f _ _ 0 0); [exact Hcl|now cbn].
Qed.

(** Whatever the request, the answers of the calls and the schedule, one
    run of the handler looks the host up at most once, launches at most
    one browser, opens at most one context and one page in it, and reads
    the page at most once (its HTML or the three fields, never both). *)
Theorem one_browser_per_request (isIP : string -> Z)
    (parseURL : string -> option URL) (env : nat -> Answer)
    (sched : list Choice) (req : Request) :
  let tr := out_trace (handler isIP parseURL env sched req) in
  (count (is_call_named is_dns_name) tr <= 1)%nat
  /\ (count (is_call_named is_launch_name) tr <= 1)%nat
  /\ (count (is_call_named is_context_name) tr <= 1)%nat
  /\ (count (is_call_named is_page_name) tr <= 1)%nat
  /\ (count (is_call_named is_read_name) tr <= 1)%nat.
Proof.
  cbn zeta. split; [|split; [|split; [|split]]].
  - apply (budget_handler isIP parseURL is_dns_name 1 0); auto.
    + intros url. apply isHostAllowed_one_lookup.
    + intros url debug.
      apply (operation_budget is_dns_name 0 0 0 0); auto;
        intros; cbn; now intros [x|e].
  - apply (budget_handler isIP parseURL is_launch_name 0 1); auto.
    + intros url. now apply isHostAllowed_no_call.
    + intros url debug.
      apply (operation_budget is_launch_name 1 0 0 0); auto;
        intros; cbn; now intros [x|e].
  - apply (budget_handler isIP parseURL is_context_name 0 1); auto.
    + intros url. now apply isHostAllowed_no_call.
    + intros url debug.
      apply (operation_budget is_context_name 0 1 0 0); auto;
        intros; cbn; now intros [x|e].
  - apply (budget_handler isIP parseURL is_page_name 0 1); auto.
    + intros url. now apply isHostAllowed_no_call.
    + intros url debug.
      apply (operation_budget is_page_name 0 0 1 0); auto;
        intros; cbn; now intros [x|e].
  - apply (budget_handler isIP parseURL is_read_name 0 1); auto.
    + intros url. now apply isHostAllowed_no_call.
    + intros url debug.
      apply (operation_budget is_read_name 0 0 0 1); auto;
        intros; cbn; now intros [x|e].
Qed.

(** ** The deadline *)

(** From any state of the race in which the timer is armed and the
    handler awaits the race, take three tasks in a row, with no task of
    the operation in between: the timer fires; the close called by the
    cleanup of the timer settles; the close called by the cleanup of the
    [catch] block settles (a step that does nothing when no such close is
    pending). Whatever the state of the browser and however the two
    closes settle, the handler has then answered 504 "Timeout" and these
    tasks have sent nothing else; they call [browser.close()] at most
    twice, and not at all, leaving the variables alone, when there is no
    browser or the flag is set; and they leave the code of the operation
    as it was: [withTimeout] does not cancel it. *)
Theorem deadline_answers_504 (debug : bool) (m : Machine Body Response)
    (a a' : Answer) :
  m_timer m = TArmed ->
  m_main m = MAwait ->
  let m' := handler_steps debug [Fire; StepTimer a; StepMain a'] m in
  m_main m' = MDone timed_out
  /\ m_timer m' = TRejected
  /\ m_op m' = m_op m
  /\ exists evs,
       m_trace m' = m_trace m ++ evs
       /\ responses evs = [timed_out]
       /\ (count is_close_call evs <= 2)%nat
       /\ (browser (m_vars m) = None \/ pageClosed (m_vars m) = true ->
           count is_close_call evs = 0%nat /\ m_vars m' = m_vars m).
Proof.
  destruct m as [[br pc] tr op t mn]. cbn. intros -> ->.
  unfold handler_steps, steps.
  destruct pc, br as [b|]; cbn;
    try destruct (a unit (browser_close b)) as [[]|e]; cbn;
    try destruct (a' unit (browser_close b)) as [[]|e']; cbn;
    rewrite <- ?app_assoc;
    (do 3 (split; [reflexivity|]));
    (eexists; split; [reflexivity|]; split; [reflexivity|];
     split; [unfold count; cbn; lia|];
     intros [Hx|Hx]; try discriminate; split; reflexivity).
Qed.

(** ** One response per request *)

Lemma Ends_mono {A : Type} (Q Q' : list Response -> A -> Prop)
    (E E' : list Response -> Js.Error -> Prop) (p : Proc A) :
  (forall rs x, Q rs x -> Q' rs x) -> (forall rs e, E rs e -> E' rs e) ->
  forall acc, Ends Q E acc p -> Ends Q' E' acc p.
Proof.
  intros HQ HE.
  induction p as [a|e|T c k IH|k IH|g k IH|e k IH]; intros acc Hp;
    cbn in *; eauto.
Qed.

Lemma Ends_bind {A B : Type} (Q : list Response -> B -> Prop)
    (E : list Response -> Js.Error -> Prop) (p : Proc A) (g : A -> Proc B) :
  forall acc,
    Ends (fun rs a => Ends Q E rs (g a)) E acc p -> Ends Q E acc (bind p g).
Proof.
  induction p as [a|e|T c k IH|k IH|h k IH|e k IH]; intros acc Hp;
    cbn in *; eauto.
Qed.

Lemma Ends_try_catch {A : Type} (Q : list Response -> A -> Prop)
    (E : list Response -> Js.Error -> Prop) (p : Proc A)
    (h : Js.Error -> Proc A) :
  forall acc,
    Ends Q (fun rs e => Ends Q E rs (h e)) acc p -> Ends Q E acc (try_catch p h).
Proof.
  induction p as [a|e|T c k IH|k IH|g k IH|e k IH]; intros acc Hp;
    cbn in *; eauto.
Qed.

(** What the code sends in a run is what [Ends] accounts for. *)
Lemma Ends_run {A : Type} (Q : list Response -> A -> Prop)
    (E : list Response -> Js.Error -> Prop) (who : Thread) (p : Proc A) :
  forall acc env v,
    Ends Q E acc p ->
    match snd (run who env v [] p) with
    | inl x => Q (acc ++ responses (snd (fst (run who env v [] p)))) x
    | inr e => E (acc ++ responses (snd (fst (run who env v [] p)))) e
    end.
Proof.
  induction p as [a|e|T c k IH|k IH|g k IH|e k IH]; intros acc env v Hp;
    cbn in *.
  - now rewrite app_nil_r.
  - now rewrite app_nil_r.
  - rewrite run_app. cbn [fst snd]. rewrite responses_app. cbn. apply IH, Hp.
  - apply IH, Hp.
  - apply IH, Hp.
  - rewrite run_app. cbn [fst snd]. rewrite responses_app.
    specialize (IH (acc ++ sent e) env v Hp).
    rewrite <- app_assoc in IH. destruct e; exact IH.
Qed.

Lemma Ends_advance {A : Type} (Q : list Response -> A -> Prop)
    (E : list Response -> Js.Error -> Prop) (who : Thread) (p : Proc A) :
  forall acc v,
    Ends Q E acc p ->
    Ends Q E (acc ++ responses (snd (fst (advance who v [] p))))
      (snd (advance who v [] p)).
Proof.
  induction p as [a|e|T c k IH|k IH|g k IH|e k IH]; intros acc v Hp;
    cbn in *.
  - now rewrite app_nil_r.
  - now rewrite app_nil_r.
  - now rewrite app_nil_r.
  - apply IH, Hp.
  - apply IH, Hp.
  - rewrite advance_app. cbn [fst snd]. rewrite responses_app.
    specialize (IH (acc ++ sent e) v Hp).
    rewrite <- app_assoc in IH. destruct e; exact IH.
Qed.

(** Quiet code has sent nothing so far. *)
Lemma Quiet_nothing_sent {A : Type} (B : A -> Prop) (p : Proc A) :
  forall acc, Ends (quietly B) quiet_error acc p -> acc = [].
Proof.
  induction p as [a|e|T c k IH|k IH|g k IH|e k IH]; intros acc Hp; cbn in *.
  - apply Hp.
  - exact Hp.
  - apply (IH (Rejected (Js.mkError EmptyString))), Hp.
  - apply (IH initial_vars), Hp.
  - apply IH, Hp.
  - specialize (IH _ Hp). destruct e; cbn in IH; rewrite ?app_nil_r in IH; auto.
    now destruct acc.
Qed.

Lemma advance_quiet {A : Type} (B : A -> Prop) (who : Thread) (p : Proc A)
    (v : Vars) :
  Quiet B p ->
  responses (snd (fst (advance who v [] p))) = []
  /\ Quiet B (snd (advance who v [] p)).
Proof.
  intros Hp. pose proof (Ends_advance _ _ who p [] v Hp) as H. cbn in H.
  pose proof (Quiet_nothing_sent B _ _ H) as E. rewrite E in H. auto.
Qed.

Lemma Calm_quiet {A : Type} (p : Proc A) : Calm p -> Quiet (fun _ => True) p.
Proof. apply Ends_mono; [auto|intros rs e []]. Qed.

Lemma Calm_nothing_sent {A : Type} (p : Proc A) (acc : list Response) :
  Ends (quietly (fun _ => True)) never acc p -> acc = [].
Proof.
  intros Hp. apply (Quiet_nothing_sent (fun _ => True) p).
  revert Hp. apply Ends_mono; [auto|intros rs e []].
Qed.

Lemma Answers_bind {A : Type} (P : Response -> Prop) (p : Proc A)
    (g : A -> Proc Response) :
  (forall a, Answers P (g a)) ->
  forall acc, Ends (quietly (fun _ => True)) never acc p -> Answers P (bind p g).
Proof.
  intros Hg.
  induction p as [a|e|T c k IH|k IH|h k IH|e k IH]; intros acc Hp;
    cbn in *; eauto.
  destruct e; eauto.
  exfalso. apply Calm_nothing_sent in Hp. now destruct acc.
Qed.

(** A task of answering code either is blocked with nothing sent, or
    has sent its response and returned it. *)
Lemma advance_answers (P : Response -> Prop) (p : Proc Response) (v : Vars) :
  Answers P p ->
  (responses (snd (fst (advance Main v [] p))) = []
   /\ Answers P (snd (advance Main v [] p)))
  \/ (exists r, responses (snd (fst (advance Main v [] p))) = [r]
                /\ P r /\ snd (advance Main v [] p) = Ret r).
Proof.
  revert v.
  induction p as [a|e|T c k IH|k IH|g k IH|e k IH]; intros v Hp; cbn in *.
  - destruct Hp.
  - destruct Hp.
  - left. auto.
  - apply IH, Hp.
  - apply IH, Hp.
  - rewrite advance_app. cbn [fst snd]. rewrite responses_app.
    destruct e; try (cbn; apply IH, Hp).
    destruct Hp as [Hr ->]. right. exists r. cbn. auto.
Qed.

Section RaceResponds.

Context {T : Type}.
Variable B : T -> Prop.
Variable P : Response -> Prop.
Variable onTimeout : option (Proc unit).
Variable on_value : T -> Proc Response.
Variable on_throw : Js.Error -> Proc Response.

Hypothesis R_onTimeout :
  forall cb, onTimeout = Some cb -> Quiet (fun _ => True) cb.
Hypothesis R_value : forall x, B x -> Answers P (on_value x).
Hypothesis R_throw : forall e, Answers P (on_throw e).

Lemma MResp_make (tr0 evs : list Event) (v : Vars) (op : Proc T)
    (t : TimerState) (mn : MainState Response) :
  Quiet B op ->
  (forall p, t = TRunning p -> Quiet (fun _ => True) p) ->
  match mn with
  | MAwait => responses evs = []
  | MRun p => responses evs = [] /\ Answers P p
  | MDone r => responses evs = [r] /\ P r
  | MFailed _ => False
  end ->
  MResp B P tr0 (mkMachine v (tr0 ++ evs) op t mn).
Proof. intros. exists evs. cbn. auto. Qed.

Lemma MResp_race_settled (tr0 : list Event) (m : Machine T Response)
    (r : Settled T) :
  match r with Fulfilled x => B x | Rejected _ => True end ->
  MResp B P tr0 m -> MResp B P tr0 (race_settled on_value on_throw m r).
Proof.
  destruct m as [v tr op t mn].
  intros Hr (evs & E & Hop & Htm & Hmn). cbn in *. subst tr.
  unfold race_settled. cbn [m_main m_timer m_trace m_vars m_op].
  destruct mn as [|p0|r0|e0]; [|apply MResp_make; auto..].
  set (p := match r with Fulfilled x => on_value x | Rejected e => on_throw e end).
  assert (Hp : Answers P p) by (subst p; destruct r; auto).
  rewrite advance_app. cbn [fst snd].
  rewrite <- !app_assoc. apply MResp_make; auto.
  - intros q Hq. destruct t; try discriminate; auto.
  - rewrite !responses_app, Hmn. cbn.
    destruct (advance_answers P p v Hp) as [[H1 H2]|(r1 & H1 & H2 & H3)].
    + destruct (snd (advance Main v [] p)); cbn in *; try contradiction; auto.
    + rewrite H3. cbn. auto.
Qed.

Lemma MResp_op_progress (tr0 : list Event) (m : Machine T Response) :
  MResp B P tr0 m -> MResp B P tr0 (op_progress on_value on_throw m).
Proof.
  intros H. unfold op_progress.
  destruct (m_op m) eqn:Eop; auto; apply MResp_race_settled; auto.
  destruct H as (evs & _ & Hop & _). rewrite Eop in Hop. apply Hop.
Qed.

Lemma MResp_timer_progress (tr0 evs : list Event) (v : Vars) (op : Proc T)
    (t : TimerState) (mn : MainState Response) (p : Proc unit) :
  Quiet B op -> Quiet (fun _ => True) p ->
  match mn with
  | MAwait => responses evs = []
  | MRun p => responses evs = [] /\ Answers P p
  | MDone r => responses evs = [r] /\ P r
  | MFailed _ => False
  end ->
  MResp B P tr0
    (timer_progress on_value on_throw (mkMachine v (tr0 ++ evs) op t mn) p).
Proof.
  intros Hop Hp Hmn.
  assert (Hrej : MResp B P tr0
            (reject_timeout on_value on_throw
               (mkMachine v ((tr0 ++ evs) ++ [EvOnTimeoutSettled]) op t mn))).
  { unfold reject_timeout. apply MResp_race_settled; [exact I|]. cbn.
    rewrite <- !app_assoc. apply MResp_make; auto; [discriminate|].
    rewrite responses_app. cbn. rewrite app_nil_r. exact Hmn. }
  destruct p; cbn [timer_progress m_vars m_trace m_op m_timer m_main]; auto;
    apply MResp_make; auto; intros q Hq; injection Hq as <-; exact Hp.
Qed.

Lemma step_MResp (tr0 : list Event) (ch : Choice) (m : Machine T Response) :
  MResp B P tr0 m -> MResp B P tr0 (step onTimeout on_value on_throw ch m).
Proof.
  intros Hm. pose proof Hm as Hm0.
  destruct m as [v tr op t mn].
  destruct Hm as (evs & E & Hop & Htm & Hmn). cbn in *. subst tr.
  destruct ch as [a| |a|a]; cbn [step m_vars m_trace m_op m_timer m_main].
  - destruct op as [x|e|U c k|k|f k|e k]; auto.
    rewrite advance_app. cbn [fst snd].
    destruct (advance_quiet B Op _ v (Hop (a U c))) as [H1 H2].
    apply MResp_op_progress. rewrite <- !app_assoc. apply MResp_make; auto.
    rewrite !responses_app, H1. cbn. rewrite app_nil_r. exact Hmn.
  - destruct t; auto.
    destruct onTimeout as [cb|] eqn:Ecb.
    + rewrite advance_app. cbn [fst snd].
      destruct (advance_quiet _ Timer cb v (R_onTimeout cb eq_refl)) as [H1 H2].
      rewrite <- !app_assoc. apply MResp_timer_progress; auto.
      rewrite !responses_app, H1. cbn. rewrite app_nil_r. exact Hmn.
    + unfold reject_timeout. apply MResp_race_settled; [exact I|]. cbn.
      rewrite <- !app_assoc. apply MResp_make; auto; [discriminate|].
      rewrite responses_app. cbn. rewrite app_nil_r. exact Hmn.
  - destruct t as [|p| |]; auto.
    destruct p as [x|e|U c k|k|f k|e k]; auto.
    specialize (Htm _ eq_refl).
    rewrite advance_app. cbn [fst snd].
    destruct (advance_quiet _ Timer _ v (Htm (a U c))) as [H1 H2].
    rewrite <- !app_assoc. apply MResp_timer_progress; auto.
    rewrite !responses_app, H1. cbn. rewrite app_nil_r. exact Hmn.
  - destruct mn as [|p|r|e]; auto.
    destruct p as [x|e|U c k|k|f k|e k]; auto.
    destruct Hmn as [Hrs Hk]. cbn in Hk.
    rewrite advance_app. cbn [fst snd].
    rewrite <- !app_assoc. apply MResp_make; auto.
    rewrite !responses_app, Hrs. cbn.
    destruct (advance_answers P _ v (Hk (a U c))) as [[H1 H2]|(r1 & H1 & H2 & H3)].
    + destruct (snd (advance Main v [] (k (a U c)))); cbn in *;
        try contradiction; auto.
    + rewrite H3. cbn. auto.
Qed.

Lemma steps_MResp (tr0 : list Event) (sched : list Choice)
    (m : Machine T Response) :
  MResp B P tr0 m -> MResp B P tr0 (steps onTimeout on_value on_throw sched m).
Proof.
  revert m. induction sched as [|ch sched IH]; intros m H; cbn; [exact H|].
  apply IH, step_MResp, H.
Qed.

Lemma withTimeout_MResp (v : Vars) (tr0 : list Event) (op : Proc T) (ms : Z) :
  Quiet B op -> MResp B P tr0 (withTimeout on_value on_throw v tr0 op ms).
Proof.
  intros Hop. unfold withTimeout. rewrite advance_app. cbn [fst snd].
  destruct (advance_quiet B Op op v Hop) as [H1 H2].
  apply MResp_op_progress. rewrite <- !app_assoc. apply MResp_make; auto.
  - discriminate.
  - rewrite responses_app, H1. reflexivity.
Qed.

End RaceResponds.

Lemma Calm_cleanup : Calm cleanup.
Proof.
  unfold Calm, cleanup. apply Ends_try_catch. cbn. intros v.
  destruct (pageClosed v), (browser v); cbn; try (split; auto; fail).
  intros [x|e]; cbn; split; auto.
Qed.

Lemma Answers_handler_catch (debug : bool) (e : Js.Error) :
  Answers (late_response debug) (handler_catch debug e).
Proof.
  unfold handler_catch. cbn [Answers].
  destruct (_ || _); [|destruct (String.eqb _ _)];
    (apply Answers_bind with (acc := []); [intros _|apply Calm_cleanup]).
  - cbn. unfold late_response. auto.
  - cbn. unfold late_response. auto.
  - unfold late_response.
    destruct debug; cbn; (split; [|reflexivity]); do 3 right;
      exists (Js.message e); reflexivity.
Qed.

Lemma Quiet_operation (url : string) (debug : bool) :
  Quiet (body_form debug) (operation url debug).
Proof.
  assert (Hc : forall (b : Body), body_form debug b ->
                 Ends (quietly (body_form debug)) quiet_error []
                   (cleanup ;; Ret b)).
  { intros b Hb. apply Ends_bind.
    apply Ends_mono with (Q := quietly (fun _ => True)) (E := never);
      [|intros rs e []|apply Calm_cleanup].
    intros rs x [-> _]. cbn. split; auto. }
  unfold Quiet, operation. cbn. intros [b|e]; cbn; [|reflexivity].
  intros [c|e]; cbn; [|reflexivity].
  intros [p|e]; cbn; [|reflexivity].
  assert (Hrest : Ends (quietly (body_form debug)) quiet_error []
            (if debug
             then html <- await (page_content p) ;; cleanup ;;
                  Ret (DebugSuccess html 200)
             else d <- await (page_evaluate p) ;;
                  (let '(title, metaDescription, h1) := extract d in
                   cleanup ;; Ret (SuccessResponse title metaDescription h1 200)))).
  { destruct debug; cbn -[cleanup extract].
    - intros [html|e]; cbn -[cleanup]; [|reflexivity].
      apply Hc. cbn. eauto.
    - intros [d|e]; cbn -[cleanup extract]; [|reflexivity].
      pose proof (description_nonempty d) as Hd. unfold description_of in Hd.
      destruct (extract d) as [[t m] h1]. cbn in Hd.
      apply Hc. cbn. eauto. }
  intros [x|e]; cbn -[cleanup extract]; [exact Hrest|].
  intros _ [x|e']; cbn -[cleanup extract]; [exact Hrest|reflexivity].
Qed.

Section Responses.

Variable isIP : string -> Z.
Variable parseURL : string -> option URL.

Lemma Calm_isHostAllowed (url : string) : Calm (isHostAllowed isIP parseURL url).
Proof.
  unfold Calm, isHostAllowed. apply Ends_try_catch.
  destruct (parseURL url) as [u|]; [|cbn; split; auto]. cbn zeta.
  destruct (String.eqb _ _); [cbn; split; auto|].
  destruct (String.eqb _ _); [cbn; split; auto|].
  cbn. intros [addrs|e]; cbn; [|split; auto].
  destruct (Nat.eqb _ _); [cbn; split; auto|].
  destruct (scan_addrs _ _); cbn; split; auto.
Qed.

Lemma entry_responses (req : Request) :
  Ends (fun rs x =>
          match x with
          | inl r => rs = [r] /\ early_response r
          | inr (url, debug) =>
              rs = [] /\ debug = query_is_true (query_debug req)
          end) never [] (handler_entry isIP parseURL req).
Proof.
  unfold handler_entry, early_response.
  destruct (negb _); [cbn; auto|]. cbn zeta.
  destruct (query_first _) as [url|]; [|cbn; auto].
  destruct (_ || _); [cbn; auto|].
  apply Ends_bind.
  apply Ends_mono with (Q := quietly (fun _ => True)) (E := never);
    [|auto|apply Calm_isHostAllowed].
  intros rs b [-> _]. destruct b; cbn; auto.
Qed.

Lemma race_responses (tr0 : list Event) (url : string) (debug : bool)
    (sched : list Choice) :
  MResp (body_form debug) (late_response debug) tr0
    (handler_steps debug sched (handler_race tr0 url debug)).
Proof.
  unfold handler_steps, handler_race. apply steps_MResp.
  - intros cb E. injection E as <-. apply Calm_quiet, Calm_cleanup.
  - intros x Hx. cbn. split; auto. left. eauto.
  - apply Answers_handler_catch.
  - apply withTimeout_MResp.
    + intros x Hx. cbn. split; auto. left. eauto.
    + apply Answers_handler_catch.
    + apply Quiet_operation.
Qed.

End Responses.

(** Whatever the request, the answers of the calls and the schedule: the
    handler never throws; it has sent no response while it is still
    running, and exactly one, the one it returns, once it is done; and
    that response is one of: 405 "Method Not Allowed", 400 "Invalid URL",
    400 "Invalid URL or disallowed host", 200 with the HTML of the page
    in debug mode and with the three fields otherwise (the description
    never the empty string), 500 for missing browsers, 504 "Timeout", or
    500 "Failed to scrape page", which carries details in debug mode
    only. *)
Theorem one_response_per_request (isIP : string -> Z)
    (parseURL : string -> option URL) (env : nat -> Answer)
    (sched : list Choice) (req : Request) :
  let o := handler isIP parseURL env sched req in
  let debug := query_is_true (query_debug req) in
  (forall e, out_main o <> MFailed e)
  /\ (out_main o = MAwait \/ (exists p, out_main o = MRun p) ->
      responses (out_trace o) = [])
  /\ (forall r, out_main o = MDone r ->
      responses (out_trace o) = [r]
      /\ (early_response r \/ late_response debug r)).
Proof.
  cbn zeta.
  pose proof (Ends_run _ _ Main _ [] env initial_vars
                (entry_responses isIP parseURL req)) as He.
  unfold handler.
  destruct (run Main env initial_vars [] (handler_entry isIP parseURL req))
    as [[v tr] [[r|[url debug]]|e]]; cbn [fst snd app out_trace out_main] in *.
  - destruct He as [E Hr]. split; [discriminate|]. split.
    + intros [H|[p H]]; discriminate.
    + intros r' H. injection H as <-. auto.
  - destruct He as [E ->].
    destruct (race_responses tr url (query_is_true (query_debug req)) sched)
      as (evs & Etr & _ & _ & Hmn).
    rewrite Etr, responses_app, E. cbn [app].
    destruct (m_main _) as [|p|r|e].
    + split; [discriminate|]. split; [auto|discriminate].
    + split; [discriminate|]. split; [intros _; apply Hmn|discriminate].
    + split; [discriminate|]. split.
      * intros [H|[p H]]; discriminate.
      * intros r' H. injection H as <-. destruct Hmn. auto.
    + destruct Hmn.
  - destruct He.
Qed.

(** ** [withTimeout] when the timer does not fire *)

Lemma run_resume {A : Type} (who : Thread) (p : Proc A) :
  forall env v tr,
    run who env v tr p
    = resume who env (fst (fst (advance who v tr p)))
        (snd (fst (advance who v tr p))) (snd (advance who v tr p)).
Proof.
  induction p as [a|e|T c k IH|k IH|f k IH|e k IH]; intros env v tr; cbn;
    auto.
  now rewrite <- app_assoc.
Qed.

Lemma resume_app {A : Type} (who : Thread) (env : nat -> Answer) (v : Vars)
    (tr : list Event) (p : Proc A) :
  resume who env v tr p
  = (fst (fst (resume who env v [] p)), tr ++ snd (fst (resume who env v [] p)),
     snd (resume who env v [] p)).
Proof.
  destruct p; cbn [resume]; try apply run_app.
  rewrite run_app. rewrite (run_app _ _ _ _ ([] ++ _)). cbn [fst snd].
  now rewrite <- app_assoc.
Qed.

Lemma awaits_advance {A : Type} (who : Thread) (p : Proc A) :
  forall env v tr,
    awaits env v p
    = awaits env (fst (fst (advance who v tr p))) (snd (advance who v tr p)).
Proof.
  induction p as [a|e|T c k IH|k IH|f k IH|e k IH]; intros env v tr; cbn;
    auto.
Qed.

Lemma advance_blocked {A : Type} (who : Thread) (p : Proc A) :
  forall v tr, settled_or_awaiting (snd (advance who v tr p)) = true.
Proof.
  induction p as [a|e|T c k IH|k IH|f k IH|e k IH]; intros v tr; cbn; auto.
Qed.

Section OperationWins.

Context {T R : Type}.
Variable onTimeout : option (Proc unit).
Variable on_value : T -> Proc R.
Variable on_throw : Js.Error -> Proc R.
Variable d : Answer.

Lemma steps_op_ended (answers : list Answer) (m : Machine T R) :
  settled_or_awaiting (m_op m) = true ->
  awaits (Env.script answers d) (m_vars m) (m_op m) = 0%nat ->
  steps onTimeout on_value on_throw (map StepOp answers) m = m.
Proof.
  intros Hb H0. induction answers as [|a rest IH]; [reflexivity|].
  cbn [map steps fold_left]. fold (steps onTimeout on_value on_throw).
  assert (E : step onTimeout on_value on_throw (StepOp a) m = m).
  { cbn [step]. destruct (m_op m); try reflexivity. discriminate. }
  rewrite E. apply IH.
  destruct (m_op m); try reflexivity; discriminate.
Qed.

Lemma race_settled_op (m : Machine T R) (r : Settled T) :
  m_op (race_settled on_value on_throw m r) = m_op m.
Proof.
  unfold race_settled. destruct (m_main m); auto.
  now destruct (advance Main _ _ _) as [[v tr] p].
Qed.

Lemma drive_op (answers : list Answer) :
  forall (v : Vars) (tr : list Event) (p : Proc T),
    settled_or_awaiting p = true ->
    (awaits (Env.script answers d) v p <= List.length answers)%nat ->
    let r := resume Op (Env.script answers d) v [] p in
    steps onTimeout on_value on_throw (map StepOp answers)
      (op_progress on_value on_throw (mkMachine v tr p TArmed MAwait))
    = race_settled on_value on_throw
        (mkMachine (fst (fst r)) (tr ++ snd (fst r)) (ended_as (snd r))
           TArmed MAwait)
        (settled_as (snd r)).
Proof.
  induction answers as [|a rest IH]; intros v tr p Hb Hn r.
  - destruct p as [x|e|U c k|k|f k|e k]; try discriminate.
    + subst r. cbn. now rewrite app_nil_r.
    + subst r. cbn. now rewrite app_nil_r.
    + cbn in Hn. lia.
  - destruct p as [x|e|U c k|k|f k|e k]; try discriminate.
    + subst r. cbn [resume run fst snd ended_as settled_as op_progress m_op].
      rewrite app_nil_r. apply steps_op_ended.
      * now rewrite race_settled_op.
      * now rewrite race_settled_op.
    + subst r. cbn [resume run fst snd ended_as settled_as op_progress m_op].
      rewrite app_nil_r. apply steps_op_ended.
      * now rewrite race_settled_op.
      * now rewrite race_settled_op.
    + cbn [op_progress m_op map steps fold_left].
      fold (steps onTimeout on_value on_throw).
      rewrite step_op_await.
      set (s := a U c) in *.
      rewrite (advance_app Op (k s) v (tr ++ _)). cbn [fst snd].
      cbn in Hn.
      change (fun n => Env.script (a :: rest) d (S n)) with (Env.script rest d)
        in Hn.
      fold s in Hn.
      etransitivity.
      { apply IH; [apply advance_blocked|].
        rewrite <- (awaits_advance Op (k s) (Env.script rest d) v []).
        apply le_S_n, Hn. }
      subst r. cbn [resume].
      change (fun n => Env.script (a :: rest) d (S n))
        with (Env.script rest d).
      change (Env.script (a :: rest) d 0%nat U c) with s.
      rewrite (run_app Op (k s) (Env.script rest d) v ([] ++ _)).
      rewrite (run_resume Op (k s) (Env.script rest d) v []).
      rewrite (resume_app Op (Env.script rest d) _
                 (snd (fst (advance Op v [] (k s))))).
      cbn [fst snd]. now rewrite <- !app_assoc.
Qed.

End OperationWins.

(** The machine after the operation ran to its end with the timer
    pending. *)
Lemma withTimeout_run {T R : Type} (onTimeout : option (Proc unit))
    (on_value : T -> Proc R) (on_throw : Js.Error -> Proc R)
    (answers : list Answer) (d : Answer) (v : Vars) (tr0 : list Event)
    (op : Proc T) (ms : Z) :
  let env := Env.script answers d in
  (awaits env v op <= List.length answers)%nat ->
  let r := run Op env v [] op in
  let first := snd (fst (advance Op v [] op)) in
  exists rest,
    snd (fst r) = first ++ rest
    /\ steps onTimeout on_value on_throw (map StepOp answers)
         (withTimeout on_value on_throw v tr0 op ms)
       = race_settled on_value on_throw
           (mkMachine (fst (fst r))
              (tr0 ++ first ++ [EvSetTimeout ms] ++ rest)
              (ended_as (snd r)) TArmed MAwait)
           (settled_as (snd r)).
Proof.
  intros env Hn r first.
  exists (snd (fst (resume Op env (fst (fst (advance Op v [] op))) []
                      (snd (advance Op v [] op))))).
  split.
  - subst r first. rewrite (run_resume Op op env v []).
    now rewrite (resume_app Op env _ (snd (fst (advance Op v [] op)))).
  - unfold withTimeout. rewrite (advance_app Op op v tr0).
    cbn [fst snd]. fold first. rewrite <- app_assoc.
    etransitivity.
    { apply drive_op; [apply advance_blocked|].
      rewrite <- (awaits_advance Op op (Env.script answers d) v []). exact Hn. }
    subst r. rewrite (run_resume Op op env v []).
    rewrite (resume_app Op env _ (snd (fst (advance Op v [] op)))).
    cbn [fst snd]. now rewrite <- !app_assoc.
Qed.

(** When the operation runs to its end before the timer fires,
    [withTimeout] is transparent: the operation runs as it would on its
    own, the timer is set after its first task and cleared when it ends,
    [onTimeout] is not invoked, and the caller goes on with the value the
    operation returned, or catches the error it threw. *)
Theorem withTimeout_transparent {T R : Type} (onTimeout : option (Proc unit))
    (on_value : T -> Proc R) (on_throw : Js.Error -> Proc R)
    (answers : list Answer) (d : Answer) (v : Vars) (tr0 : list Event)
    (op : Proc T) (ms : Z) :
  let env := Env.script answers d in
  (awaits env v op <= List.length answers)%nat ->
  let m := steps onTimeout on_value on_throw (map StepOp answers)
             (withTimeout on_value on_throw v tr0 op ms) in
  let r := run Op env v [] op in
  let first := snd (fst (advance Op v [] op)) in
  let c := advance Main (fst (fst r)) []
             (match snd r with inl x => on_value x | inr e => on_throw e end) in
  m_op m = ended_as (snd r)
  /\ m_timer m = TCleared
  /\ m_vars m = fst (fst c)
  /\ m_main m = main_state (snd c)
  /\ exists rest,
       snd (fst r) = first ++ rest
       /\ m_trace m
          = tr0 ++ first ++ [EvSetTimeout ms] ++ rest
              ++ [EvRaceSettled (fulfilled (settled_as (snd r))); EvClearTimeout]
              ++ snd (fst c).
Proof.
  intros env Hn m r first c.
  destruct (withTimeout_run onTimeout on_value on_throw answers d v tr0 op ms Hn)
    as (rest & Hr & Hm).
  subst m c r env. set (r := run Op (Env.script answers d) v [] op) in *.
  rewrite Hm. unfold race_settled.
  cbn [m_main m_timer m_trace m_vars m_op].
  rewrite advance_app. cbn [fst snd].
  assert (Ec : (match settled_as (snd r) with
                | Fulfilled x => on_value x
                | Rejected e => on_throw e
                end)
               = match snd r with inl x => on_value x | inr e => on_throw e end)
    by now destruct (snd r).
  rewrite Ec. repeat split.
  exists rest. split; [exact Hr|]. now rewrite <- !app_assoc.
Qed.

(** ** Exactly one close when the timer does not fire *)

Lemma advance_EndsSt {A : Type} (who : Thread) (p : Proc A) :
  forall (Q : Vars -> nat -> A + Js.Error -> Prop) v n,
    EndsSt Q v n p ->
    Blocked Q (fst (fst (advance who v [] p)))
      (n + count is_close_call (snd (fst (advance who v [] p))))
      (snd (advance who v [] p)).
Proof.
  induction p as [a|e|T c k IH|k IH|f k IH|e k IH]; intros Q v n Hp;
    cbn in *.
  - unfold count. cbn. now rewrite Nat.add_0_r.
  - unfold count. cbn. now rewrite Nat.add_0_r.
  - intros r. specialize (Hp r). unfold closes in Hp.
    unfold count. cbn. now destruct (name_of c).
  - apply IH, Hp.
  - apply IH, Hp.
  - rewrite advance_app. cbn [fst snd]. rewrite count_app.
    unfold count at 1. cbn. apply IH, Hp.
Qed.

Section TraceGrows.

Context {T R : Type}.
Variable onTimeout : option (Proc unit).
Variable on_value : T -> Proc R.
Variable on_throw : Js.Error -> Proc R.

Lemma race_settled_extends (m : Machine T R) (r : Settled T) :
  exists evs, m_trace (race_settled on_value on_throw m r) = m_trace m ++ evs.
Proof.
  destruct (race_settled_trace on_value on_throw m r) as (evs & E & _).
  eauto.
Qed.

Lemma op_progress_extends (m : Machine T R) :
  exists evs, m_trace (op_progress on_value on_throw m) = m_trace m ++ evs.
Proof.
  unfold op_progress. destruct (m_op m); try apply race_settled_extends;
    exists []; now rewrite app_nil_r.
Qed.

Lemma reject_timeout_extends (m : Machine T R) :
  exists evs, m_trace (reject_timeout on_value on_throw m) = m_trace m ++ evs.
Proof.
  unfold reject_timeout.
  destruct (race_settled_extends
              (mkMachine (m_vars m) (m_trace m ++ [EvRejectTimeout]) (m_op m)
                 TRejected (m_main m))
              (Rejected (Js.mkError "Timeout"))) as (evs & E).
  rewrite E. cbn. rewrite <- app_assoc. eauto.
Qed.

Lemma timer_progress_extends (m : Machine T R) (p : Proc unit) :
  exists evs,
    m_trace (timer_progress on_value on_throw m p) = m_trace m ++ evs.
Proof.
  assert (H : exists evs,
            m_trace (reject_timeout on_value on_throw
                       (mkMachine (m_vars m) (m_trace m ++ [EvOnTimeoutSettled])
                          (m_op m) (m_timer m) (m_main m)))
            = m_trace m ++ evs).
  { destruct (reject_timeout_extends
                (mkMachine (m_vars m) (m_trace m ++ [EvOnTimeoutSettled])
                   (m_op m) (m_timer m) (m_main m))) as (evs & E).
    rewrite E. cbn. rewrite <- app_assoc. eauto. }
  destruct p; cbn [timer_progress m_trace]; auto;
    exists []; now rewrite app_nil_r.
Qed.

Lemma step_extends (ch : Choice) (m : Machine T R) :
  exists evs,
    m_trace (step onTimeout on_value on_throw ch m) = m_trace m ++ evs
    /\ (ch = Fire -> m_timer m = TArmed -> In EvTimerFired evs).
Proof.
  destruct ch as [a| |a|a]; cbn [step].
  - destruct (m_op m) as [x|e|U c k|k|f k|e k];
      try (exists []; rewrite app_nil_r; split; [reflexivity|discriminate]).
    rewrite advance_app. cbn [fst snd].
    destruct (op_progress_extends
                (mkMachine (fst (fst (advance Op (m_vars m) [] (k (a U c)))))
                   ((m_trace m ++ [EvSettle Op (name_of c) (fulfilled (a U c))])
                      ++ snd (fst (advance Op (m_vars m) [] (k (a U c)))))
                   (snd (advance Op (m_vars m) [] (k (a U c))))
                   (m_timer m) (m_main m))) as (evs & E).
    rewrite E. cbn [m_trace]. rewrite <- !app_assoc.
    eexists. split; [reflexivity|discriminate].
  - destruct (m_timer m) eqn:Et;
      try (exists []; rewrite app_nil_r; split; [reflexivity|discriminate]).
    destruct onTimeout as [cb|].
    + rewrite advance_app. cbn [fst snd].
      destruct (timer_progress_extends
                  (mkMachine (fst (fst (advance Timer (m_vars m) [] cb)))
                     ((m_trace m ++ [EvTimerFired; EvOnTimeoutCalled])
                        ++ snd (fst (advance Timer (m_vars m) [] cb)))
                     (m_op m) TArmed (m_main m))
                  (snd (advance Timer (m_vars m) [] cb))) as (evs & E).
      rewrite E. cbn [m_trace]. rewrite <- !app_assoc.
      eexists. split; [reflexivity|]. intros _ _. cbn. auto.
    + destruct (reject_timeout_extends
                  (mkMachine (m_vars m) (m_trace m ++ [EvTimerFired]) (m_op m)
                     TArmed (m_main m))) as (evs & E).
      rewrite E. cbn [m_trace]. rewrite <- !app_assoc.
      eexists. split; [reflexivity|]. intros _ _. cbn. auto.
  - destruct (m_timer m) as [|p| |];
      try (exists []; rewrite app_nil_r; split; [reflexivity|discriminate]).
    destruct p as [x|e|U c k|k|f k|e k];
      try (exists []; rewrite app_nil_r; split; [reflexivity|discriminate]).
    rewrite advance_app. cbn [fst snd].
    destruct (timer_progress_extends
                (mkMachine (fst (fst (advance Timer (m_vars m) [] (k (a U c)))))
                   ((m_trace m ++ [EvSettle Timer (name_of c) (fulfilled (a U c))])
                      ++ snd (fst (advance Timer (m_vars m) [] (k (a U c)))))
                   (m_op m) (TRunning (Await c k)) (m_main m))
                (snd (advance Timer (m_vars m) [] (k (a U c))))) as (evs & E).
    rewrite E. cbn [m_trace]. rewrite <- !app_assoc.
    eexists. split; [reflexivity|discriminate].
  - destruct (m_main m) as [|p|r|e];
      try (exists []; rewrite app_nil_r; split; [reflexivity|discriminate]).
    destruct p as [x|e|U c k|k|f k|e k];
      try (exists []; rewrite app_nil_r; split; [reflexivity|discriminate]).
    rewrite advance_app. cbn [fst snd m_trace]. rewrite <- !app_assoc.
    eexists. split; [reflexivity|discriminate].
Qed.

End TraceGrows.

Section NoTimeout.

Context {T R : Type}.
Variable G : Vars -> nat -> Prop.
Variable onTimeout : option (Proc unit).
Variable on_value : T -> Proc R.
Variable on_throw : Js.Error -> Proc R.

Lemma main_state_unfired (v : Vars) (n : nat) (p : Proc R) :
  Blocked (fun v2 n2 _ => G v2 n2) v n p ->
  match main_state p with
  | MAwait => False
  | MRun q => Blocked (fun v2 n2 _ => G v2 n2) v n q
  | MDone _ | MFailed _ => G v n
  end.
Proof. destruct p; cbn; auto. Qed.

Lemma settle_unfired (tr0 evs : list Event) (v : Vars) (op : Proc T)
    (t : TimerState) (r : Settled T) :
  timer_idle t -> has_ended op ->
  EndsSt (fun v2 n2 _ => G v2 n2) v (count is_close_call evs)
    (match r with Fulfilled x => on_value x | Rejected e => on_throw e end) ->
  Unfired G on_value on_throw tr0
    (race_settled on_value on_throw (mkMachine v (tr0 ++ evs) op t MAwait) r).
Proof.
  intros Ht Hop Hp. unfold race_settled.
  cbn [m_main m_timer m_trace m_vars m_op].
  rewrite advance_app. cbn [fst snd]. rewrite <- !app_assoc.
  eexists. split; [reflexivity|]. right. cbn [m_timer m_main m_vars m_op].
  split; [now destruct t|]. cbn zeta.
  apply (advance_EndsSt Main) in Hp.
  rewrite !count_app. unfold count at 2. cbn [filter is_close_call List.length].
  rewrite Nat.add_0_l.
  apply main_state_unfired in Hp.
  destruct (main_state _); auto; contradiction.
Qed.

Lemma op_progress_unfired (tr0 evs : list Event) (v : Vars) (op : Proc T)
    (t : TimerState) :
  timer_idle t ->
  Blocked
    (fun v' n' r =>
       EndsSt (fun v2 n2 _ => G v2 n2) v' n'
         (match r with inl x => on_value x | inr e => on_throw e end))
    v (count is_close_call evs) op ->
  Unfired G on_value on_throw tr0
    (op_progress on_value on_throw (mkMachine v (tr0 ++ evs) op t MAwait)).
Proof.
  intros Ht Hop. unfold op_progress. cbn [m_op].
  destruct op as [x|e|U c k|k|f k|e k]; try contradiction.
  - apply settle_unfired; cbn; auto.
  - apply settle_unfired; cbn; auto.
  - exists evs. split; [reflexivity|]. right. cbn. auto.
Qed.

Lemma step_Unfired (tr0 : list Event) (ch : Choice) (m : Machine T R) :
  Unfired G on_value on_throw tr0 m ->
  Unfired G on_value on_throw tr0 (step onTimeout on_value on_throw ch m).
Proof.
  intros (evs & E & [Hf|[Ht HJ]]).
  - destruct (step_extends onTimeout on_value on_throw ch m) as (evs' & E' & _).
    exists (evs ++ evs'). rewrite E', E, app_assoc. split; [reflexivity|].
    left. apply in_or_app. auto.
  - assert (Hsame : Unfired G on_value on_throw tr0 m).
    { exists evs. auto. }
    destruct m as [v tr op t mn]. cbn in E, Ht, HJ. subst tr.
    destruct ch as [a| |a|a]; cbn [step m_vars m_trace m_op m_timer m_main].
    + destruct op as [x|e|U c k|k|f k|e k]; auto.
      destruct mn as [|p|r|e]; try (destruct HJ as [[] _]).
      cbn in HJ. specialize (HJ (a U c)).
      apply (advance_EndsSt Op) in HJ.
      rewrite advance_app. cbn [fst snd]. rewrite <- !app_assoc.
      apply op_progress_unfired; [exact Ht|].
      rewrite !count_app. unfold count at 2.
      cbn [filter is_close_call List.length]. rewrite Nat.add_0_l. exact HJ.
    + destruct t; try contradiction; auto.
      destruct (step_extends onTimeout on_value on_throw Fire
                  (mkMachine v (tr0 ++ evs) op TArmed mn)) as (evs' & E' & Hin).
      cbn [step m_vars m_trace m_op m_timer m_main] in E'.
      exists (evs ++ evs'). rewrite E', app_assoc. split; [reflexivity|].
      left. apply in_or_app. right. now apply Hin.
    + destruct t; try contradiction; auto.
    + destruct mn as [|p|r|e]; auto.
      destruct p as [x|e|U c k|k|f k|e k]; auto.
      destruct HJ as [Hop Hk]. cbn in Hk. specialize (Hk (a U c)).
      apply (advance_EndsSt Main) in Hk.
      rewrite advance_app. cbn [fst snd]. rewrite <- !app_assoc.
      eexists. split; [reflexivity|]. right. cbn [m_timer m_main m_vars m_op].
      split; [exact Ht|]. cbn zeta.
      rewrite !count_app. unfold count at 2.
      cbn [filter is_close_call List.length]. rewrite Nat.add_0_l.
      apply main_state_unfired in Hk.
      destruct (main_state _); auto. contradiction.
Qed.

Lemma steps_Unfired (tr0 : list Event) (sched : list Choice) (m : Machine T R) :
  Unfired G on_value on_throw tr0 m ->
  Unfired G on_value on_throw tr0 (steps onTimeout on_value on_throw sched m).
Proof.
  revert m. induction sched as [|ch sched IH]; intros m H; cbn; [exact H|].
  apply IH, step_Unfired, H.
Qed.

Lemma withTimeout_Unfired (v : Vars) (tr0 : list Event) (op : Proc T) (ms : Z) :
  EndsSt
    (fun v' n' r =>
       EndsSt (fun v2 n2 _ => G v2 n2) v' n'
         (match r with inl x => on_value x | inr e => on_throw e end))
    v 0 op ->
  Unfired G on_value on_throw tr0 (withTimeout on_value on_throw v tr0 op ms).
Proof.
  intros Hop. unfold withTimeout. rewrite advance_app. cbn [fst snd].
  apply (advance_EndsSt Op) in Hop. rewrite <- app_assoc.
  apply op_progress_unfired; [exact I|].
  rewrite count_app. unfold count at 2. cbn [filter is_close_call List.length].
  now rewrite Nat.add_0_r.
Qed.

End NoTimeout.

Lemma cleanup_closes {A : Type} (Q : Vars -> nat -> A + Js.Error -> Prop)
    (v : Vars) (n : nat) (k : Proc A) :
  (pageClosed v = true \/ browser v = None -> EndsSt Q v n k) ->
  (forall b, pageClosed v = false -> browser v = Some b ->
             EndsSt Q v (n + 1) k /\ EndsSt Q (set_pageClosed v) (n + 1) k) ->
  EndsSt Q v n (cleanup ;; k).
Proof.
  intros H1 H2. unfold cleanup. cbn.
  destruct (pageClosed v) eqn:Ec; [cbn; auto|].
  destruct (browser v) as [b|] eqn:Eb; [|cbn; auto].
  destruct (H2 b eq_refl eq_refl) as [H3 H4].
  cbn. intros [[]|e]; cbn; auto.
Qed.

Lemma catch_closes (debug : bool) (e : Js.Error) (v : Vars) :
  pageClosed v = false ->
  EndsSt (fun v2 n2 (_ : Response + Js.Error) => closed_once v2 n2) v 0
    (handler_catch debug e).
Proof.
  intros Hv. unfold handler_catch. cbn [EndsSt].
  assert (H : forall code body,
            EndsSt (fun v2 n2 (_ : Response + Js.Error) => closed_once v2 n2)
              v 0 (cleanup ;; send code body)).
  { intros code body. apply cleanup_closes.
    - intros [Hc|Hb]; [congruence|]. cbn. unfold closed_once. now rewrite Hb.
    - intros b _ Hb. cbn. unfold closed_once. cbn. now rewrite Hb. }
  destruct (_ || _); [|destruct (String.eqb _ _)]; try apply H.
  destruct debug; apply H.
Qed.

Lemma operation_closes (url : string) (debug : bool) :
  EndsSt
    (fun v' n' r =>
       EndsSt (fun v2 n2 (_ : Response + Js.Error) => closed_once v2 n2) v' n'
         (match r with inl x => send 200 x | inr e => handler_catch debug e end))
    initial_vars 0 (operation url debug).
Proof.
  assert (Hc : forall (b : Browser) (body : Body),
            EndsSt
              (fun v' n' r =>
                 EndsSt (fun v2 n2 (_ : Response + Js.Error) => closed_once v2 n2)
                   v' n'
                   (match r with
                    | inl x => send 200 x
                    | inr e => handler_catch debug e
                    end))
              (mkVars (Some b) false) 0 (cleanup ;; Ret body)).
  { intros b body. apply cleanup_closes.
    - cbn. intros [H|H]; discriminate.
    - intros b' _ _. cbn. unfold closed_once. cbn. auto. }
  unfold operation. cbn -[handler_catch cleanup extract].
  intros [b|e]; cbn -[handler_catch cleanup extract];
    [|now apply catch_closes].
  intros [c|e]; cbn -[handler_catch cleanup extract];
    [|now apply catch_closes].
  intros [p|e]; cbn -[handler_catch cleanup extract];
    [|now apply catch_closes].
  assert (Hrest : EndsSt
            (fun v' n' r =>
               EndsSt (fun v2 n2 (_ : Response + Js.Error) => closed_once v2 n2)
                 v' n'
                 (match r with
                  | inl x => send 200 x
                  | inr e => handler_catch debug e
                  end))
            (mkVars (Some b) false) 0
            (if debug
             then html <- await (page_content p) ;; cleanup ;;
                  Ret (DebugSuccess html 200)
             else d <- await (page_evaluate p) ;;
                  (let '(title, metaDescription, h1) := extract d in
                   cleanup ;; Ret (SuccessResponse title metaDescription h1 200)))).
  { destruct debug; cbn -[handler_catch cleanup extract].
    - intros [html|e]; cbn -[handler_catch cleanup extract];
        [apply Hc|now apply catch_closes].
    - intros [d|e]; cbn -[handler_catch cleanup extract];
        [|now apply catch_closes].
      destruct (extract d) as [[t m] h1]. apply Hc. }
  intros [x|e]; cbn -[handler_catch cleanup extract]; [exact Hrest|].
  intros _ [x|e']; cbn -[handler_catch cleanup extract];
    [exact Hrest|now apply catch_closes].
Qed.

Lemma close_is_renderer_call (e : Event) :
  is_close_call e = true -> is_renderer_call e = true.
Proof. destruct e as [w c|w c ok|w e| | | | | | |]; try discriminate. now destruct c. Qed.

(** When the timer has not fired by the time the handler is done, the
    handler has called [browser.close()] exactly once if a browser was
    launched, and not at all otherwise: whatever the request, the answers
    of the calls and the schedule, and whether the operation returned or
    threw. *)
Theorem closed_once_without_timeout (isIP : string -> Z)
    (parseURL : string -> option URL) (env : nat -> Answer)
    (sched : list Choice) (req : Request) (r : Response) :
  let o := handler isIP parseURL env sched req in
  out_main o = MDone r ->
  filter is_timer_event (out_trace o) = [] ->
  count is_close_call (out_trace o)
  = match browser (out_vars o) with Some _ => 1%nat | None => 0%nat end.
Proof.
  cbn zeta.
  destruct (run_entry_cases isIP parseURL env req) as (tr & res & Hrun & Hc & _).
  assert (Hg : count is_close_call tr = 0%nat).
  { pose proof (count_le is_close_call is_renderer_call tr close_is_renderer_call).
    lia. }
  unfold handler. rewrite Hrun.
  destruct res as [resp|[url debug]]; cbn [out_trace out_main out_vars].
  - intros _ _. exact Hg.
  - intros Hm Hf.
    assert (HU : Unfired closed_once (send 200) (handler_catch debug) tr
                   (handler_steps debug sched (handler_race tr url debug))).
    { unfold handler_steps, handler_race. apply steps_Unfired.
      apply withTimeout_Unfired. apply operation_closes. }
    destruct HU as (evs & E & [Hin|[_ HJ]]).
    + exfalso. rewrite E, filter_app in Hf. apply app_eq_nil in Hf as [_ Hf].
      assert (Hin' : In EvTimerFired (filter is_timer_event evs))
        by (apply filter_In; auto).
      rewrite Hf in Hin'. destruct Hin'.
    + rewrite Hm in HJ. cbn zeta in HJ. destruct HJ as [_ HG].
      unfold closed_once in HG. rewrite E, count_app, Hg. exact HG.
Qed.

(** ** The handler end to end *)




(** ** The flag tracks the closes *)

Lemma flag_ok_app (v : Vars) (tr evs : list Event) :
  count is_close_done evs = 0%nat -> flag_ok v tr -> flag_ok v (tr ++ evs).
Proof. unfold flag_ok. intros H0 H. now rewrite count_app, H0, Nat.add_0_r. Qed.

Lemma flag_due_app (owed : bool) (v : Vars) (tr evs : list Event) :
  count is_close_done evs = 0%nat ->
  flag_due owed v tr -> flag_due owed v (tr ++ evs).
Proof.
  destruct owed; cbn; [|apply flag_ok_app].
  intros H0 H. rewrite count_app. lia.
Qed.

Lemma flag_due_settle {U : Type} (who : Thread) (c : Call U) (r : Settled U)
    (v : Vars) (tr : list Event) :
  flag_ok v tr ->
  flag_due (is_close_name (name_of c) && fulfilled r) v
    (tr ++ [EvSettle who (name_of c) (fulfilled r)]).
Proof.
  intros H. destruct (name_of c), (fulfilled r); cbn;
    try (apply flag_ok_app; [reflexivity|exact H]).
  rewrite count_app. unfold count at 2. cbn. lia.
Qed.

Lemma advance_flag {A : Type} (who : Thread) (p : Proc A) :
  forall owed v tr,
    Flag owed p -> flag_due owed v tr ->
    flag_ok (fst (fst (advance who v tr p))) (snd (fst (advance who v tr p)))
    /\ Flag false (snd (advance who v tr p)).
Proof.
  induction p as [a|e|T c k IH|k IH|f k IH|e k IH]; intros owed v tr Hp Hd;
    cbn in *.
  - subst owed. auto.
  - subst owed. auto.
  - destruct Hp as [-> Hk]. split; [|auto].
    apply flag_ok_app; [reflexivity|exact Hd].
  - eapply IH; eauto.
  - destruct Hp as [Hf Hk]. apply (IH false); [exact Hk|].
    destruct owed; cbn in *.
    + unfold flag_ok. rewrite Hf. tauto.
    + unfold flag_ok in *. now rewrite Hf.
  - apply (IH owed); [exact Hp|]. apply flag_due_app; [reflexivity|exact Hd].
Qed.

Lemma run_flag {A : Type} (who : Thread) (p : Proc A) :
  forall owed env v tr,
    Flag owed p -> flag_due owed v tr ->
    flag_ok (fst (fst (run who env v tr p))) (snd (fst (run who env v tr p))).
Proof.
  induction p as [a|e|T c k IH|k IH|f k IH|e k IH];
    intros owed env v tr Hp Hd; cbn in *.
  - now subst owed.
  - now subst owed.
  - destruct Hp as [-> Hk].
    eapply IH; [apply Hk|].
    change (tr ++ [EvCall who (name_of c);
                   EvSettle who (name_of c) (fulfilled (env 0%nat T c))])
      with (tr ++ [EvCall who (name_of c)]
               ++ [EvSettle who (name_of c) (fulfilled (env 0%nat T c))]).
    rewrite app_assoc. apply flag_due_settle.
    apply flag_ok_app; [reflexivity|exact Hd].
  - eapply IH; eauto.
  - destruct Hp as [Hf Hk]. apply (IH false); [exact Hk|].
    destruct owed; cbn in *.
    + unfold flag_ok. rewrite Hf. tauto.
    + unfold flag_ok in *. now rewrite Hf.
  - apply (IH owed); [exact Hp|]. apply flag_due_app; [reflexivity|exact Hd].
Qed.

Section RaceFlag.

Context {T R : Type}.
Variable onTimeout : option (Proc unit).
Variable on_value : T -> Proc R.
Variable on_throw : Js.Error -> Proc R.

Hypothesis F_onTimeout : forall cb, onTimeout = Some cb -> Flag false cb.
Hypothesis F_value : forall x, Flag false (on_value x).
Hypothesis F_throw : forall e, Flag false (on_throw e).

Lemma MFlag_make (v : Vars) (tr : list Event) (op : Proc T) (t : TimerState)
    (mn : MainState R) :
  flag_ok v tr -> Flag false op ->
  (forall p, t = TRunning p -> Flag false p) ->
  (forall p, mn = MRun p -> Flag false p) ->
  MFlag (mkMachine v tr op t mn).
Proof. intros. unfold MFlag. cbn. auto. Qed.

Lemma main_state_flag (p : Proc R) :
  Flag false p -> forall q, main_state p = MRun q -> Flag false q.
Proof. intros Hp q. destruct p; cbn; intros E; inversion E; subst; exact Hp. Qed.

Lemma MFlag_race_settled (m : Machine T R) (r : Settled T) :
  MFlag m -> MFlag (race_settled on_value on_throw m r).
Proof.
  destruct m as [v tr op t mn]. intros (Hf & Hop & Htm & Hmn). cbn in *.
  unfold race_settled. cbn [m_main m_timer m_trace m_vars m_op].
  destruct mn as [|p0|r0|e0]; [|apply MFlag_make; auto..].
  set (p := match r with Fulfilled x => on_value x | Rejected e => on_throw e end).
  assert (Hp : Flag false p) by (subst p; destruct r; auto).
  destruct (advance_flag Main p false v
              (tr ++ [EvRaceSettled (fulfilled r); EvClearTimeout]) Hp)
    as [H1 H2].
  { apply flag_ok_app; [reflexivity|exact Hf]. }
  destruct (advance Main v _ p) as [[v' tr'] p']. cbn in *.
  apply MFlag_make; auto.
  - intros q Hq. destruct t; try discriminate; auto.
  - now apply main_state_flag.
Qed.

Lemma MFlag_op_progress (m : Machine T R) :
  MFlag m -> MFlag (op_progress on_value on_throw m).
Proof.
  intros H. unfold op_progress. destruct (m_op m); auto using MFlag_race_settled.
Qed.

Lemma MFlag_timer_progress (v : Vars) (tr : list Event) (op : Proc T)
    (t : TimerState) (mn : MainState R) (p : Proc unit) :
  flag_ok v tr -> Flag false op -> Flag false p ->
  (forall q, mn = MRun q -> Flag false q) ->
  MFlag (timer_progress on_value on_throw (mkMachine v tr op t mn) p).
Proof.
  intros Hf Hop Hp Hmn.
  assert (Hrej : MFlag
            (reject_timeout on_value on_throw
               (mkMachine v (tr ++ [EvOnTimeoutSettled]) op t mn))).
  { unfold reject_timeout. apply MFlag_race_settled. cbn.
    apply MFlag_make; auto; [|discriminate].
    rewrite <- app_assoc. apply flag_ok_app; [reflexivity|exact Hf]. }
  destruct p; cbn [timer_progress m_vars m_trace m_op m_timer m_main]; auto;
    apply MFlag_make; auto; intros q Hq; injection Hq as <-; exact Hp.
Qed.

Lemma step_MFlag (ch : Choice) (m : Machine T R) :
  MFlag m -> MFlag (step onTimeout on_value on_throw ch m).
Proof.
  intros Hm. pose proof Hm as Hm0.
  destruct m as [v tr op t mn].
  destruct Hm as (Hf & Hop & Htm & Hmn). cbn in *.
  destruct ch as [a| |a|a]; cbn [step m_vars m_trace m_op m_timer m_main].
  - destruct op as [x|e|U c k|k|f k|e k]; auto.
    destruct Hop as [_ Hk].
    destruct (advance_flag Op (k (a U c)) _ v
                (tr ++ [EvSettle Op (name_of c) (fulfilled (a U c))])
                (Hk (a U c)) (flag_due_settle Op c (a U c) v tr Hf))
      as [H1 H2].
    destruct (advance Op v _ (k (a U c))) as [[v' tr'] p']. cbn in *.
    apply MFlag_op_progress. apply MFlag_make; auto.
  - destruct t; auto.
    destruct onTimeout as [cb|] eqn:Ecb.
    + destruct (advance_flag Timer cb false v
                  (tr ++ [EvTimerFired; EvOnTimeoutCalled])
                  (F_onTimeout cb eq_refl)) as [H1 H2].
      { apply flag_ok_app; [reflexivity|exact Hf]. }
      destruct (advance Timer v _ cb) as [[v' tr'] p']. cbn in *.
      apply MFlag_timer_progress; auto.
    + unfold reject_timeout. apply MFlag_race_settled. cbn.
      apply MFlag_make; auto; [|discriminate].
      rewrite <- app_assoc. apply flag_ok_app; [reflexivity|exact Hf].
  - destruct t as [|p| |]; auto.
    destruct p as [x|e|U c k|k|f k|e k]; auto.
    destruct (Htm _ eq_refl) as [_ Hk].
    destruct (advance_flag Timer (k (a U c)) _ v
                (tr ++ [EvSettle Timer (name_of c) (fulfilled (a U c))])
                (Hk (a U c)) (flag_due_settle Timer c (a U c) v tr Hf))
      as [H1 H2].
    destruct (advance Timer v _ (k (a U c))) as [[v' tr'] p']. cbn in *.
    apply MFlag_timer_progress; auto.
  - destruct mn as [|p|r|e]; auto.
    destruct p as [x|e|U c k|k|f k|e k]; auto.
    destruct (Hmn _ eq_refl) as [_ Hk].
    destruct (advance_flag Main (k (a U c)) _ v
                (tr ++ [EvSettle Main (name_of c) (fulfilled (a U c))])
                (Hk (a U c)) (flag_due_settle Main c (a U c) v tr Hf))
      as [H1 H2].
    destruct (advance Main v _ (k (a U c))) as [[v' tr'] p']. cbn in *.
    apply MFlag_make; auto.
    now apply main_state_flag.
Qed.

Lemma steps_MFlag (sched : list Choice) (m : Machine T R) :
  MFlag m -> MFlag (steps onTimeout on_value on_throw sched m).
Proof.
  revert m. induction sched as [|ch sched IH]; intros m H; cbn; [exact H|].
  apply IH, step_MFlag, H.
Qed.

Lemma withTimeout_MFlag (v : Vars) (tr0 : list Event) (op : Proc T) (ms : Z) :
  flag_ok v tr0 -> Flag false op ->
  MFlag (withTimeout on_value on_throw v tr0 op ms).
Proof.
  intros Hf Hop. unfold withTimeout.
  destruct (advance_flag Op op false v tr0 Hop Hf) as [H1 H2].
  destruct (advance Op v tr0 op) as [[v' tr'] p']. cbn in *.
  apply MFlag_op_progress. apply MFlag_make; auto; try discriminate.
  apply flag_ok_app; [reflexivity|exact H1].
Qed.

End RaceFlag.

Lemma Flag_bind {A B : Type} (p : Proc A) (g : A -> Proc B) :
  forall owed, Flag owed p -> (forall a, Flag false (g a)) -> Flag owed (bind p g).
Proof.
  induction p as [a|e|T c k IH|k IH|f k IH|e k IH]; intros owed Hp Hg;
    cbn in *; auto.
  - subst owed. apply Hg.
  - destruct Hp; auto.
  - destruct Hp; auto.
Qed.

Lemma Flag_try_catch {A : Type} (p : Proc A) (h : Js.Error -> Proc A) :
  forall owed,
    Flag owed p -> (forall e, Flag false (h e)) -> Flag owed (try_catch p h).
Proof.
  induction p as [a|e|T c k IH|k IH|f k IH|e k IH]; intros owed Hp Hh;
    cbn in *; auto.
  - subst owed. apply Hh.
  - destruct Hp; auto.
  - destruct Hp; auto.
Qed.

Lemma Flag_await {U : Type} (c : Call U) :
  is_close_name (name_of c) = false -> Flag false (await c).
Proof. intros H. cbn. rewrite H. split; auto. now intros [x|e]. Qed.

Lemma Flag_cleanup : Flag false cleanup.
Proof.
  unfold cleanup. apply Flag_try_catch; [|reflexivity].
  cbn. intros v. destruct (pageClosed v), (browser v); cbn; auto.
  split; [reflexivity|]. intros [[]|e]; cbn; auto.
Qed.

Lemma Flag_handler_catch (debug : bool) (e : Js.Error) :
  Flag false (handler_catch debug e).
Proof.
  unfold handler_catch. cbn [Flag].
  destruct (_ || _); [|destruct (String.eqb _ _)];
    (apply Flag_bind; [apply Flag_cleanup|intros _]);
    try destruct debug; reflexivity.
Qed.

Lemma Flag_operation (url : string) (debug : bool) :
  Flag false (operation url debug).
Proof.
  unfold operation.
  apply Flag_bind; [now apply Flag_await|]. intros b. cbn [Flag].
  split; [reflexivity|].
  apply Flag_bind; [now apply Flag_await|]. intros c.
  apply Flag_bind; [now apply Flag_await|]. intros p. cbn [Flag].
  apply Flag_bind.
  { unfold navigate. cbn. split; [reflexivity|].
    intros [x|e]; cbn; auto. split; [reflexivity|].
    intros _. split; [reflexivity|]. now intros [x|e']. }
  intros _. destruct debug.
  - apply Flag_bind; [now apply Flag_await|]. intros html.
    apply Flag_bind; [apply Flag_cleanup|reflexivity].
  - apply Flag_bind; [now apply Flag_await|]. intros d.
    destruct (extract d) as [[t m] h1].
    apply Flag_bind; [apply Flag_cleanup|reflexivity].
Qed.

Lemma Flag_entry (isIP : string -> Z) (parseURL : string -> option URL)
    (req : Request) :
  Flag false (handler_entry isIP parseURL req).
Proof.
  unfold handler_entry.
  destruct (negb _); [reflexivity|]. cbn zeta.
  destruct (query_first _) as [url|]; [|reflexivity].
  destruct (_ || _); [reflexivity|].
  apply Flag_bind.
  - unfold isHostAllowed. apply Flag_try_catch; [|reflexivity].
    destruct (parseURL url) as [u|]; [|reflexivity]. cbn zeta.
    destruct (String.eqb _ _); [reflexivity|].
    destruct (String.eqb _ _); [reflexivity|].
    cbn. split; [reflexivity|]. intros [addrs|e]; cbn; auto.
    destruct (Nat.eqb _ _); [reflexivity|]. now destruct (scan_addrs _ _).
  - intros b. destruct (negb b); reflexivity.
Qed.

(** In every state of every run of the handler, the flag [pageClosed] is
    set exactly when a call of [browser.close()] has fulfilled: the flag
    is never set for a close that threw or is still pending, and a close
    that fulfilled is recorded before any other code runs. *)
Theorem flag_tracks_close (isIP : string -> Z)
    (parseURL : string -> option URL) (env : nat -> Answer)
    (sched : list Choice) (req : Request) :
  let o := handler isIP parseURL env sched req in
  pageClosed (out_vars o) = true
  <-> (1 <= count is_close_done (out_trace o))%nat.
Proof.
  cbn zeta.
  assert (H0 : flag_ok initial_vars []).
  { unfold flag_ok, count. cbn. split; [discriminate|lia]. }
  pose proof (run_flag Main _ false env initial_vars []
                (Flag_entry isIP parseURL req) H0) as He.
  destruct (run_entry_cases isIP parseURL env req) as (tr & res & Hrun & _).
  unfold handler. rewrite Hrun in *. cbn [fst snd] in He.
  destruct res as [r|[url debug]]; cbn [out_trace out_vars]; [exact He|].
  assert (HM : MFlag (handler_steps debug sched (handler_race tr url debug))).
  { unfold handler_steps, handler_race. apply steps_MFlag.
    - intros cb E. injection E as <-. apply Flag_cleanup.
    - intros x. reflexivity.
    - apply Flag_handler_catch.
    - apply withTimeout_MFlag.
      + intros x. reflexivity.
      + apply Flag_handler_catch.
      + exact He.
      + apply Flag_operation. }
  apply HM.
Qed.

(** ** Where the browser is sent *)

Lemma target_cleanup (url : string) (who : Thread) :
  Safe (target_ok url) who cleanup.
Proof.
  unfold cleanup. apply Safe_try_catch; [|now cbn].
  cbn [Safe]. intros v. destruct (pageClosed v), (browser v); try exact I.
  apply Safe_bind; [|now cbn]. apply Safe_await; cbn; auto.
Qed.

Lemma target_handler_catch (url : string) (debug : bool) (e : Js.Error) :
  Safe (target_ok url) Main (handler_catch debug e).
Proof.
  unfold handler_catch. cbn [Safe]. split; [exact I|].
  destruct (_ || _); [|destruct (String.eqb _ _)];
    (apply Safe_bind; [apply target_cleanup|intros _]);
    try destruct debug; cbn; auto.
Qed.

Lemma target_operation (url : string) (debug : bool) :
  Safe (target_ok url) Op (operation url debug).
Proof.
  unfold operation.
  apply Safe_bind; [apply Safe_await; cbn; auto|].
  intros b. cbn [Safe].
  apply Safe_bind; [apply Safe_await; cbn; auto|].
  intros c.
  apply Safe_bind; [apply Safe_await; cbn; auto|].
  intros p. cbn [Safe]. split; [exact I|]. split; [exact I|].
  apply Safe_bind.
  { unfold navigate. cbn.
    repeat (split || intro
            || match goal with
               | |- context [match ?r with Fulfilled _ => _ | Rejected _ => _ end] =>
                   destruct r; cbn
               end). }
  intros _. destruct debug.
  - apply Safe_bind; [apply Safe_await; cbn; auto|].
    intros html. apply Safe_bind; [apply target_cleanup|now cbn].
  - apply Safe_bind; [apply Safe_await; cbn; auto|].
    intros d. destruct (extract d) as [[t m] h1].
    apply Safe_bind; [apply target_cleanup|now cbn].
Qed.

Lemma renderer_call_absent (e : Event) (tr : list Event) :
  count is_renderer_call tr = 0%nat -> is_renderer_call e = true -> ~ In e tr.
Proof.
  unfold count. intros H0 He Hin.
  assert (H : In e (filter is_renderer_call tr)) by (apply filter_In; auto).
  destruct (filter is_renderer_call tr); [destruct H|discriminate].
Qed.

(** Whatever the request, the answers and the schedule: every
    [page.goto] of the handler goes to the very text of the url parameter
    of the request, for which the host check returned true, and waits for
    the network to be idle; and every browser context is opened with the
    default user agent. *)
Theorem navigates_to_checked_url (isIP : string -> Z)
    (parseURL : string -> option URL) (env : nat -> Answer)
    (sched : list Choice) (req : Request) :
  let tr := out_trace (handler isIP parseURL env sched req) in
  (forall who u w,
     In (EvCall who (CGoto u w)) tr ->
     query_first (query_url req) = Some u
     /\ host_allowed isIP parseURL env u = inl true
     /\ w = "networkidle")
  /\ (forall who ua,
        In (EvCall who (CNewContext ua)) tr -> ua = DEFAULT_USER_AGENT).
Proof.
  cbn zeta.
  destruct (run_entry_cases isIP parseURL env req) as (tr & r & Hrun & Hc & Hr).
  unfold handler. rewrite Hrun.
  destruct r as [resp|[url debug]]; cbn [out_trace].
  - split; intros; exfalso;
      eapply (renderer_call_absent _ tr Hc); eauto; reflexivity.
  - destruct Hr as (Hq & _ & Hhost).
    assert (HS : MSafe (target_ok url) tr
                   (handler_steps debug sched (handler_race tr url debug))).
    { unfold handler_steps, handler_race. apply steps_MSafe.
      - intros e He. destruct e; try discriminate; exact I.
      - intros cb E. injection E as <-. apply target_cleanup.
      - intros x. cbn. auto.
      - apply target_handler_catch.
      - apply withTimeout_MSafe.
        + intros e He. destruct e; try discriminate; exact I.
        + intros x. cbn. auto.
        + apply target_handler_catch.
        + apply target_operation.
        + exact I. }
    destruct HS as ((evs & E & Hevs) & _). rewrite E.
    rewrite Forall_forall in Hevs.
    split.
    + intros who u w Hin. apply in_app_or in Hin as [Hin|Hin].
      * exfalso. eapply (renderer_call_absent _ tr Hc); eauto. reflexivity.
      * destruct (Hevs _ Hin) as [Hu Hw]. cbn in Hu, Hw. rewrite Hu, Hw.
        repeat split; auto. unfold host_allowed. now rewrite Hhost.
    + intros who ua Hin. apply in_app_or in Hin as [Hin|Hin].
      * exfalso. eapply (renderer_call_absent _ tr Hc); eauto. reflexivity.
      * exact (Hevs _ Hin).
Qed.

(** ** The timeout wins the race *)

Lemma timer_first_undecided (l l' : list Event) :
  forallb undecided l = true -> timer_first (l ++ l') = timer_first l'.
Proof.
  induction l as [|e l IH]; [reflexivity|]. cbn.
  intros H. apply andb_true_iff in H as [He Hl].
  destruct e; try discriminate; cbn; auto.
Qed.

Lemma timer_first_none (l : list Event) :
  forallb undecided l = true -> timer_first l = false.
Proof.
  intros H. rewrite <- (app_nil_r l). now rewrite timer_first_undecided.
Qed.

Lemma timer_first_decided (l l' : list Event) :
  forallb undecided l = false -> timer_first (l ++ l') = timer_first l.
Proof.
  induction l as [|e l IH]; [discriminate|]. cbn.
  destruct e; cbn; auto.
Qed.

Lemma decided_app (l l' : list Event) :
  forallb undecided l = false -> forallb undecided (l ++ l') = false.
Proof. intros H. rewrite forallb_app, H. reflexivity. Qed.

Lemma timer_first_settled (l rest : list Event) (ok : bool) :
  timer_first (l ++ EvRaceSettled ok :: rest) = true -> timer_first l = true.
Proof.
  destruct (forallb undecided l) eqn:E.
  - rewrite timer_first_undecided by assumption. discriminate.
  - now rewrite timer_first_decided.
Qed.

Lemma own_events_undecided (who : Thread) (evs : list Event) :
  Forall (fun e => by_thread who e = true /\ is_settle_of who e = false) evs ->
  forallb undecided evs = true.
Proof.
  intros H. apply forallb_forall. intros e He.
  rewrite Forall_forall in H. destruct (H e He) as [Hb _].
  destruct e; cbn in *; try discriminate; reflexivity.
Qed.

Lemma advance_undecided {A : Type} (who : Thread) (p : Proc A) (v : Vars) :
  forallb undecided (snd (fst (advance who v [] p))) = true.
Proof.
  apply (own_events_undecided who). apply (advance_events who p v).
Qed.

Section TimerWins.

Context {T : Type}.
Variable P : Response -> Prop.
Variable onTimeout : option (Proc unit).
Variable on_value : T -> Proc Response.
Variable on_throw : Js.Error -> Proc Response.

Hypothesis W_throw : Answers P (on_throw (Js.mkError "Timeout")).

Lemma settle_won (tr0 evs : list Event) (v : Vars) (op : Proc T)
    (t : TimerState) (r : Settled T) :
  (timer_first evs = true ->
   (match r with Fulfilled x => on_value x | Rejected e => on_throw e end)
   = on_throw (Js.mkError "Timeout")) ->
  MWon P tr0
    (race_settled on_value on_throw (mkMachine v (tr0 ++ evs) op t MAwait) r).
Proof.
  intros Hr. unfold race_settled. cbn [m_main m_timer m_trace m_vars m_op].
  set (p := match r with Fulfilled x => on_value x | Rejected e => on_throw e end)
    in *.
  rewrite advance_app. cbn [fst snd]. rewrite <- !app_assoc.
  eexists. split; [reflexivity|]. cbn [m_main].
  assert (Hd : forallb undecided
                 (evs ++ [EvRaceSettled (fulfilled r); EvClearTimeout]
                    ++ snd (fst (advance Main v [] p))) = false).
  { rewrite forallb_app. cbn. now rewrite andb_false_r. }
  assert (Hw : timer_first
                 (evs ++ [EvRaceSettled (fulfilled r); EvClearTimeout]
                    ++ snd (fst (advance Main v [] p))) = true ->
               Answers P p).
  { intros H. apply timer_first_settled in H. rewrite (Hr H). exact W_throw. }
  destruct (main_state (snd (advance Main v [] p))) as [|q|x|e] eqn:Em.
  - destruct (snd (advance Main v [] p)); discriminate.
  - split; [exact Hd|]. intros H. specialize (Hw H).
    destruct (advance_answers P p v Hw) as [[_ H2]|(r1 & _ & _ & H3)].
    + destruct (snd (advance Main v [] p)); cbn in Em; try discriminate;
        injection Em as <-; exact H2.
    + rewrite H3 in Em. discriminate.
  - split; [exact Hd|]. intros H. specialize (Hw H).
    destruct (advance_answers P p v Hw) as [[_ H2]|(r1 & _ & H2 & H3)].
    + destruct (snd (advance Main v [] p)); cbn in Em; try discriminate.
      destruct H2.
    + rewrite H3 in Em. injection Em as <-. exact H2.
  - exact Hd.
Qed.

Lemma MWon_race_settled (tr0 evs : list Event) (v : Vars) (op : Proc T)
    (t : TimerState) (mn : MainState Response) (r : Settled T) :
  (mn = MAwait -> timer_first evs = true ->
   (match r with Fulfilled x => on_value x | Rejected e => on_throw e end)
   = on_throw (Js.mkError "Timeout")) ->
  (mn <> MAwait -> MWon P tr0 (mkMachine v (tr0 ++ evs) op t mn)) ->
  MWon P tr0
    (race_settled on_value on_throw (mkMachine v (tr0 ++ evs) op t mn) r).
Proof.
  intros H1 H2. destruct mn as [|p|x|e].
  - apply settle_won. auto.
  - apply H2. discriminate.
  - apply H2. discriminate.
  - apply H2. discriminate.
Qed.

Lemma MWon_quiet (tr0 evs more : list Event) (v v' : Vars) (op op' : Proc T)
    (t t' : TimerState) (mn : MainState Response) :
  forallb undecided more = true ->
  MWon P tr0 (mkMachine v (tr0 ++ evs) op t mn) ->
  MWon P tr0 (mkMachine v' (tr0 ++ evs ++ more) op' t' mn).
Proof.
  intros Hq (evs0 & E & H). cbn in *.
  apply app_inv_head in E. subst evs0.
  exists (evs ++ more). split; [reflexivity|]. cbn.
  destruct mn as [|p|r|e].
  - rewrite forallb_app, H, Hq. reflexivity.
  - destruct H as [Hd Hp]. split; [now apply decided_app|].
    now rewrite timer_first_decided.
  - destruct H as [Hd Hp]. split; [now apply decided_app|].
    now rewrite timer_first_decided.
  - now apply decided_app.
Qed.

Lemma MWon_op_progress (tr0 evs : list Event) (v : Vars) (op : Proc T)
    (t : TimerState) (mn : MainState Response) :
  MWon P tr0 (mkMachine v (tr0 ++ evs) op t mn) ->
  MWon P tr0 (op_progress on_value on_throw (mkMachine v (tr0 ++ evs) op t mn)).
Proof.
  intros H. unfold op_progress. cbn [m_op].
  assert (Hs : forall r,
            MWon P tr0
              (race_settled on_value on_throw
                 (mkMachine v (tr0 ++ evs) op t mn) r)).
  { intros r. apply MWon_race_settled; [|auto].
    intros -> Hf. destruct H as (evs0 & E & H0). cbn in *.
    apply app_inv_head in E. subst evs0.
    rewrite (timer_first_none _ H0) in Hf. discriminate. }
  destruct op; auto.
Qed.

Lemma MWon_reject (tr0 evs : list Event) (v : Vars) (op : Proc T)
    (t : TimerState) (mn : MainState Response) :
  MWon P tr0 (mkMachine v (tr0 ++ evs) op t mn) ->
  MWon P tr0
    (reject_timeout on_value on_throw (mkMachine v (tr0 ++ evs) op t mn)).
Proof.
  intros H. unfold reject_timeout. cbn [m_vars m_trace m_op m_main].
  rewrite <- app_assoc. apply MWon_race_settled.
  - reflexivity.
  - intros Hmn. destruct H as (evs0 & E & H0). cbn in *.
    apply app_inv_head in E. subst evs0.
    exists (evs ++ [EvRejectTimeout]). split; [reflexivity|]. cbn.
    destruct mn as [|p|r|e]; [contradiction| | |].
    + destruct H0 as [Hd Hp]. split; [now apply decided_app|].
      now rewrite timer_first_decided.
    + destruct H0 as [Hd Hp]. split; [now apply decided_app|].
      now rewrite timer_first_decided.
    + now apply decided_app.
Qed.

Lemma MWon_timer_progress (tr0 evs : list Event) (v : Vars) (op : Proc T)
    (t : TimerState) (mn : MainState Response) (p : Proc unit) :
  MWon P tr0 (mkMachine v (tr0 ++ evs) op t mn) ->
  MWon P tr0
    (timer_progress on_value on_throw (mkMachine v (tr0 ++ evs) op t mn) p).
Proof.
  intros H.
  assert (Hrej : MWon P tr0
            (reject_timeout on_value on_throw
               (mkMachine v ((tr0 ++ evs) ++ [EvOnTimeoutSettled]) op t mn))).
  { rewrite <- app_assoc. apply MWon_reject.
    now apply (MWon_quiet tr0 evs [EvOnTimeoutSettled] v v op op t t mn). }
  destruct H as (evs0 & E & H0). cbn in E, H0.
  apply app_inv_head in E. subst evs0.
  destruct p; cbn [timer_progress m_vars m_trace m_op m_timer m_main]; auto;
    exists evs; auto.
Qed.

Lemma step_MWon (tr0 : list Event) (ch : Choice) (m : Machine T Response) :
  MWon P tr0 m -> MWon P tr0 (step onTimeout on_value on_throw ch m).
Proof.
  intros Hm. pose proof Hm as Hm0.
  destruct m as [v tr op t mn].
  destruct Hm as (evs & E & Hmn). cbn in E, Hmn. subst tr.
  destruct ch as [a| |a|a]; cbn [step m_vars m_trace m_op m_timer m_main].
  - destruct op as [x|e|U c k|k|f k|e k]; auto.
    rewrite advance_app. cbn [fst snd]. rewrite <- !app_assoc.
    apply MWon_op_progress.
    apply (MWon_quiet tr0 evs _ v _ (Await c k) _ t t mn); [|exact Hm0].
    cbn. apply advance_undecided.
  - destruct t; auto.
    destruct onTimeout as [cb|].
    + rewrite advance_app. cbn [fst snd]. rewrite <- !app_assoc.
      apply MWon_timer_progress.
      apply (MWon_quiet tr0 evs _ v _ op op TArmed TArmed mn); [|exact Hm0].
      cbn. apply advance_undecided.
    + rewrite <- app_assoc. apply MWon_reject.
      now apply (MWon_quiet tr0 evs [EvTimerFired] v v op op TArmed TArmed mn).
  - destruct t as [|p| |]; auto.
    destruct p as [x|e|U c k|k|f k|e k]; auto.
    rewrite advance_app. cbn [fst snd]. rewrite <- !app_assoc.
    apply MWon_timer_progress.
    apply (MWon_quiet tr0 evs _ v _ op op (TRunning (Await c k))
             (TRunning (Await c k)) mn); [|exact Hm0].
    cbn. apply advance_undecided.
  - destruct mn as [|p|r|e]; auto.
    destruct p as [x|e|U c k|k|f k|e k]; auto.
    destruct Hmn as [Hd Hk].
    rewrite advance_app. cbn [fst snd]. rewrite <- !app_assoc.
    eexists. split; [reflexivity|]. cbn [m_main].
    assert (Hd' : forallb undecided
                    (evs ++ [EvSettle Main (name_of c) (fulfilled (a U c))]
                       ++ snd (fst (advance Main v [] (k (a U c))))) = false)
      by now apply decided_app.
    assert (Hw : timer_first
                   (evs ++ [EvSettle Main (name_of c) (fulfilled (a U c))]
                      ++ snd (fst (advance Main v [] (k (a U c))))) = true ->
                 Answers P (k (a U c))).
    { rewrite timer_first_decided by assumption. intros H.
      exact (Hk H (a U c)). }
    destruct (main_state (snd (advance Main v [] (k (a U c)))))
      as [|q|x|e] eqn:Em.
    + destruct (snd (advance Main v [] (k (a U c)))); discriminate.
    + split; [exact Hd'|]. intros H. specialize (Hw H).
      destruct (advance_answers P _ v Hw) as [[_ H2]|(r1 & _ & _ & H3)].
      * destruct (snd (advance Main v [] (k (a U c)))); cbn in Em;
          try discriminate; injection Em as <-; exact H2.
      * rewrite H3 in Em. discriminate.
    + split; [exact Hd'|]. intros H. specialize (Hw H).
      destruct (advance_answers P _ v Hw) as [[_ H2]|(r1 & _ & H2 & H3)].
      * destruct (snd (advance Main v [] (k (a U c)))); cbn in Em;
          try discriminate. destruct H2.
      * rewrite H3 in Em. injection Em as <-. exact H2.
    + exact Hd'.
Qed.

Lemma steps_MWon (tr0 : list Event) (sched : list Choice)
    (m : Machine T Response) :
  MWon P tr0 m -> MWon P tr0 (steps onTimeout on_value on_throw sched m).
Proof.
  revert m. induction sched as [|ch sched IH]; intros m H; cbn; [exact H|].
  apply IH, step_MWon, H.
Qed.

Lemma withTimeout_MWon (v : Vars) (tr0 : list Event) (op : Proc T) (ms : Z) :
  MWon P tr0 (withTimeout on_value on_throw v tr0 op ms).
Proof.
  unfold withTimeout. rewrite advance_app. cbn [fst snd].
  rewrite <- app_assoc. apply MWon_op_progress.
  exists (snd (fst (advance Op v [] op)) ++ [EvSetTimeout ms]).
  split; [reflexivity|]. cbn.
  rewrite forallb_app, advance_undecided. reflexivity.
Qed.

End TimerWins.

Lemma timer_first_reject (l1 l2 : list Event) :
  count is_race_settled l1 = 0%nat ->
  timer_first (l1 ++ EvRejectTimeout :: l2) = true.
Proof.
  unfold count. induction l1 as [|e l1 IH]; [reflexivity|]. cbn.
  destruct e; cbn; auto. discriminate.
Qed.

Lemma main_events_undecided (evs : list Event) :
  Forall (fun e => by_thread Main e = true) evs -> forallb undecided evs = true.
Proof.
  intros H. apply forallb_forall. intros e He.
  rewrite Forall_forall in H. specialize (H e He).
  destruct e; cbn in *; try discriminate; reflexivity.
Qed.

Lemma catch_timeout (debug : bool) :
  Answers (fun r => r = timed_out) (handler_catch debug (Js.mkError "Timeout")).
Proof.
  unfold handler_catch. cbn -[cleanup].
  apply Answers_bind with (acc := []); [|apply Calm_cleanup].
  intros _. cbn. auto.
Qed.

(** Whatever the request, the answers of the calls and the schedule:
    when the timer's [reject] is called while the race is still
    unsettled, so that the timeout and not the operation settles the
    race, the response of the handler, once it is done, is 504 "Timeout"
    without details, and it is the only response sent, also when the
    operation returns or throws afterwards. *)
Theorem timeout_wins_504 (isIP : string -> Z) (parseURL : string -> option URL)
    (env : nat -> Answer) (sched : list Choice) (req : Request)
    (l1 l2 : list Event) (r : Response) :
  let o := handler isIP parseURL env sched req in
  out_trace o = l1 ++ EvRejectTimeout :: l2 ->
  count is_race_settled l1 = 0%nat ->
  out_main o = MDone r ->
  r = timed_out /\ responses (out_trace o) = [timed_out].
Proof.
  cbn zeta.
  pose proof (run_events Main (handler_entry isIP parseURL req) env initial_vars)
    as Hev.
  destruct (run_entry_cases isIP parseURL env req) as (tr & res & Hrun & _ & Hr).
  unfold handler. rewrite Hrun in *. cbn [fst snd] in Hev.
  apply main_events_undecided in Hev.
  destruct res as [resp|[url debug]]; cbn [out_trace out_main].
  - intros Htr. exfalso. rewrite forallb_forall in Hev.
    specialize (Hev EvRejectTimeout). rewrite Htr in Hev.
    specialize (Hev (in_elt _ _ _)). discriminate.
  - intros Htr Hl1 Hm.
    destruct Hr as (_ & _ & Hhost).
    assert (HW : MWon (fun x => x = timed_out) tr
                   (handler_steps debug sched (handler_race tr url debug))).
    { unfold handler_steps, handler_race. apply steps_MWon.
      - apply catch_timeout.
      - apply withTimeout_MWon. apply catch_timeout. }
    destruct HW as (evs & E & HW). rewrite Hm in HW. destruct HW as [_ HW].
    assert (Hr : r = timed_out).
    { apply HW. rewrite <- (timer_first_undecided tr evs Hev), <- E, Htr.
      now apply timer_first_reject. }
    split; [exact Hr|].
    destruct (race_responses tr url debug sched) as (evs' & E' & _ & _ & Hmn).
    rewrite Hm in Hmn. destruct Hmn as [Hrs _].
    rewrite E', responses_app, Hrs, Hr.
    pose proof (isHostAllowed_events isIP parseURL env initial_vars url) as Hd.
    unfold events_of in Hd. rewrite Hhost in Hd. cbn in Hd.
    now rewrite (responses_dns tr Hd).
Qed.

(** ** The further properties at concrete inputs *)

(** A POST is turned away. *)
Lemma non_get_rejected_witness :
  let req := mkRequest "POST" (QString "https://example.com") QUndefined in
  req_method req <> "GET"
  /\ handler AddrText.isIP_ref Env.parseURL (fun _ => Env.yes) [StepOp Env.yes] req
     = mkOutcome [EvEffect Main (setHeader "Allow" "GET");
                  EvEffect Main (respond method_not_allowed)]
         initial_vars (MDone method_not_allowed).
Proof.
  intros req. split; [discriminate|].
  apply (non_get_rejected AddrText.isIP_ref Env.parseURL (fun _ => Env.yes)
           [StepOp Env.yes] req).
  discriminate.
Defined.

(** A GET with an empty array for the url. *)
Lemma missing_url_rejected_witness :
  let req := mkRequest "GET" (QArray []) (QString "1") in
  query_first (query_url req) = None
  /\ handler AddrText.isIP_ref Env.parseURL (fun _ => Env.yes) [StepOp Env.yes] req
     = mkOutcome [EvEffect Main (respond invalid_url)] initial_vars
         (MDone invalid_url).
Proof.
  intros req. split; [reflexivity|].
  apply (missing_url_rejected AddrText.isIP_ref Env.parseURL (fun _ => Env.yes)
           [StepOp Env.yes] req); [reflexivity|].
  left. reflexivity.
Defined.

(** A lookup that answers with a text that is no address. *)
Lemma unrecognised_addresses_allowed_witness :
  let addrs := [mkLookupAddress "not-an-ip" 4] in
  let env := fun _ : nat => Env.ok addrs "<html></html>" Env.empty_doc in
  AddrText.isIP_ref "not-an-ip" = 0
  /\ host_allowed AddrText.isIP_ref Env.parseURL env "https://example.com"
     = inl true.
Proof.
  intros addrs env. split; [vm_compute; reflexivity|].
  apply (unrecognised_addresses_allowed AddrText.isIP_ref Env.parseURL env
           "https://example.com" (mkURL "https:" "example.com") addrs).
  - reflexivity.
  - discriminate.
  - discriminate.
  - reflexivity.
  - discriminate.
  - intros a [<-|[]]. repeat split; vm_compute; discriminate.
Defined.

Lemma ipv6_class_ignores_case_witness :
  (AddrText.isIP_ref "FE80::1" = 6 /\ AddrText.isIP_ref "fe80::1" = 6)
  /\ isPrivateIp AddrText.isIP_ref "fe80::1"
     = isPrivateIp AddrText.isIP_ref "FE80::1".
Proof.
  split.
  - split; vm_compute; reflexivity.
  - apply (ipv6_class_ignores_case AddrText.isIP_ref "FE80::1");
      vm_compute; reflexivity.
Defined.

(** An IPv4-mapped loopback address, for a classifier that reads it as
    IPv6. *)
Lemma ipv6_colon_prefix_public_witness :
  isPrivateIp (fun _ => 6) "::ffff:127.0.0.1" = false.
Proof.
  apply (proj2 (ipv6_colon_prefix_public (fun _ => 6) ":ffff:127.0.0.1" eq_refl)
           "127.0.0.1").
  reflexivity.
Defined.

Lemma timer_cleared_for_good_witness :
  let m1 := handler_steps false (map StepOp [Env.yes; Env.yes; Env.yes; Env.yes;
                                             Env.yes; Env.yes])
              (handler_race [] "https://example.com" false) in
  let m2 := handler_steps false [Fire; StepTimer Env.yes; StepOp Env.yes] m1 in
  m_timer m1 = TCleared
  /\ m_timer m2 = TCleared
  /\ filter is_timer_event (m_trace m2) = [].
Proof.
  intros m1 m2.
  destruct (timer_cleared_for_good cleanup (send 200) (handler_catch false)
              (map StepOp [Env.yes; Env.yes; Env.yes; Env.yes; Env.yes; Env.yes])
              [Fire; StepTimer Env.yes; StepOp Env.yes]
              initial_vars [] (operation "https://example.com" false) TIMEOUT
              eq_refl) as (_ & _ & H).
  split; [vm_compute; reflexivity|].
  apply H. vm_compute. reflexivity.
Defined.

Lemma withTimeout_transparent_witness :
  let answers := [Env.yes; Env.yes; Env.yes; Env.yes; Env.yes; Env.yes] in
  let m := handler_steps false (map StepOp answers)
             (handler_race [] "https://example.com" false) in
  (awaits (Env.script answers Env.yes) initial_vars
     (operation "https://example.com" false) <= List.length answers)%nat
  /\ m_timer m = TCleared
  /\ m_main m
     = MDone (mkResponse 200
                (SuccessResponse (Some "A") (Some "B") (Some "C") 200)).
Proof.
  intros answers m.
  assert (Hn : (awaits (Env.script answers Env.yes) initial_vars
                  (operation "https://example.com" false)
                <= List.length answers)%nat)
    by (vm_compute; repeat constructor).
  split; [exact Hn|].
  destruct (withTimeout_transparent (Some cleanup) (send 200)
              (handler_catch false) answers Env.yes initial_vars []
              (operation "https://example.com" false) TIMEOUT Hn)
    as (_ & Ht & _ & Hm & _).
  split; [exact Ht|]. unfold m, handler_steps, handler_race.
  rewrite Hm. vm_compute. reflexivity.
Defined.

(** The deadline passes while the navigation is pending and the close
    of the cleanup throws. *)
Lemma deadline_answers_504_witness :
  let m := handler_steps true [StepOp Env.yes; StepOp Env.yes; StepOp Env.yes]
             (handler_race [] "https://example.com" true) in
  (m_timer m = TArmed /\ m_main m = MAwait)
  /\ m_main (handler_steps true
               [Fire; StepTimer (Env.fail "close failed"); StepMain Env.yes] m)
     = MDone timed_out.
Proof.
  intros m. split; [split; reflexivity|].
  apply (deadline_answers_504 true m (Env.fail "close failed") Env.yes);
    reflexivity.
Defined.

(** The navigation fails twice; the [catch] block closes the browser. *)
Lemma closed_once_without_timeout_witness :
  let o := handler AddrText.isIP_ref Env.parseURL (fun _ => Env.yes)
             [StepOp Env.yes; StepOp Env.yes; StepOp Env.yes;
              StepOp (Env.fail "net::ERR_FAILED"); StepOp Env.yes;
              StepOp (Env.fail "net::ERR_FAILED"); StepMain Env.yes]
             (Env.get "https://example.com") in
  (out_main o
   = MDone (mkResponse 500 (ErrorResponse "Failed to scrape page" None))
   /\ filter is_timer_event (out_trace o) = []
   /\ browser (out_vars o) = Some (mkBrowser 1))
  /\ count is_close_call (out_trace o) = 1%nat.
Proof.
  intros o. split.
  - vm_compute. repeat split.
  - apply (closed_once_without_timeout AddrText.isIP_ref Env.parseURL
             (fun _ => Env.yes)
             [StepOp Env.yes; StepOp Env.yes; StepOp Env.yes;
              StepOp (Env.fail "net::ERR_FAILED"); StepOp Env.yes;
              StepOp (Env.fail "net::ERR_FAILED"); StepMain Env.yes]
             (Env.get "https://example.com")
             (mkResponse 500 (ErrorResponse "Failed to scrape page" None)));
      vm_compute; reflexivity.
Defined.


(** The deadline passes while the launch is pending; the operation goes
    on afterwards. *)
Lemma timeout_wins_504_witness :
  let o := handler AddrText.isIP_ref Env.parseURL (fun _ => Env.yes)
             [Fire; StepOp Env.yes] (Env.get "https://example.com") in
  let l1 := [EvCall Main (CDnsLookup "example.com");
             EvSettle Main (CDnsLookup "example.com") true;
             EvCall Op CLaunch; EvSetTimeout 20000;
             EvTimerFired; EvOnTimeoutCalled; EvOnTimeoutSettled] in
  let l2 := [EvRaceSettled false; EvClearTimeout;
             EvEffect Main (console_error "Timeout");
             EvEffect Main (respond timed_out);
             EvSettle Op CLaunch true;
             EvCall Op (CNewContext DEFAULT_USER_AGENT)] in
  (out_trace o = l1 ++ EvRejectTimeout :: l2
   /\ count is_race_settled l1 = 0%nat
   /\ out_main o = MDone timed_out)
  /\ responses (out_trace o) = [timed_out].
Proof.
  intros o l1 l2.
  assert (H1 : out_trace o = l1 ++ EvRejectTimeout :: l2)
    by (vm_compute; reflexivity).
  assert (H2 : count is_race_settled l1 = 0%nat) by reflexivity.
  assert (H3 : out_main o = MDone timed_out) by (vm_compute; reflexivity).
  split; [auto|].
  exact (proj2 (timeout_wins_504 AddrText.isIP_ref Env.parseURL
                  (fun _ => Env.yes) [Fire; StepOp Env.yes]
                  (Env.get "https://example.com") l1 l2 timed_out H1 H2 H3)).
Defined.
